(** * piebot: the sound-change pipeline and the spelling generator

    A shallow embedding of [piebot.py] and the properties of its
    pipeline.

    - A phone is a string, a pronunciation a list of phones.
    - A Python exception is an explicit [Raise] result; functions of the
      source that index a string or a list return a [result].
    - The context patterns stay the pattern strings of the source; they
      are compiled by a parser for the fragment of Python's [re] syntax
      the program uses (literals, [.], [^], [$], [*], [+], [|], groups
      and character classes without ranges), and [search] is decided by
      listing the positions where a match can end.
    - Strings are sequences of ASCII characters.
    - The score of a spelling, a float in the source, is an exact
      rational.
    - The tables read from files (roots, suffixes, spelling model, IPA)
      and the draws of [random.choice] are parameters of
      [generate_entry]; [read_in_pie_suffixes] takes the lines of its
      file; printing and the command line are left out. *)

From Stdlib Require Import String Ascii List Arith ZArith QArith Lia Bool.
From Stdlib Require Import Permutation Sorted.
Import ListNotations.

Local Close Scope Q_scope.
Local Close Scope Z_scope.
Local Open Scope string_scope.
Local Open Scope list_scope.
Local Open Scope nat_scope.

Set Implicit Arguments.

(* ===================================================================== *)
(** ** Python exceptions as results *)

Inductive exn : Type :=
| IndexError
| KeyError
| ZeroDivisionError
| ReError.

Inductive result (A : Type) : Type :=
| Ok (a : A)
| Raise (e : exn).

Arguments Ok {A} a.
Arguments Raise {A} e.

Definition bind {A B : Type} (m : result A) (k : A -> result B) : result B :=
  match m with
  | Ok a => k a
  | Raise e => Raise e
  end.

Notation "x <- m ;; k" := (bind m (fun x => k))
  (at level 100, m at next level, right associativity).

(** [for x in l: acc = body(acc, x)] where the body may raise. *)
Fixpoint for_each {A S : Type} (body : S -> A -> result S) (l : list A) (acc : S)
  : result S :=
  match l with
  | [] => Ok acc
  | x :: l' => acc' <- body acc x ;; for_each body l' acc'
  end.

(* ===================================================================== *)
(** ** The Python built-ins the program uses *)

Module Py.

Definition chars (s : string) : list ascii := list_ascii_of_string s.
Definition str (cs : list ascii) : string := string_of_list_ascii cs.

(** [sep.join(l)] *)
Definition join (sep : string) (l : list string) : string := String.concat sep l.

(** [enumerate(l)] *)
Definition enumerate {A : Type} (l : list A) : list (nat * A) :=
  combine (seq 0 (length l)) l.

(** Characters for which [str.isspace] holds, among the ASCII ones. *)
Definition isspace (c : ascii) : bool :=
  let n := nat_of_ascii c in
  ((9 <=? n) && (n <=? 13)) || ((28 <=? n) && (n <=? 32)).

(** [s.split()]: the maximal runs of non-whitespace characters.  [cur] is
    the token being read, in reverse. *)
Fixpoint split_go (cur : list ascii) (cs : list ascii) : list string :=
  match cs with
  | [] => match cur with [] => [] | _ => [str (rev cur)] end
  | c :: cs' =>
      if isspace c
      then match cur with
           | [] => split_go [] cs'
           | _ => str (rev cur) :: split_go [] cs'
           end
      else split_go (c :: cur) cs'
  end.

Definition split (s : string) : list string := split_go [] (chars s).

(** [s.startswith(p)] on character lists *)
Fixpoint starts_with (p s : list ascii) : bool :=
  match p, s with
  | [], _ => true
  | a :: p', b :: s' => Ascii.eqb a b && starts_with p' s'
  | _ :: _, [] => false
  end.

(** [s.replace(old, new)] for a non-empty [old]: every non-overlapping
    occurrence, scanning from the left.  [skip] counts the characters of
    an occurrence that are still to be passed over. *)
Fixpoint replace_go (old new : list ascii) (skip : nat) (cs : list ascii)
  : list ascii :=
  match cs with
  | [] => []
  | c :: cs' =>
      match skip with
      | S k => replace_go old new k cs'
      | O => if starts_with old cs
             then new ++ replace_go old new (length old - 1) cs'
             else c :: replace_go old new 0 cs'
      end
  end.

Definition replace (old new : string) (s : string) : string :=
  str (replace_go (chars old) (chars new) 0 (chars s)).

(** [sub in s] for strings *)
Fixpoint contains_go (sub cs : list ascii) : bool :=
  starts_with sub cs ||
  match cs with
  | [] => false
  | _ :: cs' => contains_go sub cs'
  end.

Definition contains (sub s : string) : bool := contains_go (chars sub) (chars s).

(** [x in l] for a list of strings *)
Definition mem (x : string) (l : list string) : bool :=
  existsb (String.eqb x) l.

(** [c in l] for a list of one-letter strings, [c] being one character *)
Definition mem_char (c : ascii) (l : list ascii) : bool :=
  existsb (Ascii.eqb c) l.

(** [s[-1]] and [s[-2]]: IndexError when the string is too short. *)
Definition last_char (s : string) : result ascii :=
  match rev (chars s) with
  | c :: _ => Ok c
  | [] => Raise IndexError
  end.

Definition last_but_one_char (s : string) : result ascii :=
  match rev (chars s) with
  | _ :: c :: _ => Ok c
  | _ => Raise IndexError
  end.

(** [s[:-1]] (never raises: the empty string gives the empty string) *)
Definition drop_last_char (s : string) : string := str (removelast (chars s)).

(** [l[-1]] on a list *)
Definition last_item {A : Type} (l : list A) : result A :=
  match rev l with
  | x :: _ => Ok x
  | [] => Raise IndexError
  end.

(** [l[i]] for a non-negative index *)
Definition item {A : Type} (l : list A) (i : nat) : result A :=
  match nth_error l i with
  | Some x => Ok x
  | None => Raise IndexError
  end.

(** [s.strip(':')]: the given character removed from both ends *)
Fixpoint lstrip_go (c : ascii) (cs : list ascii) : list ascii :=
  match cs with
  | [] => []
  | d :: cs' => if Ascii.eqb d c then lstrip_go c cs' else cs
  end.

Definition strip (c : ascii) (s : string) : string :=
  str (rev (lstrip_go c (rev (lstrip_go c (chars s))))).

(** [sorted(l, key=key, reverse=True)]: the stable sort by descending key;
    elements with equal keys keep their order. *)
Section Sorted.
Variables (A K : Type) (key : A -> K) (ltb : K -> K -> bool).

Fixpoint insert_desc (x : A) (l : list A) : list A :=
  match l with
  | [] => [x]
  | y :: l' => if ltb (key x) (key y) then y :: insert_desc x l'
               else x :: l
  end.

Definition sorted_desc (l : list A) : list A := fold_right insert_desc [] l.
End Sorted.

(** A dict literal, in insertion order. *)
Definition dict (V : Type) : Type := list (string * V).

Fixpoint get {V : Type} (d : dict V) (k : string) : option V :=
  match d with
  | [] => None
  | (k', v) :: d' => if String.eqb k k' then Some v else get d' k
  end.

Definition has {V : Type} (d : dict V) (k : string) : bool :=
  match get d k with Some _ => true | None => false end.

(** [s.strip()]: the whitespace removed from both ends *)
Fixpoint lstrip_space (cs : list ascii) : list ascii :=
  match cs with
  | [] => []
  | c :: cs' => if isspace c then lstrip_space cs' else cs
  end.

Definition strip_space (s : string) : string :=
  str (rev (lstrip_space (rev (lstrip_space (chars s))))).

(** [s.split(None, 1)]: the first run of non-whitespace characters and,
    when something other than whitespace follows it, the rest of the
    string from there on.  [cur] is the run being read, in reverse. *)
Fixpoint split_once_go (cur : list ascii) (cs : list ascii) : list string :=
  match cs with
  | [] => match cur with [] => [] | _ => [str (rev cur)] end
  | c :: cs' =>
      if isspace c
      then match cur with
           | [] => split_once_go [] cs'
           | _ => match lstrip_space cs' with
                  | [] => [str (rev cur)]
                  | rest => [str (rev cur); str rest]
                  end
           end
      else split_once_go (c :: cur) cs'
  end.

Definition split_once (s : string) : list string := split_once_go [] (chars s).

(** [d[k] = v]: the value of an old key is replaced in its place, a new
    key is added at the end. *)
Fixpoint set_item {V : Type} (d : dict V) (k : string) (v : V) : dict V :=
  match d with
  | [] => [(k, v)]
  | (k', v') :: d' =>
      if String.eqb k k' then (k, v) :: d' else (k', v') :: set_item d' k v
  end.

End Py.

(* ===================================================================== *)
(** ** Regular expressions: the fragment of [re] used by the rule tables *)

Module Re.

Inductive regex : Type :=
| Empty                                   (* the empty pattern *)
| Lit (c : ascii)                         (* an ordinary character *)
| AnyChar                                 (* [.]: anything but a newline *)
| Class (negated : bool) (members : list ascii)   (* [[...]] and [[^...]] *)
| Bol                                     (* [^] *)
| Eol                                     (* [$] *)
| Cat (r1 r2 : regex)
| Or (r1 r2 : regex)
| Star (r : regex).

Definition newline : ascii := ascii_of_nat 10.

(** *** Compiling a pattern string *)

Definition is_postfix (c : ascii) : bool :=
  Py.mem_char c ["*"; "+"; "?"; "{"]%char.

(** The members of a character class, up to the closing bracket.  Ranges,
    escapes and nested brackets are outside the fragment. *)
Fixpoint parse_members (cs : list ascii) : option (list ascii * list ascii) :=
  match cs with
  | [] => None
  | c :: cs' =>
      if Ascii.eqb c "]" then Some ([], cs')
      else if Py.mem_char c ["-"; "\"; "["]%char then None
      else match parse_members cs' with
           | Some (ms, rest) => Some (c :: ms, rest)
           | None => None
           end
  end.

Definition parse_class (cs : list ascii) : option (regex * list ascii) :=
  let (neg, body) :=
    match cs with
    | c :: cs' => if Ascii.eqb c "^" then (true, cs') else (false, cs)
    | [] => (false, cs)
    end in
  match body with
  | [] => None
  | c :: _ =>
      if Ascii.eqb c "]" then None
      else match parse_members body with
           | Some (ms, rest) => Some (Class neg ms, rest)
           | None => None
           end
  end.

(** One optional repetition operator after an atom. *)
Definition parse_postfix (a : regex) (cs : list ascii) : option (regex * list ascii) :=
  match cs with
  | c :: cs' =>
      if Ascii.eqb c "*" then
        match a with Bol | Eol => None | _ => Some (Star a, cs') end
      else if Ascii.eqb c "+" then
        match a with Bol | Eol => None | _ => Some (Cat a (Star a), cs') end
      else if is_postfix c then None
      else Some (a, cs)
  | [] => Some (a, cs)
  end.

Fixpoint parse_alt (fuel : nat) (cs : list ascii) : option (regex * list ascii) :=
  match fuel with
  | O => None
  | S n =>
      match parse_cat n cs with
      | Some (r1, c :: rest) =>
          if Ascii.eqb c "|" then
            match parse_alt n rest with
            | Some (r2, rest') => Some (Or r1 r2, rest')
            | None => None
            end
          else Some (r1, c :: rest)
      | other => other
      end
  end
with parse_cat (fuel : nat) (cs : list ascii) : option (regex * list ascii) :=
  match fuel with
  | O => None
  | S n =>
      match cs with
      | [] => Some (Empty, [])
      | c :: _ =>
          if Py.mem_char c ["|"; ")"]%char then Some (Empty, cs)
          else
            match parse_atom n cs with
            | Some (a, rest) =>
                match parse_postfix a rest with
                | Some (a', rest') =>
                    match parse_cat n rest' with
                    | Some (Empty, rest'') => Some (a', rest'')
                    | Some (r, rest'') => Some (Cat a' r, rest'')
                    | None => None
                    end
                | None => None
                end
            | None => None
            end
      end
  end
with parse_atom (fuel : nat) (cs : list ascii) : option (regex * list ascii) :=
  match fuel with
  | O => None
  | S n =>
      match cs with
      | [] => None
      | c :: rest =>
          if Ascii.eqb c "(" then
            match parse_alt n rest with
            | Some (r, c' :: rest') =>
                if Ascii.eqb c' ")" then Some (r, rest') else None
            | _ => None
            end
          else if Ascii.eqb c "[" then parse_class rest
          else if Ascii.eqb c "." then Some (AnyChar, rest)
          else if Ascii.eqb c "^" then Some (Bol, rest)
          else if Ascii.eqb c "$" then Some (Eol, rest)
          else if Py.mem_char c ["*"; "+"; "?"; "{"; "}"; "]"; "\"]%char then None
          else Some (Lit c, rest)
      end
  end.

(** [re.compile(pattern)] *)
Definition compile (pattern : string) : result regex :=
  let cs := Py.chars pattern in
  match parse_alt (4 * length cs + 4) cs with
  | Some (r, []) => Ok r
  | _ => Raise ReError
  end.

(** *** Matching

    [ends s r i] lists the positions where a match of [r] that starts at
    position [i] of the text [s] can end. *)

Definition at_end (s : list ascii) (i : nat) : bool :=
  (i =? length s) ||
  ((S i =? length s) &&
   match nth_error s i with Some c => Ascii.eqb c newline | None => false end).

Definition one_char (s : list ascii) (i : nat) (ok : ascii -> bool) : list nat :=
  match nth_error s i with
  | Some c => if ok c then [S i] else []
  | None => []
  end.

(** Iterating a step function: zero or more rounds, each of which moves
    forward. *)
Fixpoint star_ends (step : nat -> list nat) (fuel : nat) (p : nat) : list nat :=
  p :: match fuel with
       | O => []
       | S n => flat_map (star_ends step n) (filter (fun q => p <? q) (step p))
       end.

Fixpoint ends (s : list ascii) (r : regex) (i : nat) : list nat :=
  match r with
  | Empty => [i]
  | Lit c => one_char s i (Ascii.eqb c)
  | AnyChar => one_char s i (fun d => negb (Ascii.eqb d newline))
  | Class neg ms => one_char s i (fun d => xorb neg (Py.mem_char d ms))
  | Bol => if i =? 0 then [i] else []
  | Eol => if at_end s i then [i] else []
  | Cat r1 r2 => nodup Nat.eq_dec (flat_map (ends s r2) (ends s r1 i))
  | Or r1 r2 => ends s r1 i ++ ends s r2 i
  | Star r1 => nodup Nat.eq_dec (star_ends (ends s r1) (length s) i)
  end.

Definition matches_from (s : list ascii) (r : regex) (i : nat) : bool :=
  match ends s r i with
  | [] => false
  | _ :: _ => true
  end.

(** [pattern.search(text)], as a truth value: is there a match starting at
    some position of the text? *)
Definition search (r : regex) (text : string) : bool :=
  let s := Py.chars text in
  existsb (matches_from s r) (seq 0 (S (length s))).

End Re.

(* ===================================================================== *)
(** ** The program *)

Module Piebot.

(** A phone is an opaque token. *)
Abbreviation Phone := string (only parsing).

Definition cat (a b : string) : string := String.append a b.
Infix "+s" := cat (at level 50, left associativity).

(** Python's [a and b] when evaluating [b] may raise. *)
Definition and_then (a : bool) (b : result bool) : result bool :=
  if a then b else Ok false.
Infix "&&&" := and_then (at level 40, left associativity).

(** *** Spelling: [pron_breaker]

    The generator's yields, in order.  The recursive call is on a proper
    suffix, so a fuel above the length of the pronunciation is never used
    up. *)
Fixpoint pron_breaker_fuel (fuel : nat) (pron : list Phone)
  : list (list (list Phone)) :=
  match fuel with
  | O => []
  | S n =>
      (if length pron =? 1 then [[pron]] else []) ++
      flat_map
        (fun i =>
           let start := firstn i pron in
           let end_ := skipn i pron in
           [start; end_] ::
           map (fun split => start :: split) (pron_breaker_fuel n end_))
        (seq 1 (length pron - 1))
  end.

Definition pron_breaker (pron : list Phone) : list (list (list Phone)) :=
  pron_breaker_fuel (S (length pron)) pron.

Definition sampa_map : Py.dict Phone :=
  [("e", "eI"); ("u:", "u"); ("a:", "A"); ("iu", "ju"); ("au", "aU");
   ("io", "IO"); ("eu", "ju"); ("o:", "o"); ("i:", "i"); ("e:", "E");
   ("a", "A"); ("ae", "eI")].

(** The spelling model: phone sequence -> (letter sequence -> count). *)
Definition p2g_model : Type := Py.dict (Py.dict Z).

Definition sonorant_letters : list ascii := ["w"; "r"; "l"; "m"; "n"]%char.
Definition vowel_letters : list ascii := ["a"; "e"; "i"; "o"; "u"; "y"]%char.

(** Lines 128-132 of [generate_spelling]: the two touch-ups. *)
Definition touch_up (new_spelling : string) (final_e : bool) : result string :=
  new_spelling <-
    (c1 <- Py.last_char new_spelling ;;
     insert <- (Py.mem_char c1 sonorant_letters &&&
                (c2 <- Py.last_but_one_char new_spelling ;;
                 Ok (negb (Py.mem_char c2 vowel_letters)))) ;;
     if insert
     then Ok (Py.drop_last_char new_spelling +s "e" +s String c1 "")
     else Ok new_spelling) ;;
  append <- (final_e &&&
             (c <- Py.last_char new_spelling ;; Ok (negb (Ascii.eqb c "e")))) ;;
  if append then Ok (new_spelling +s "e") else Ok new_spelling.

(** Is every chunk of the partition a key of the model? *)
Definition covered (spelling_model : p2g_model) (broken_pron : list (list Phone))
  : bool :=
  negb (existsb negb
          (map (fun phone_seq_list => Py.has spelling_model (Py.join "" phone_seq_list))
               broken_pron)).

(** The best spelling of one chunk: the first of the letter sequences
    sorted by descending count. *)
Definition best_spelling (spelling_model : p2g_model) (phone_seq_list : list Phone)
  : result (string * Z) :=
  let phone_seq := Py.join "" phone_seq_list in
  match Py.get spelling_model phone_seq with
  | None => Raise KeyError
  | Some spellings => Py.item (Py.sorted_desc snd Z.ltb spellings) 0
  end.

Definition Qltb (a b : Q) : bool := negb (Qle_bool b a).

(** [float(total) / float(n)], kept as the exact quotient of the integers. *)
Definition mean (total : Z) (n : nat) : result Q :=
  match n with
  | O => Raise ZeroDivisionError
  | S _ => Ok (Qmake total (Pos.of_nat n))
  end.

(** The inner loop: the best spelling of every chunk, in order. *)
Definition best_spellings (spelling_model : p2g_model)
           (broken_pron : list (list Phone)) : result (list (string * Z)) :=
  for_each (fun phone_seqs phone_seq_list =>
              best <- best_spelling spelling_model phone_seq_list ;;
              Ok (phone_seqs ++ [best]))
           broken_pron [].

(** The body of the loop over the partitions. *)
Definition score_partition (spelling_model : p2g_model) (final_e : bool)
           (spellings : list (string * Q)) (broken_pron : list (list Phone))
  : result (list (string * Q)) :=
  if negb (covered spelling_model broken_pron) then Ok spellings
  else
    phone_seqs <- best_spellings spelling_model broken_pron ;;
    spelling_score <- mean (fold_right Z.add 0%Z (map snd phone_seqs))
                           (length broken_pron) ;;
    new_spelling <- touch_up (Py.join "" (map fst phone_seqs)) final_e ;;
    Ok (spellings ++ [(new_spelling, spelling_score)]).

Definition normalize (pron : list Phone) : list Phone :=
  map (fun p => match Py.get sampa_map p with Some q => q | None => p end) pron.

Definition generate_spelling (spelling_model : p2g_model) (pron : list Phone)
           (final_e : bool) : result (list string) :=
  let pron := normalize pron in
  let combinations := pron_breaker pron in
  spellings <- for_each (score_partition spelling_model final_e) combinations [] ;;
  Ok (map fst (firstn 5 (Py.sorted_desc snd Qltb spellings))).

(** *** Pronunciation mapping sets *)

Definition by_length_desc (l : list string) : list string :=
  Py.sorted_desc String.length Nat.ltb l.

Definition voiceless : list Phone := ["p"; "t"; "k"; "f"; "T"; "x"; "kw"].
Definition VOICELESS_PATTERN : string :=
  "(" +s Py.join "|" (by_length_desc voiceless) +s ")".
Definition VOICED_PATTERN : string :=
  "[^(" +s Py.join ")|(" (by_length_desc voiceless) +s ")]".
Definition vowels : list Phone :=
  ["a"; "e"; "i"; "o"; "u"; "a:"; "e:"; "i:"; "o:"; "u:"; "y"; "y:"; "oe"; "oe:";
   "E"; "E:"; "A"; "A:"; "O"; "O:"; "ae"; "ae:";
   "eI"; "ai"; "oi"; "eu"; "au"; "ou";
   "eI:"; "ai:"; "oi:"; "eu:"; "au:"; "ou:"].
Definition VOWEL_PATTERN : string :=
  "(" +s Py.join "|" (by_length_desc vowels) +s ")".
Definition CONSONANT_PATTERN : string :=
  "[^(" +s Py.join ")|(" (by_length_desc vowels) +s ")]".

(** *** The general conditioned sound change *)

Definition sound_change_step (orig_pron : list Phone) (phone_maps : Py.dict Phone)
           (prior_pattern posterior_pattern : Re.regex)
           (new_pron : list Phone) (it : nat * Phone) : list Phone :=
  let (count, cur) := it in
  match Py.get phone_maps cur with
  | None => new_pron ++ [cur]
  | Some mapped =>
      let prior_phones := Py.join " " (firstn count orig_pron) in
      let posterior_phones := Py.join " " (skipn (count + 1) orig_pron) in
      if Re.search prior_pattern prior_phones &&
         Re.search posterior_pattern posterior_phones
      then new_pron ++ [mapped]
      else new_pron ++ [cur]
  end.

Definition sound_change (orig_pron : list Phone) (phone_maps : Py.dict Phone)
           (prior_context posterior_context : string) : result (list Phone) :=
  prior_pattern <- Re.compile prior_context ;;
  posterior_pattern <- Re.compile posterior_context ;;
  let new_pron :=
    fold_left (sound_change_step orig_pron phone_maps prior_pattern posterior_pattern)
              (Py.enumerate orig_pron) [] in
  Ok (filter (fun count => negb (String.eqb count "")) new_pron).

(** *** The eras *)

Definition late_pie_changes (pron : list Phone) : result (list Phone) :=
  let dict_h_deletion : Py.dict Phone :=
    [("h1", ""); ("h2", ""); ("h3", ""); ("\H", "")] in
  let late_pie_pron := filter (fun phone => negb (Py.has dict_h_deletion phone)) pron in
  Ok late_pie_pron.

Definition dict_grimm1 : Py.dict Phone :=
  [("p", "f"); ("t", "T"); ("k_>", "x"); ("k", "x"); ("kw", "xw")].
Definition dict_grimm2 : Py.dict Phone :=
  [("b", "p"); ("d", "t"); ("g_>", "k"); ("g", "k"); ("gw", "kw")].
Definition dict_grimm3 : Py.dict Phone :=
  [("bh", "v"); ("dh", "D"); ("g_>h", "G"); ("gh", "G"); ("gwh", "Gw")].

Definition grimm_changes (pron : list Phone) : result (list Phone) :=
  (* Grimm 1 applies everywhere except following 's' *)
  grimm_pron <- sound_change pron dict_grimm1 "(.*[^s]|^$)" ".*" ;;
  grimm_pron <- sound_change grimm_pron dict_grimm2 ".*" ".*" ;;
  grimm_pron <- sound_change grimm_pron dict_grimm3 ".*" ".*" ;;
  Ok grimm_pron.

(** Verner's Law: the call made by [generate_entry] (lines 553-555). *)
Definition dict_verner : Py.dict Phone :=
  [("s", "z"); ("f", "v"); ("x", "Z"); ("xw", "Zw")].
Definition verner_prior : string := ".*" +s VOWEL_PATTERN +s ".* .*".

Definition verner_changes (grimm_pron : list Phone) : result (list Phone) :=
  sound_change grimm_pron dict_verner verner_prior ".*".

Definition proto_germanic_changes (pron : list Phone) : result (list Phone) :=
  (* o > a *)
  pg_pron <- sound_change pron [("o", "a")] ".*" ".*" ;;
  (* u > o if followed by nasal and then consonant *)
  pg_pron <- sound_change pg_pron [("u", "o")] ".*" ("^(n|m) " +s CONSONANT_PATTERN) ;;
  (* e > i if followed by nasal and then consonant *)
  pg_pron <- sound_change pg_pron [("e", "i")] ".*" ("^(n|m) " +s CONSONANT_PATTERN) ;;
  (* e > i if vowel in next syllable is i, i:, or has j *)
  pg_pron <- sound_change pg_pron [("e", "i")] ".*" ".*(i|i:|j)" ;;
  (* a: > o: everywhere *)
  pg_pron <- sound_change pg_pron [("a:", "o:")] ".*" ".*" ;;
  (* a > a: before n x; n and x deleted *)
  let pg_pron := Py.split (Py.replace "a n x" "a:" (Py.join " " pg_pron)) in
  (* i deleted after e: *)
  pg_pron <- sound_change pg_pron [("i", "")] "e:$" ".*" ;;
  (* long dipthongs become short *)
  pg_pron <- sound_change pg_pron
               [("eI:", "eI"); ("ai:", "ai"); ("oi:", "oi");
                ("eu:", "eu"); ("au:", "au"); ("ou:", "ou")] ".*" ".*" ;;
  (* oi > ai, ou > au, ei > i: *)
  pg_pron <- sound_change pg_pron [("oi", "ai"); ("ou", "au"); ("eI", "i:")] ".*" ".*" ;;
  (* eu > iu before i,i:,j in next syllable *)
  pg_pron <- sound_change pg_pron [("eu", "iu")] ".*" ".*(i|i:|j)" ;;
  Ok pg_pron.

Definition old_english_changes (pron : list Phone) : result (list Phone) :=
  (* Gw > G before u *)
  oe_pron <- sound_change pron [("Gw", "G")] ".*" "^u" ;;
  (* Gw > w *)
  oe_pron <- sound_change oe_pron [("Gw", "w")] ".*" ".*" ;;
  (* G > j after i,j *)
  oe_pron <- sound_change oe_pron [("G", "j")] ".*(i|i:|j)$" ".*" ;;
  (* G > j before i,j *)
  oe_pron <- sound_change oe_pron [("G", "j")] ".*" "^(i|i:|j).*" ;;
  (* G > g initially *)
  oe_pron <- sound_change oe_pron [("G", "g")] "^$" ".*" ;;
  (* G > g after n *)
  oe_pron <- sound_change oe_pron [("G", "g")] ".*n$" ".*" ;;
  (* G > x finally *)
  oe_pron <- sound_change oe_pron [("G", "x")] ".*" "^$" ;;
  (* v > b initially *)
  oe_pron <- sound_change oe_pron [("v", "b")] "^$" ".*" ;;
  (* v > f finally, if after voiceless sound *)
  oe_pron <- sound_change oe_pron [("v", "f")] (".*" +s VOICELESS_PATTERN +s "$") "^$" ;;
  (* v > f between voiceless sounds *)
  oe_pron <- sound_change oe_pron [("v", "f")] (".*" +s VOICELESS_PATTERN +s "$")
               ("^" +s VOICELESS_PATTERN +s ".*") ;;
  (* D > d everywhere *)
  oe_pron <- sound_change oe_pron [("D", "d")] ".*" ".*" ;;
  (* x > h except finally or before voiceless *)
  oe_pron <- sound_change oe_pron [("x", "h")] ".*" ("^" +s VOICED_PATTERN) ;;
  (* h disappears between vowels *)
  oe_pron <- sound_change oe_pron [("h", "")] (VOWEL_PATTERN +s "$")
               ("^" +s VOWEL_PATTERN) ;;
  (* z > r or 0 *)
  oe_pron <- sound_change oe_pron [("z", "r\")] (VOWEL_PATTERN +s "$") ".*" ;;
  oe_pron <- sound_change oe_pron [("z", "")] (CONSONANT_PATTERN +s "$") "^$" ;;
  (* a > ae (ash) EXCEPT before n or a following syllable with a, o, u *)
  oe_pron <- sound_change oe_pron [("a", "ae")] ".*" "^[^naou]+$" ;;
  (* a: > o: *)
  oe_pron <- sound_change oe_pron [("a:", "o:")] ".*" ".*" ;;
  (* ai > a:, au > ea:, eu > eo:, iu > eo: *)
  oe_pron <- sound_change oe_pron
               [("ai", "a:"); ("au", "ea"); ("eu", "eo:"); ("iu", "eo:")] ".*" ".*" ;;
  Ok oe_pron.

Definition late_old_english_changes (pron : list Phone) : result (list Phone) :=
  (* palatal umlaut *)
  loe_pron <- sound_change pron
                [("a", "e"); ("ae", "e"); ("o", "e"); ("u", "y");
                 ("a:", "ae:"); ("o:", "e:"); ("u:", "y:");
                 ("ea", "ie"); ("eo", "ie"); ("io", "ie")]
                ".*" ("^" +s CONSONANT_PATTERN +s ".*[i|i:|j].*") ;;
  (* velar umlaut *)
  loe_pron <- sound_change loe_pron [("e", "eo"); ("i", "io")] ".*" "^[vlr] [aou]" ;;
  (* breaking *)
  loe_pron <- sound_change loe_pron
                [("i", "io"); ("e", "eo"); ("ae", "ea"); ("a", "ea");
                 ("i:", "eo"); ("io:", "eo:")]
                ".*" ("^[rlhx]" +s CONSONANT_PATTERN) ;;
  Ok loe_pron.

Definition Z_lt_len_minus_2 (count : nat) (pron : list Phone) : bool :=
  (Z.of_nat count <? Z.of_nat (length pron) - 2)%Z.

Definition ends_with_colon (p : Phone) : result bool :=
  c <- Py.last_char p ;; Ok (Ascii.eqb c ":").

Definition me_vowel_lengthening (pron : list Phone) : result (list Phone) :=
  for_each
    (fun new_phone (it : nat * Phone) =>
       let (count, phone) := it in
       if Z_lt_len_minus_2 count pron then
         test <- (Py.mem phone vowels &&&
                  (p1 <- Py.item pron (count + 1) ;;
                   Py.mem p1 ["r\"; "l"; "m"; "n"] &&&
                   (p2 <- Py.item pron (count + 2) ;;
                    Py.mem p2 ["b"; "d"; "g"] &&&
                    (colon <- ends_with_colon phone ;; Ok (negb colon))))) ;;
         if test
         then p <- Py.item pron count ;; Ok (new_phone ++ [p +s ":"])
         else Ok (new_phone ++ [phone])
       else Ok (new_phone ++ [phone]))
    (Py.enumerate pron) [].

Definition me_vowel_shortening (pron : list Phone) : result (list Phone) :=
  for_each
    (fun new_phone (it : nat * Phone) =>
       let (count, phone) := it in
       if Z_lt_len_minus_2 count pron then
         test <- (Py.mem phone vowels &&&
                  (p1 <- Py.item pron (count + 1) ;;
                   Py.mem p1 ["s"; "f"] &&&
                   (p2 <- Py.item pron (count + 2) ;;
                    String.eqb p2 "t" &&&
                    (p <- Py.item pron count ;; ends_with_colon p)))) ;;
         if test
         then p <- Py.item pron count ;; Ok (new_phone ++ [Py.drop_last_char p])
         else Ok (new_phone ++ [phone])
       else Ok (new_phone ++ [phone]))
    (Py.enumerate pron) [].

Definition two_syll_pattern : string :=
  ".*" +s VOWEL_PATTERN +s ".* .*" +s VOWEL_PATTERN.

Definition me_second_lengthening (pron : list Phone) : result (list Phone) :=
  pattern <- Re.compile two_syll_pattern ;;
  if Re.search pattern (Py.join " " pron) then
    last <- Py.last_item pron ;;
    if Py.mem last vowels then
      st <- for_each
              (fun (st : list Phone * bool) phone =>
                 let (new_phone, found_first_vowel) := st in
                 if Py.mem phone vowels && negb found_first_vowel then
                   colon <- ends_with_colon phone ;;
                   if negb colon
                   then Ok (new_phone ++ [phone +s ":"], true)
                   else Ok (new_phone ++ [phone], true)
                 else Ok (new_phone ++ [phone], found_first_vowel))
              pron ([], false) ;;
      Ok (removelast (fst st))
    else Ok pron
  else Ok pron.

Definition dip_i : Py.dict Phone :=
  [("ae", "ai"); ("e", "eI"); ("i", "i"); ("o", "oi"); ("u", "ui")].
Definition dip_u : Py.dict Phone :=
  [("o", "ou"); ("i", "iu"); ("a", "au"); ("e", "eu"); ("u", "u")].

(** The [while] loop of [me_diphthongization]; [phone] is the index, which
    grows in every round, so a fuel of [len(pron)] is never used up. *)
Fixpoint me_diphthongization_loop (fuel : nat) (pron : list Phone) (phone : nat)
         (new_phone : list Phone) : result (list Phone) :=
  if negb (phone <? length pron) then Ok new_phone
  else
    match fuel with
    | O => Ok new_phone
    | S fuel' =>
        if (Z.of_nat phone =? Z.of_nat (length pron) - 1)%Z then
          p <- Py.item pron phone ;;
          me_diphthongization_loop fuel' pron (phone + 1) (new_phone ++ [p])
        else
          p_lookup <- Py.item pron phone ;;
          colon <- ends_with_colon p_lookup ;;
          let p_lookup := if colon then Py.drop_last_char p_lookup else p_lookup in
          in_i <- (Py.has dip_i p_lookup &&&
                   (next <- Py.item pron (phone + 1) ;; Ok (Py.mem next ["j"; "h"]))) ;;
          if in_i then
            match Py.get dip_i p_lookup with
            | Some d => me_diphthongization_loop fuel' pron (phone + 2) (new_phone ++ [d])
            | None => Raise KeyError
            end
          else
            in_u <- (Py.has dip_u p_lookup &&&
                     (next <- Py.item pron (phone + 1) ;; Ok (Py.mem next ["G"; "w"]))) ;;
            if in_u then
              match Py.get dip_u p_lookup with
              | Some d => me_diphthongization_loop fuel' pron (phone + 2) (new_phone ++ [d])
              | None => Raise KeyError
              end
            else
              p <- Py.item pron phone ;;
              me_diphthongization_loop fuel' pron (phone + 1) (new_phone ++ [p])
    end.

Definition me_diphthongization (pron : list Phone) : result (list Phone) :=
  me_diphthongization_loop (length pron) pron 0 [].

Definition middle_english_changes (pron : list Phone) : result (list Phone) :=
  (* y > i, ae > a *)
  me_pron <- sound_change pron [("y", "i"); ("ae", "a")] ".*" ".*" ;;
  (* y: > i:, ae: > E:, a: > O: *)
  me_pron <- sound_change me_pron [("y:", "i:"); ("ae:", "E:"); ("a:", "O:")] ".*" ".*" ;;
  (* ea > a, eo > e, ie > i *)
  me_pron <- sound_change me_pron [("ea", "a"); ("eo", "e"); ("ie", "i")] ".*" ".*" ;;
  (* vowel lengthening *)
  me_pron <- me_vowel_lengthening me_pron ;;
  (* vowel shortening *)
  me_pron <- me_vowel_shortening me_pron ;;
  (* vowels in open second syllables are dropped, and preceding vowel lengthened *)
  me_pron <- me_second_lengthening me_pron ;;
  (* e > a before r *)
  me_pron <- sound_change me_pron [("e", "a")] ".*" "^r" ;;
  (* e > i [Nn][kgdt] *)
  me_pron <- sound_change me_pron [("e", "i")] ".*" "^[Nn][kgdt]" ;;
  (* ri > ir after consonant *)
  me_pron <-
    (if Py.contains "r\ i" (Py.join " " me_pron) then
       let mw_pron := Py.split (Py.replace "r\ i" "r\_i" (Py.join " " me_pron)) in
       changed <- sound_change mw_pron [("r\_i", "i_r\")] (CONSONANT_PATTERN +s "$") ".*" ;;
       let mw_pron := Py.join " " changed in
       Ok (Py.split (Py.replace "_" " " mw_pron))
     else Ok me_pron) ;;
  (* new dipthongs *)
  me_pron <- me_diphthongization me_pron ;;
  (* sk_> > S *)
  let me_pron := Py.split (Py.replace "s k_>" "s_k_>" (Py.join " " me_pron)) in
  me_pron <- sound_change me_pron [("s_k_>", "tS")] ".*" ".*" ;;
  (* k_> > tS, G > w *)
  me_pron <- sound_change me_pron [("k_>", "tS"); ("G", "w")] ".*" ".*" ;;
  (* h deleted before l, r, n *)
  me_pron <- sound_change me_pron [("h", "")] ".*" "^[lrn]" ;;
  (* xw > hw *)
  me_pron <- sound_change me_pron [("x", "h")] ".*" "^w" ;;
  me_pron <- sound_change me_pron [("xw", "w")] ".*" ".*" ;;
  Ok me_pron.

Definition great_vowel_shift : Py.dict Phone :=
  [("i:", "aI"); ("e:", "i"); ("E:", "i"); ("u", "au"); ("oU", "u:");
   ("O", "ou"); ("A:", "ae"); ("ae:", "eI")].

Definition early_modern_english_changes (pron : list Phone) : result (list Phone) :=
  (* a > O: before l *)
  emod_pron <- sound_change pron [("a", "O:")] ".*" "^l.*" ;;
  (* a > ae elsewhere *)
  emod_pron <- sound_change emod_pron [("a", "ae")] ".*" ".*" ;;
  (* u > V except after initial [pfwb], or before final l,sh *)
  emod_pron <- sound_change emod_pron [("u", "V")] ".*[pfwb]$" ".*" ;;
  emod_pron <- sound_change emod_pron [("u", "V")] ".*" "^[lS]$" ;;
  (* long vowels: the Great Vowel Shift! *)
  emod_pron <- sound_change emod_pron great_vowel_shift ".*" ".*" ;;
  (* dipthongs *)
  emod_pron <- sound_change emod_pron
                 [("ai", "eI"); ("au", "O"); ("iu", "ju"); ("eu", "ju"); ("Eu", "ju");
                  ("Ou", "oU"); ("ui", "OI")] ".*" ".*" ;;
  let emod_pron :=
    Py.split (Py.replace "ju" "j u"
               (Py.replace "Eu" "j u"
                 (Py.replace "eu" "j u"
                   (Py.replace "iu" "j u" (Py.join " " emod_pron))))) in
  (* f, T, s, tS gain voicing in unstressed positions *)
  emod_pron <- sound_change emod_pron
                 [("f", "v"); ("T", "D"); ("s", "z"); ("tS", "dZ")]
                 (".*" +s VOWEL_PATTERN +s ".* .*" +s VOWEL_PATTERN +s ".*") ".*" ;;
  (* x becomes f after ae; deleted otherwise *)
  emod_pron <- sound_change emod_pron [("x", "f")] ".*ae$" ".*" ;;
  emod_pron <- sound_change emod_pron [("x", "")] ".*" ".*" ;;
  (* mb > m *)
  emod_pron <- sound_change emod_pron [("b", "")] ".*m$" ".*" ;;
  (* assibilation of tj, dj, sj, zj *)
  let emod_pron := Py.split (Py.replace "t j" "tS " (Py.join " " emod_pron)) in
  let emod_pron := Py.split (Py.replace "d j" "dZ " (Py.join " " emod_pron)) in
  let emod_pron := Py.split (Py.replace "s j" "S " (Py.join " " emod_pron)) in
  let emod_pron := Py.split (Py.replace "z j" "Z " (Py.join " " emod_pron)) in
  (* vowel reduction? *)
  let st :=
    fold_left
      (fun (st : list Phone * bool) phone =>
         let (new_pron, found_first_vowel) := st in
         if negb (Py.mem phone vowels) then (new_pron ++ [phone], found_first_vowel)
         else if negb found_first_vowel then (new_pron ++ [phone], true)
              else (new_pron ++ ["@"], found_first_vowel))
      emod_pron ([], false) in
  let emod_pron := fst st in
  (* remove length markers on vowels *)
  let emod_pron := map (fun p => if Py.mem p vowels then Py.strip ":" p else p) emod_pron in
  (* other tweaks for legibility, etc. *)
  let emod_pron := Py.split (Py.replace "kw" "k w" (Py.join " " emod_pron)) in
  let emod_pron := Py.split (Py.replace "gw" "g w" (Py.join " " emod_pron)) in
  let emod_pron := map (fun p => if String.eqb p "io" then "IO" else p) emod_pron in
  Ok emod_pron.

(** *** [generate_entry]

    The tables read from files are parameters: the roots, the suffixes as
    [read_in_pie_suffixes] returns them, the spelling model and the IPA
    table.  The two draws of [random.choice] are parameters too. *)

Record root_entry : Type := { root_pron : string; root_meaning : string }.
Record suffix_entry : Type := { suffix_meaning : string; suffix_pron : string }.

Record pie_word : Type := {
  token : string;
  pron : string;
  meaning : string;
  spelling : string;
  mode : list Phone;
  pgmc : list Phone;
  olde : list Phone;
  mide : list Phone;
  modex : list string;
  pgmcx : list string;
  oldex : list string;
  midex : list string
}.

(** [d[k]] *)
Definition lookup {V : Type} (d : Py.dict V) (k : string) : result V :=
  match Py.get d k with
  | Some v => Ok v
  | None => Raise KeyError
  end.

(** [random.choice(l)], the draw being given. *)
Definition random_choice (draw : nat) (l : list string) : result string :=
  Py.item l (draw mod length l).

Section Entry.
Variable pie_roots : Py.dict root_entry.
Variable pie_suffixes : Py.dict suffix_entry.
Variable spelling_model : p2g_model.
Variable xsampa2ipa : Py.dict string.
Variables root_draw suffix_draw : nat.

(** The two indexes built at load time; a later root overwrites an
    earlier one with the same key. *)
Definition xsampa_pie_roots (k : string) : option string :=
  option_map fst
    (find (fun kv => String.eqb (root_pron (snd kv)) k) (rev pie_roots)).

Definition english_roots (k : string) : option string :=
  option_map fst
    (find (fun kv => String.eqb (root_meaning (snd kv)) k) (rev pie_roots)).

(** The root named by the argument; [None] is the branch that prints
    the error and returns. *)
Definition resolve_root (pie_token : string) : result (option string) :=
  if String.eqb pie_token ""
  then t <- random_choice root_draw (map fst pie_roots) ;; Ok (Some t)
  else if negb (Py.has pie_roots pie_token)
       then match xsampa_pie_roots pie_token with
            | Some t => Ok (Some t)
            | None => Ok (english_roots pie_token)
            end
       else Ok (Some pie_token).

Definition to_ipa (l : list Phone) : result (list string) :=
  for_each (fun acc p => x <- lookup xsampa2ipa p ;; Ok (acc ++ [x])) l [].

(** From the split pronunciation on (lines 545-586). *)
Definition derive (pie_token pie_pron_text pie_meaning : string)
  : result pie_word :=
  let pie_pron := Py.split pie_pron_text in
  (* Late PIE *)
  lpp <- late_pie_changes pie_pron ;;
  (* Grimm's Law *)
  grimm_pron <- grimm_changes lpp ;;
  (* Verner's Law *)
  verner_pron <- verner_changes grimm_pron ;;
  (* Proto Germanic Vowel Changes *)
  pg_pron <- proto_germanic_changes verner_pron ;;
  (* Proto-Germanic to Old English *)
  oe_pron <- old_english_changes pg_pron ;;
  (* Late Old English *)
  loe_pron <- late_old_english_changes oe_pron ;;
  let final_e := false in
  (* Middle English *)
  me_pron <- middle_english_changes loe_pron ;;
  last <- Py.last_item me_pron ;;
  let final_e := if Py.mem last vowels then true else final_e in
  (* Early Modern English *)
  emod_pron <- early_modern_english_changes me_pron ;;
  (* Spelling *)
  top_five <- generate_spelling spelling_model emod_pron final_e ;;
  first <- Py.item top_five 0 ;;
  x_mode <- to_ipa emod_pron ;;
  x_pgmc <- to_ipa pg_pron ;;
  x_olde <- to_ipa oe_pron ;;
  x_mide <- to_ipa me_pron ;;
  Ok {| token := pie_token; pron := pie_pron_text; meaning := pie_meaning;
        spelling := first; mode := emod_pron; pgmc := pg_pron;
        olde := oe_pron; mide := me_pron;
        modex := x_mode; pgmcx := x_pgmc; oldex := x_olde; midex := x_mide |}.

Definition generate_entry (pie_token pie_suffix : string)
  : result (option pie_word) :=
  resolved <- resolve_root pie_token ;;
  match resolved with
  | None => Ok None
  | Some pie_token =>
      pie_suffix <- (if String.eqb pie_suffix "random"
                     then random_choice suffix_draw (map fst pie_suffixes)
                     else Ok pie_suffix) ;;
      root <- lookup pie_roots pie_token ;;
      if String.eqb pie_suffix "" then
        w <- derive pie_token (root_pron root) (root_meaning root) ;;
        Ok (Some w)
      else
        suff <- lookup pie_suffixes pie_suffix ;;
        w <- derive (pie_token +s pie_suffix)
                    (root_pron root +s " " +s suffix_pron suff)
                    (root_meaning root +s " + " +s suffix_meaning suff) ;;
        Ok (Some w)
  end.
End Entry.

(** *** [read_in_pie_suffixes]

    The file is given as the list of its lines.  Unpacking a line that
    does not split into a suffix and a meaning raises ValueError, which
    nothing else in the program raises; it has a result type of its
    own. *)

Inductive loaded (A : Type) : Type :=
| Loaded (a : A)
| ValueError.

Arguments Loaded {A} a.
Arguments ValueError {A}.

(** The body of the loop over the lines. *)
Definition read_suffix_line (pie_suff_dict : Py.dict suffix_entry) (line : string)
  : loaded (Py.dict suffix_entry) :=
  match Py.split_once (Py.strip_space line) with
  | [suff; meaning] =>
      let pron := Py.join " " (map (fun c => String c "") (Py.chars suff)) in
      let pron := Py.replace "r" "r\" pron in
      Loaded (Py.set_item pie_suff_dict suff
                {| suffix_meaning := meaning; suffix_pron := pron |})
  | _ => ValueError
  end.

Fixpoint read_lines (lines : list string) (pie_suff_dict : Py.dict suffix_entry)
  : loaded (Py.dict suffix_entry) :=
  match lines with
  | [] => Loaded pie_suff_dict
  | line :: lines' =>
      match read_suffix_line pie_suff_dict line with
      | Loaded d => read_lines lines' d
      | ValueError => ValueError
      end
  end.

Definition read_in_pie_suffixes (lines : list string)
  : loaded (Py.dict suffix_entry) :=
  read_lines lines [].

End Piebot.

Import Piebot.

Unset Implicit Arguments.

(* ===================================================================== *)
(** * The vocabulary of the statements *)

(** ** Patterns and texts *)

(** [Matches s r i j]: the pattern [r] matches the characters of [s] from
    position [i] up to position [j]. *)
Inductive Matches (s : list ascii) : Re.regex -> nat -> nat -> Prop :=
| M_Empty i : Matches s Re.Empty i i
| M_Lit c i : nth_error s i = Some c -> Matches s (Re.Lit c) i (S i)
| M_Any c i :
    nth_error s i = Some c -> Ascii.eqb c Re.newline = false ->
    Matches s Re.AnyChar i (S i)
| M_Class neg ms c i :
    nth_error s i = Some c -> xorb neg (Py.mem_char c ms) = true ->
    Matches s (Re.Class neg ms) i (S i)
| M_Bol : Matches s Re.Bol 0 0
| M_Eol i : Re.at_end s i = true -> Matches s Re.Eol i i
| M_Cat r1 r2 i j k :
    Matches s r1 i j -> Matches s r2 j k -> Matches s (Re.Cat r1 r2) i k
| M_OrL r1 r2 i j : Matches s r1 i j -> Matches s (Re.Or r1 r2) i j
| M_OrR r1 r2 i j : Matches s r2 i j -> Matches s (Re.Or r1 r2) i j
| M_Star0 r i : Matches s (Re.Star r) i i
| M_StarS r i j k :
    Matches s r i j -> Matches s (Re.Star r) j k -> Matches s (Re.Star r) i k.

(** [p != ''] *)
Definition nonempty (p : string) : bool := negb (String.eqb p "").

(** What one round of the loop appends at a position. *)
Definition emitted_at (orig_pron : list Phone) (phone_maps : Py.dict Phone)
           (prior posterior : Re.regex) (it : nat * Phone) : Phone :=
  match Py.get phone_maps (snd it) with
  | None => snd it
  | Some mapped =>
      if Re.search prior (Py.join " " (firstn (fst it) orig_pron)) &&
         Re.search posterior (Py.join " " (skipn (S (fst it)) orig_pron))
      then mapped else snd it
  end.

(** A literal string and an alternation of literal strings, as the
    compiler builds them. *)
Fixpoint lit_string (cs : list ascii) : Re.regex :=
  match cs with
  | [] => Re.Empty
  | [c] => Re.Lit c
  | c :: cs' => Re.Cat (Re.Lit c) (lit_string cs')
  end.

(** [(v1|v2|...)] *)
Fixpoint alternation (l : list string) : Re.regex :=
  match l with
  | [] => Re.Empty
  | [v] => lit_string (Py.chars v)
  | v :: l' => Re.Or (lit_string (Py.chars v)) (alternation l')
  end.

(** [VOWEL_PATTERN] and the prior context of Verner's Law, compiled. *)
Definition vowels_re : Re.regex := alternation (by_length_desc vowels).

Definition verner_re : Re.regex :=
  Re.Cat (Re.Star Re.AnyChar)
    (Re.Cat vowels_re
       (Re.Cat (Re.Star Re.AnyChar) (Re.Cat (Re.Lit " ") (Re.Star Re.AnyChar)))).

(** The letters a vowel token can begin with; each is a vowel token. *)
Definition vowel_initials : list ascii :=
  ["a"; "e"; "i"; "o"; "u"; "y"; "E"; "A"; "O"]%char.

(** Does the phone hold one of these letters? *)
Definition has_vowel_letter (p : Phone) : bool :=
  existsb (fun c => Py.mem_char c vowel_initials) (Py.chars p).

(** Is there a space further on, before any newline? *)
Fixpoint space_ahead (s : list ascii) : bool :=
  match s with
  | [] => false
  | c :: s' =>
      if Ascii.eqb c " " then true
      else if Ascii.eqb c Re.newline then false
      else space_ahead s'
  end.

(** A vowel letter with a space further on in its line. *)
Fixpoint vowel_then_space (s : list ascii) : bool :=
  match s with
  | [] => false
  | c :: s' => (Py.mem_char c vowel_initials && space_ahead s') || vowel_then_space s'
  end.

(** Every vowel token begins with a vowel letter and holds no newline. *)
Definition vowel_token_ok (v : string) : bool :=
  match Py.chars v with
  | [] => false
  | c :: cs => Py.mem_char c vowel_initials &&
               forallb (fun d => negb (Ascii.eqb d Re.newline)) cs
  end.

(** Phones as [split] produces them hold no whitespace. *)
Definition no_space (p : Phone) : bool :=
  forallb (fun c => negb (Py.isspace c)) (Py.chars p).

(** ** Spelling *)

(** How many partitions [pron_breaker] yields for [n] phones. *)
Definition breaker_count (n : nat) : nat :=
  match n with
  | 0 => 0
  | 1 => 1
  | S (S k) => 3 * 2 ^ k - 1
  end.

(** [a] may stand before [b] in a list sorted by descending key. *)
Definition before {A K : Type} (key : A -> K) (le : K -> K -> Prop) (a b : A)
  : Prop := le (key b) (key a).

(** The body of the loop of [best_spellings]. *)
Definition best_body (m : p2g_model) (phone_seqs : list (string * Z))
           (phone_seq_list : list Phone) : result (list (string * Z)) :=
  best <- best_spelling m phone_seq_list ;; Ok (phone_seqs ++ [best]).

(** What the loop body appends for an accepted partition. *)
Definition scored (m : p2g_model) (final_e : bool) (part : list (list Phone))
           (sp : string * Q) : Prop :=
  exists phone_seqs,
    best_spellings m part = Ok phone_seqs /\
    mean (fold_right Z.add 0%Z (map snd phone_seqs)) (length part) = Ok (snd sp) /\
    touch_up (Py.join "" (map fst phone_seqs)) final_e = Ok (fst sp).

(** A spelling model that covers [f eI T] chunk by chunk and by the pair
    [f eI], but not as a whole. *)
Definition model_feIT : p2g_model :=
  [("f", [("ph", 2%Z); ("f", 10%Z)]);
   ("eI", [("a", 5%Z)]);
   ("T", [("th", 7%Z)]);
   ("feI", [("fay", 3%Z)])].

(** A result that is a value or an IndexError. *)
Definition index_error_only {A : Type} (r : result A) : Prop :=
  match r with
  | Ok _ => True
  | Raise e => e = IndexError
  end.

(** The spelling a partition stands for before the touch-ups. *)
Definition raw_spelling (m : p2g_model) (part : list (list Phone)) : result string :=
  phone_seqs <- best_spellings m part ;; Ok (Py.join "" (map fst phone_seqs)).

(** ** Eras and entries *)

(** The eras up to Middle English, as [generate_entry] chains them. *)
Definition middle_english_of (pie_pron : list Phone) : result (list Phone) :=
  lpp <- late_pie_changes pie_pron ;;
  grimm_pron <- grimm_changes lpp ;;
  verner_pron <- verner_changes grimm_pron ;;
  pg_pron <- proto_germanic_changes verner_pron ;;
  oe_pron <- old_english_changes pg_pron ;;
  loe_pron <- late_old_english_changes oe_pron ;;
  middle_english_changes loe_pron.

(** The keys of the rule maps, stage by stage. *)
Definition laryngeals : list Phone := ["h1"; "h2"; "h3"; "\H"].

(** Root tables with the one root [p e t] and the one root [k], a
    spelling model that knows only [f], and an IPA table for the phones
    of the first derivation. *)
Definition roots_pet : Py.dict root_entry :=
  [("pet", {| root_pron := "p e t"; root_meaning := "to fly" |})].
Definition roots_k : Py.dict root_entry :=
  [("k", {| root_pron := "k"; root_meaning := "to cut" |})].
Definition model_f : p2g_model := [("f", [("f", 10%Z)])].
Definition ipa_pet : Py.dict string := [("f", "f"); ("e", "e"); ("T", "th")].

(** [l] is [l'] with some elements left out. *)
Inductive Subseq {A : Type} : list A -> list A -> Prop :=
| Subseq_nil : Subseq [] []
| Subseq_skip x l l' : Subseq l l' -> Subseq l (x :: l')
| Subseq_keep x l l' : Subseq l l' -> Subseq (x :: l) (x :: l').




(** The two touch-ups as the specification words them. *)
Definition touched_up (raw : string) (finalSilentE : bool) : string :=
  let letters := Py.chars raw in
  let with_silent_e :=
    match rev letters with
    | final :: before :: rest =>
        if Py.mem_char final sonorant_letters && negb (Py.mem_char before vowel_letters)
        then rev rest ++ [before; "e"%char; final]
        else letters
    | _ => letters
    end in
  let ends_in_e :=
    match rev with_silent_e with
    | c :: _ => Ascii.eqb c "e"
    | [] => false
    end in
  Py.str (if finalSilentE && negb ends_in_e
          then with_silent_e ++ ["e"%char] else with_silent_e).

(** The prior context of Grimm's first pass, compiled. *)
Definition grimm1_re : Re.regex :=
  Re.Or (Re.Cat (Re.Star Re.AnyChar) (Re.Class true ["s"%char]))
        (Re.Cat Re.Bol Re.Eol).

(** Is there a character other than the letter s? *)
Definition other_than_s (cs : list ascii) : bool :=
  existsb (fun c => negb (Ascii.eqb c "s")) cs.

(** Everything before the position is one phone, written with the letter
    s only. *)
Definition only_s_before (i : nat) (pron : list Phone) : bool :=
  match firstn i pron with
  | [t] => match Py.chars t with
           | [] => false
           | cs => negb (other_than_s cs)
           end
  | _ => false
  end.

(** A spelling that does not end in a letter other than a, e, i, o, u, y
    followed by one of w, r, l, m, n. *)
Definition well_ended (s : string) : Prop :=
  forall final before,
    Py.last_char s = Ok final -> Py.last_but_one_char s = Ok before ->
    Py.mem_char final sonorant_letters = true ->
    Py.mem_char before vowel_letters = true.

(** A spelling that ends in the letter e. *)
Definition ends_in_e (s : string) : Prop := Py.last_char s = Ok "e"%char.

(** ** The engine and the eras, phone by phone *)

(** The phone a rule map puts in the place of a phone. *)
Definition apply_map (m : Py.dict Phone) (p : Phone) : Phone :=
  match Py.get m p with
  | Some q => q
  | None => p
  end.

(** What the three passes of Grimm's Law make of a phone; [blocked] says
    that the first pass does not apply at its position. *)
Definition grimm_of (blocked : bool) (x : Phone) : Phone :=
  match Py.get dict_grimm1 x with
  | Some shifted => if blocked then x else shifted
  | None =>
      match Py.get dict_grimm2 x with
      | Some shifted => shifted
      | None => apply_map dict_grimm3 x
      end
  end.

(** ** The Middle English scans, phone by phone *)

(** [p[-1] == ':'] for a phone that is not empty. *)
Definition has_final_colon (p : Phone) : bool :=
  match Py.last_char p with
  | Ok c => Ascii.eqb c ":"
  | Raise _ => false
  end.

(** The phone at [count] is a short vowel, the next phone is one of r, l,
    m, n and the one after it one of b, d, g. *)
Definition before_voiced_cluster (pron : list Phone) (count : nat) : bool :=
  match nth_error pron count, nth_error pron (count + 1), nth_error pron (count + 2) with
  | Some phone, Some p1, Some p2 =>
      Py.mem phone vowels && Py.mem p1 ["r\"; "l"; "m"; "n"] &&
      Py.mem p2 ["b"; "d"; "g"] && negb (has_final_colon phone)
  | _, _, _ => false
  end.

(** The phone at [count] is a long vowel, the next phone is s or f and
    the one after it is t. *)
Definition before_voiceless_cluster (pron : list Phone) (count : nat) : bool :=
  match nth_error pron count, nth_error pron (count + 1), nth_error pron (count + 2) with
  | Some phone, Some p1, Some p2 =>
      Py.mem phone vowels && Py.mem p1 ["s"; "f"] && String.eqb p2 "t" &&
      has_final_colon phone
  | _, _, _ => false
  end.

(** The word with its first vowel made long. *)
Fixpoint lengthen_first_vowel (pron : list Phone) : list Phone :=
  match pron with
  | [] => []
  | phone :: rest =>
      if Py.mem phone vowels
      then (if has_final_colon phone then phone else phone +s ":") :: rest
      else phone :: lengthen_first_vowel rest
  end.

(** The phones that make a diphthong of the vowel before them. *)
Definition glides : list Phone := ["j"; "h"; "G"; "w"].

(** ** What an entry can raise *)


(** ** The table of suffixes *)

(** The phone a letter of a suffix stands for. *)
Definition phone_of_letter (c : ascii) : Phone :=
  if Ascii.eqb "r" c then "r\" else String c "".

(** The record a line of the file of suffixes gives, when it has one. *)
Definition line_entry (line : string) : option (string * suffix_entry) :=
  match Py.split_once (Py.strip_space line) with
  | [suff; meaning] =>
      Some (suff,
            {| suffix_meaning := meaning;
               suffix_pron :=
                 Py.replace "r" "r\"
                   (Py.join " " (map (fun c => String c "") (Py.chars suff))) |})
  | _ => None
  end.

(** Letters with a space between each two. *)
Fixpoint spaced (f : ascii -> list ascii) (cs : list ascii) : list ascii :=
  match cs with
  | [] => []
  | [c] => f c
  | c :: cs' => f c ++ " "%char :: spaced f cs'
  end.

Definition not_space (c : ascii) : bool := negb (Py.isspace c).

(* ===================================================================== *)
(** * Properties *)

(** ** The built-ins and the patterns on examples *)

Example split_ex : Py.split "  a n  x " = ["a"; "n"; "x"].
Proof. reflexivity. Qed.

Example replace_ex : Py.replace "a n x" "a:" "k a n xw a n x" = "k a:w a:".
Proof. reflexivity. Qed.

Example compile_ex :
  Re.compile "(.*[^s]|^$)" =
  Ok (Re.Or (Re.Cat (Re.Star Re.AnyChar) (Re.Class true ["s"%char])) (Re.Cat Re.Bol Re.Eol)).
Proof. reflexivity. Qed.

Example search_ex :
  match Re.compile "(.*[^s]|^$)" with
  | Ok r => (Re.search r "s", Re.search r "a s", Re.search r "")
  | Raise _ => (true, false, false)
  end = (false, true, true).
Proof. reflexivity. Qed.

Example vowel_pattern_ex :
  VOWEL_PATTERN =
  "(oe:|ae:|eI:|ai:|oi:|eu:|au:|ou:|a:|e:|i:|o:|u:|y:|oe|E:|A:|O:|ae|eI|ai|oi|eu|au|ou|a|e|i|o|u|y|E|A|O)".
Proof. reflexivity. Qed.

Example voiced_pattern_ex : VOICED_PATTERN = "[^(kw)|(p)|(t)|(k)|(f)|(T)|(x)]".
Proof. reflexivity. Qed.

(* ===================================================================== *)
(** ** What a pattern matches *)

Create HintDb re.
#[local] Hint Constructors Matches : re.

Lemma Matches_le s r i j : Matches s r i j -> i <= j.
Proof. induction 1; lia. Qed.

Lemma Matches_bound s r i j : Matches s r i j -> i <= length s -> j <= length s.
Proof.
  induction 1; intros Hi; auto;
    try (assert (i < length s) by (apply nth_error_Some; congruence); lia).
Qed.

Lemma one_char_In s i ok j :
  In j (Re.one_char s i ok) <->
  exists c, nth_error s i = Some c /\ ok c = true /\ j = S i.
Proof.
  unfold Re.one_char. destruct (nth_error s i) as [c|] eqn:E.
  - destruct (ok c) eqn:Ec; simpl; split.
    + intros [<-|[]]. eauto.
    + intros (c' & [= <-] & _ & ->). auto.
    + intros [].
    + intros (c' & [= <-] & Hc & _). congruence.
  - simpl. split; [intros [] | intros (c & Hc & _); discriminate].
Qed.

Lemma star_ends_In step n p k :
  In k (Re.star_ends step n p) <->
  k = p \/
  exists n' q, n = S n' /\ In q (step p) /\ p < q /\ In k (Re.star_ends step n' q).
Proof.
  destruct n as [|n']; simpl.
  - split; [intros [<-|[]]; auto | intros [->|(n' & q & [=] & _)]; auto].
  - rewrite in_flat_map. split.
    + intros [<-|(q & Hq & Hk)]; auto.
      apply filter_In in Hq as [Hq Hlt]. apply Nat.ltb_lt in Hlt.
      right. exists n', q. auto.
    + intros [->|(n'' & q & [= <-] & Hq & Hlt & Hk)]; auto.
      right. exists q. split; auto. apply filter_In. split; auto.
      now apply Nat.ltb_lt.
Qed.

Lemma ends_sound s r : forall i j, In j (Re.ends s r i) -> Matches s r i j.
Proof.
  induction r; simpl; intros i j Hj.
  - destruct Hj as [<-|[]]. constructor.
  - apply one_char_In in Hj as (d & Hd & Hok & ->).
    apply Ascii.eqb_eq in Hok as <-. now constructor.
  - apply one_char_In in Hj as (d & Hd & Hok & ->).
    apply negb_true_iff in Hok. econstructor; eauto.
  - apply one_char_In in Hj as (d & Hd & Hok & ->). econstructor; eauto.
  - destruct (Nat.eqb_spec i 0) as [->|]; [|destruct Hj].
    destruct Hj as [<-|[]]. constructor.
  - destruct (Re.at_end s i) eqn:E; [|destruct Hj].
    destruct Hj as [<-|[]]. now constructor.
  - apply nodup_In, in_flat_map in Hj as (m & Hm & Hj). eauto with re.
  - apply in_app_or in Hj as [Hj|Hj]; eauto with re.
  - apply nodup_In in Hj. revert i j Hj.
    induction (length s) as [|n IHn]; intros i j Hj;
      apply star_ends_In in Hj as [->|(n' & q & E & Hq & Hlt & Hk)];
      try constructor; try discriminate.
    injection E as <-. eauto with re.
Qed.

Lemma star_ends_fuel s r n :
  forall p k m, p <= length s -> In k (Re.star_ends (Re.ends s r) n p) ->
                length s - p <= m -> In k (Re.star_ends (Re.ends s r) m p).
Proof.
  induction n as [|n IHn]; intros p k m Hp Hk Hm;
    apply star_ends_In in Hk as [->|(n' & q & E & Hq & Hlt & Hk)];
    try (apply star_ends_In; now left); try discriminate.
  injection E as <-.
  assert (Hql : q <= length s)
    by (eapply Matches_bound; [apply ends_sound; eassumption | assumption]).
  destruct m as [|m]; [lia|].
  apply star_ends_In. right. exists m, q. repeat split; auto.
  apply IHn; auto. lia.
Qed.

Lemma ends_complete s r i j :
  Matches s r i j -> i <= length s -> In j (Re.ends s r i).
Proof.
  induction 1; simpl; intros Hi.
  - now left.
  - apply one_char_In. exists c. repeat split; auto. apply Ascii.eqb_refl.
  - apply one_char_In. exists c. repeat split; auto. now apply negb_true_iff.
  - apply one_char_In. exists c. repeat split; auto.
  - now left.
  - rewrite H. now left.
  - apply nodup_In, in_flat_map. exists j. split; auto.
    apply IHMatches2. eapply Matches_bound; eauto.
  - apply in_or_app. auto.
  - apply in_or_app. auto.
  - apply nodup_In, star_ends_In. now left.
  - apply nodup_In. simpl in IHMatches2.
    assert (Hj : j <= length s) by (eapply Matches_bound; eauto).
    specialize (IHMatches1 Hi). specialize (IHMatches2 Hj).
    apply nodup_In in IHMatches2.
    assert (Hle : i <= j) by (eapply Matches_le; eauto).
    destruct (Nat.eq_dec i j) as [->|Hne]; [assumption|].
    destruct (length s) as [|n] eqn:El; [lia|].
    apply star_ends_In. right. exists n, j. repeat split; auto; [lia|].
    rewrite <- El in *. eapply star_ends_fuel; eauto. lia.
Qed.

(** [search] finds a match exactly when there is one. *)
Lemma search_iff r text :
  Re.search r text = true <->
  exists i j, i <= length (Py.chars text) /\ Matches (Py.chars text) r i j.
Proof.
  unfold Re.search, Re.matches_from. rewrite existsb_exists. split.
  - intros (i & Hi & Hm). destruct (Re.ends _ r i) as [|j l] eqn:E; [discriminate|].
    exists i, j. apply in_seq in Hi. split; [lia|].
    apply ends_sound. rewrite E. now left.
  - intros (i & j & Hi & Hm).
    exists i. split; [apply in_seq; lia|].
    apply ends_complete in Hm; auto.
    destruct (Re.ends _ r i); [destruct Hm | reflexivity].
Qed.

(* ===================================================================== *)
(** ** The sound-change engine *)

Lemma bind_Ok {A B : Type} (a : A) (k : A -> result B) : bind (Ok a) k = k a.
Proof. reflexivity. Qed.

Lemma bind_Ok_inv {A B : Type} (m : result A) (k : A -> result B) (b : B) :
  bind m k = Ok b -> exists a, m = Ok a /\ k a = Ok b.
Proof. destruct m; simpl; [eauto | discriminate]. Qed.

Lemma sound_change_step_snoc orig m rp rq acc it :
  sound_change_step orig m rp rq acc it = acc ++ [emitted_at orig m rp rq it].
Proof.
  unfold sound_change_step, emitted_at. destruct it as [count cur]. simpl.
  destruct (Py.get m cur); [|reflexivity].
  replace (count + 1) with (S count) by lia.
  destruct (_ && _); reflexivity.
Qed.

Lemma fold_left_snoc {A B : Type} (step : list B -> A -> list B) (f : A -> B) :
  (forall acc x, step acc x = acc ++ [f x]) ->
  forall l acc, fold_left step l acc = acc ++ map f l.
Proof.
  intros Hstep. induction l as [|x l IH]; intros acc; simpl.
  - now rewrite app_nil_r.
  - rewrite IH, Hstep, <- app_assoc. reflexivity.
Qed.

Lemma sound_change_compiled pron m p q rp rq :
  Re.compile p = Ok rp -> Re.compile q = Ok rq ->
  sound_change pron m p q =
  Ok (filter nonempty (map (emitted_at pron m rp rq) (Py.enumerate pron))).
Proof.
  intros Hp Hq. unfold sound_change. rewrite Hp, Hq. simpl.
  rewrite (fold_left_snoc _ (emitted_at pron m rp rq))
    by (intros; apply sound_change_step_snoc).
  reflexivity.
Qed.

Lemma nth_error_combine_seq {A : Type} (l : list A) :
  forall a i, nth_error (combine (seq a (length l)) l) i =
              option_map (fun x => (a + i, x)) (nth_error l i).
Proof.
  induction l as [|x l IH]; intros a i; simpl.
  - destruct i; reflexivity.
  - destruct i as [|i]; simpl.
    + now rewrite Nat.add_0_r.
    + rewrite IH. now rewrite Nat.add_succ_r.
Qed.

Lemma nth_error_enumerate {A : Type} (l : list A) i :
  nth_error (Py.enumerate l) i = option_map (fun x => (i, x)) (nth_error l i).
Proof. unfold Py.enumerate. now rewrite nth_error_combine_seq. Qed.

Lemma length_enumerate {A : Type} (l : list A) : length (Py.enumerate l) = length l.
Proof.
  unfold Py.enumerate. rewrite length_combine, length_seq. apply Nat.min_id.
Qed.

(** C2.  For every sequence, rule map and pair of compiled contexts, the
    engine emits one phone per position of the input: the mapped phone
    when the phone is a key of the map and both contexts are found in the
    joined phones before and after the position in the original sequence,
    and the phone itself otherwise; the result is what was emitted without
    the empty strings.  Deleting [h1] from [a h1 o] gives [a o]. *)
Theorem sound_change_positions :
  (forall (sequence : list Phone) (ruleMap : Py.dict Phone)
          (priorContext posteriorContext : string) (prior posterior : Re.regex),
      Re.compile priorContext = Ok prior ->
      Re.compile posteriorContext = Ok posterior ->
      exists emitted : list Phone,
        length emitted = length sequence /\
        (forall i x,
            nth_error sequence i = Some x ->
            nth_error emitted i =
            Some (match Py.get ruleMap x with
                  | Some mapped =>
                      if Re.search prior (Py.join " " (firstn i sequence)) &&
                         Re.search posterior (Py.join " " (skipn (S i) sequence))
                      then mapped else x
                  | None => x
                  end)) /\
        sound_change sequence ruleMap priorContext posteriorContext =
        Ok (filter (fun p => negb (String.eqb p "")) emitted))
  /\ sound_change ["a"; "h1"; "o"] [("h1", "")] ".*" ".*" = Ok ["a"; "o"].
Proof.
  split; [|reflexivity].
  intros sequence ruleMap p q rp rq Hp Hq.
  exists (map (emitted_at sequence ruleMap rp rq) (Py.enumerate sequence)).
  split; [|split].
  - now rewrite length_map, length_enumerate.
  - intros i x Hx. rewrite nth_error_map, nth_error_enumerate, Hx. reflexivity.
  - now apply sound_change_compiled.
Qed.

Lemma sound_change_positions_witness :
  exists emitted : list Phone,
    length emitted = 3 /\
    nth_error emitted 1 = Some "f" /\
    sound_change ["a"; "p"; "e"] dict_grimm1 "(.*[^s]|^$)" ".*" =
    Ok (filter (fun p => negb (String.eqb p "")) emitted).
Proof.
  destruct (proj1 sound_change_positions ["a"; "p"; "e"] dict_grimm1
                  "(.*[^s]|^$)" ".*" _ _ eq_refl eq_refl)
    as (emitted & Hlen & Hnth & Hres).
  exists emitted. split; [exact Hlen|]. split; [|exact Hres].
  exact (Hnth 1 "p" eq_refl).
Defined.

(* ===================================================================== *)
(** ** Verner's Law: what the prior context asks for *)

Lemma verner_prior_compiled : Re.compile verner_prior = Ok verner_re.
Proof. vm_compute. reflexivity. Qed.

Lemma skipn_nth_error {A : Type} (s : list A) i c :
  nth_error s i = Some c -> skipn i s = c :: skipn (S i) s.
Proof.
  revert i. induction s as [|x s IH]; intros [|i] H; simpl in *; try discriminate.
  - now injection H as ->.
  - now apply IH.
Qed.

Lemma star_any_space_ahead s i j k :
  Matches s (Re.Star Re.AnyChar) i j -> Matches s (Re.Lit " ") j k ->
  space_ahead (skipn i s) = true.
Proof.
  intros Hstar Hsp. remember (Re.Star Re.AnyChar) as r eqn:Er.
  induction Hstar; try discriminate.
  - inversion Hsp; subst. erewrite skipn_nth_error by eassumption. reflexivity.
  - injection Er as ->. specialize (IHHstar2 eq_refl Hsp).
    inversion Hstar1 as [| |c ? Hc Hnl| | | | | | | |]; subst.
    erewrite skipn_nth_error by eassumption.
    simpl. rewrite Hnl. destruct (Ascii.eqb c " "); auto.
Qed.

Lemma space_ahead_star_any s : forall i,
  space_ahead (skipn i s) = true ->
  exists j, Matches s (Re.Star Re.AnyChar) i j /\ Matches s (Re.Lit " ") j (S j).
Proof.
  intros i. remember (length s - i) as n eqn:En. revert i En.
  induction n as [|n IH]; intros i En H.
  - rewrite skipn_all2 in H by lia. discriminate.
  - destruct (nth_error s i) as [c|] eqn:Ec.
    + rewrite (skipn_nth_error _ _ _ Ec) in H. simpl in H.
      destruct (Ascii.eqb c " ") eqn:Esp.
      * apply Ascii.eqb_eq in Esp as ->. exists i. split; constructor; auto.
      * destruct (Ascii.eqb c Re.newline) eqn:Enl; [discriminate|].
        destruct (IH (S i)) as (j & Hs & Hl); auto; [lia|].
        exists j. split; auto. econstructor; eauto. econstructor; eauto.
    + apply nth_error_None in Ec. lia.
Qed.

Lemma lit_string_inv s cs : forall i j,
  Matches s (lit_string cs) i j -> skipn i s = cs ++ skipn j s \/ cs = [].
Proof.
  induction cs as [|c cs IH]; intros i j H; [now right|left].
  destruct cs as [|d cs].
  - simpl in H. inversion H as [|? ? Hnth| | | | | | | | |]; subst.
    simpl. now apply skipn_nth_error.
  - change (lit_string (c :: d :: cs))
      with (Re.Cat (Re.Lit c) (lit_string (d :: cs))) in H.
    inversion H as [| | | | | |? ? ? m ? Hc Hrest| | | |]; subst.
    inversion Hc as [|? ? Hnth| | | | | | | | |]; subst.
    destruct (IH _ _ Hrest) as [E|E]; [|discriminate].
    rewrite (skipn_nth_error _ _ _ Hnth), E. reflexivity.
Qed.

Lemma lit_string_one s c i :
  nth_error s i = Some c -> Matches s (lit_string [c]) i (S i).
Proof. intros. simpl. now constructor. Qed.

Lemma alternation_inv s l : forall i j,
  Matches s (alternation l) i j ->
  l = [] \/ exists v, In v l /\ Matches s (lit_string (Py.chars v)) i j.
Proof.
  induction l as [|v l IH]; intros i j H; [now left|right].
  destruct l as [|w l].
  - exists v. split; [now left | exact H].
  - change (alternation (v :: w :: l))
      with (Re.Or (lit_string (Py.chars v)) (alternation (w :: l))) in H.
    inversion H as [| | | | | | |? ? ? ? Hl|? ? ? ? Hr| |]; subst.
    + exists v. split; [now left | assumption].
    + destruct (IH _ _ Hr) as [E|(u & Hu & Hm)]; [discriminate|].
      exists u. split; [now right | assumption].
Qed.

Lemma alternation_intro s l v i j :
  In v l -> Matches s (lit_string (Py.chars v)) i j -> Matches s (alternation l) i j.
Proof.
  induction l as [|w l IH]; intros Hin Hm; [destruct Hin|].
  destruct l as [|u l].
  - destruct Hin as [->|[]]. exact Hm.
  - change (alternation (w :: u :: l))
      with (Re.Or (lit_string (Py.chars w)) (alternation (u :: l))).
    destruct Hin as [->|Hin]; [now apply M_OrL | apply M_OrR; auto].
Qed.

Lemma space_ahead_app a t :
  forallb (fun c => negb (Ascii.eqb c Re.newline)) a = true ->
  space_ahead t = true -> space_ahead (a ++ t) = true.
Proof.
  induction a as [|c a IH]; simpl; intros Ha Ht; auto.
  apply andb_true_iff in Ha as [Hc Ha]. apply negb_true_iff in Hc.
  rewrite Hc. destruct (Ascii.eqb c " "); auto.
Qed.

Lemma vowel_tokens_ok : forallb vowel_token_ok (by_length_desc vowels) = true.
Proof. reflexivity. Qed.

Lemma vowel_initials_are_vowels :
  forallb (fun c => Py.mem (String c "") (by_length_desc vowels)) vowel_initials = true.
Proof. reflexivity. Qed.

Lemma vowel_then_space_at s : forall p c,
  nth_error s p = Some c -> Py.mem_char c vowel_initials = true ->
  space_ahead (skipn (S p) s) = true -> vowel_then_space s = true.
Proof.
  induction s as [|x s IH]; intros [|p] c Hc Hv Hs; simpl in *; try discriminate.
  - injection Hc as ->. rewrite Hv, Hs. reflexivity.
  - rewrite (IH _ _ Hc Hv Hs). apply orb_true_r.
Qed.

Lemma vowel_then_space_inv s :
  vowel_then_space s = true ->
  exists p c, nth_error s p = Some c /\ Py.mem_char c vowel_initials = true /\
              space_ahead (skipn (S p) s) = true.
Proof.
  induction s as [|x s IH]; simpl; [discriminate|]. intros H.
  apply orb_true_iff in H as [H|H].
  - apply andb_true_iff in H as [Hv Hs]. exists 0, x. auto.
  - destruct (IH H) as (p & c & Hc & Hv & Hs). exists (S p), c. auto.
Qed.

Lemma mem_In x l : Py.mem x l = true <-> In x l.
Proof.
  unfold Py.mem. rewrite existsb_exists. split.
  - intros (y & Hy & E). apply String.eqb_eq in E as ->. assumption.
  - intros H. exists x. split; auto. apply String.eqb_refl.
Qed.

(** The prior context of Verner's Law is found exactly in the texts with
    a vowel letter that has a space further on in its line. *)
Lemma verner_search text :
  Re.search verner_re text = vowel_then_space (Py.chars text).
Proof.
  apply eq_true_iff_eq. rewrite search_iff. generalize (Py.chars text) as s.
  intros s. split.
  - intros (i & j & _ & H). unfold verner_re in H.
    inversion H as [| | | | | |? ? ? p ? _ H1| | | |]; subst.
    inversion H1 as [| | | | | |? ? ? q ? Hv H2| | | |]; subst.
    inversion H2 as [| | | | | |? ? ? k ? Hs H3| | | |]; subst.
    inversion H3 as [| | | | | |? ? ? k' ? Hsp _| | | |]; subst.
    pose proof (star_any_space_ahead _ _ _ _ Hs Hsp) as Hq.
    apply alternation_inv in Hv as [E|(v & Hin & Hm)]; [discriminate|].
    pose proof vowel_tokens_ok as Hok. rewrite forallb_forall in Hok.
    specialize (Hok v Hin). unfold vowel_token_ok in Hok.
    destruct (Py.chars v) as [|c cs] eqn:Ev; [discriminate|].
    apply andb_true_iff in Hok as [Hc Hcs].
    apply lit_string_inv in Hm as [E|E]; [|discriminate].
    assert (Hp : nth_error s p = Some c).
    { pose proof (nth_error_skipn p s 0) as Hn.
      rewrite E, Nat.add_0_r in Hn. simpl in Hn. now symmetry. }
    apply (vowel_then_space_at s p c Hp Hc).
    rewrite (skipn_nth_error _ _ _ Hp) in E. injection E as E.
    change (skipn (S p) s = cs ++ skipn q s) in E. rewrite E.
    now apply space_ahead_app.
  - intros H. apply vowel_then_space_inv in H as (p & c & Hc & Hv & Hs).
    apply space_ahead_star_any in Hs as (k & Hstar & Hsp).
    exists p, (S k). split.
    + apply Nat.lt_le_incl, nth_error_Some. congruence.
    + unfold verner_re. apply M_Cat with (j := p); [constructor|].
      apply M_Cat with (j := S p).
      * pose proof vowel_initials_are_vowels as Hall. rewrite forallb_forall in Hall.
        apply alternation_intro with (v := String c "").
        -- apply mem_In, Hall.
           unfold Py.mem_char in Hv. apply existsb_exists in Hv as (d & Hd & E).
           apply Ascii.eqb_eq in E as ->. exact Hd.
        -- now apply lit_string_one.
      * apply M_Cat with (j := k); [assumption|].
        apply M_Cat with (j := S k); [assumption | constructor].
Qed.

Lemma chars_append a b : Py.chars (a +s b) = Py.chars a ++ Py.chars b.
Proof.
  unfold Py.chars, cat. induction a as [|c a IH]; simpl; [reflexivity|].
  now rewrite IH.
Qed.

Lemma join_cons sep t t2 rest :
  Py.join sep (t :: t2 :: rest) = t +s (sep +s Py.join sep (t2 :: rest)).
Proof. reflexivity. Qed.

Lemma not_space_chars c :
  negb (Py.isspace c) = true ->
  Ascii.eqb c " " = false /\ Ascii.eqb c Re.newline = false.
Proof.
  intros H. split.
  - destruct (Ascii.eqb_spec c " ") as [->|]; [discriminate | reflexivity].
  - destruct (Ascii.eqb_spec c Re.newline) as [->|]; [discriminate | reflexivity].
Qed.

Lemma space_ahead_skip a t :
  forallb (fun c => negb (Py.isspace c)) a = true ->
  space_ahead (a ++ t) = space_ahead t.
Proof.
  induction a as [|c a IH]; simpl; intros H; [reflexivity|].
  apply andb_true_iff in H as [Hc Ha].
  destruct (not_space_chars _ Hc) as [-> ->]. auto.
Qed.

Lemma vowel_then_space_app a t :
  forallb (fun c => negb (Py.isspace c)) a = true ->
  vowel_then_space (a ++ t) =
  (existsb (fun c => Py.mem_char c vowel_initials) a && space_ahead t)
  || vowel_then_space t.
Proof.
  induction a as [|c a IH]; intros H; [reflexivity|].
  cbn [app vowel_then_space existsb forallb] in *.
  apply andb_true_iff in H as [Hc Ha].
  rewrite (IH Ha), (space_ahead_skip _ t Ha).
  destruct (Py.mem_char c vowel_initials), (existsb _ a), (space_ahead t);
    reflexivity.
Qed.

(** In the joined phones, a vowel letter has a space further on exactly
    when it stands in a phone other than the last one. *)
Lemma vowel_then_space_join toks :
  Forall (fun p => no_space p = true) toks ->
  vowel_then_space (Py.chars (Py.join " " toks)) =
  existsb has_vowel_letter (removelast toks).
Proof.
  induction toks as [|t toks IH]; intros Hall; [reflexivity|].
  inversion Hall as [|? ? Ht Htoks]; subst.
  destruct toks as [|t2 rest].
  - simpl. rewrite <- (app_nil_r (Py.chars t)).
    rewrite (vowel_then_space_app _ _ Ht). simpl. now rewrite andb_false_r.
  - rewrite join_cons, !chars_append.
    change (removelast (t :: t2 :: rest)) with (t :: removelast (t2 :: rest)).
    rewrite (vowel_then_space_app _ _ Ht).
    change (Py.chars " " ++ ?x) with (" "%char :: x).
    cbn [existsb space_ahead vowel_then_space].
    rewrite (IH Htoks). unfold has_vowel_letter at 1.
    now rewrite andb_true_r.
Qed.

Lemma dot_star_compiled : Re.compile ".*" = Ok (Re.Star Re.AnyChar).
Proof. reflexivity. Qed.

Lemma dot_star_search text : Re.search (Re.Star Re.AnyChar) text = true.
Proof. apply search_iff. exists 0, 0. split; [lia | constructor]. Qed.

Lemma verner_compiled pron :
  verner_changes pron =
  Ok (filter nonempty
        (map (emitted_at pron dict_verner verner_re (Re.Star Re.AnyChar))
             (Py.enumerate pron))).
Proof.
  unfold verner_changes.
  apply sound_change_compiled; [apply verner_prior_compiled | apply dot_star_compiled].
Qed.

Lemma Forall_firstn {A : Type} (P : A -> Prop) (l : list A) n :
  Forall P l -> Forall P (firstn n l).
Proof.
  intros H. apply Forall_forall. intros x Hx.
  rewrite Forall_forall in H. apply H.
  rewrite <- (firstn_skipn n l). apply in_or_app. now left.
Qed.

(** C5, as the code has it.  For phones without whitespace, Verner's step
    voices [s], [f], [x] or [xw] at a position exactly when a vowel letter
    occurs in a phone before the position other than the one right before
    it: the vowel has to be followed by a further phone.  Two earlier
    phones are needed, and a vowel only in the phone right before the
    position is not enough.  The posterior context asks for nothing.  The
    [s] of [a t a s a] is voiced, the [s] of [a s] is not. *)
Theorem verner_voices_after_vowel_and_phone :
  (forall pron : list Phone,
      Forall (fun p => no_space p = true) pron ->
      exists emitted : list Phone,
        length emitted = length pron /\
        (forall i x,
            nth_error pron i = Some x ->
            nth_error emitted i =
            Some (match Py.get dict_verner x with
                  | Some voiced =>
                      if existsb has_vowel_letter (removelast (firstn i pron))
                      then voiced else x
                  | None => x
                  end)) /\
        verner_changes pron = Ok (filter (fun p => negb (String.eqb p "")) emitted))
  /\ verner_changes ["a"; "t"; "a"; "s"; "a"] = Ok ["a"; "t"; "a"; "z"; "a"]
  /\ verner_changes ["a"; "s"] = Ok ["a"; "s"].
Proof.
  split; [|split; vm_compute; reflexivity].
  intros pron Hall.
  exists (map (emitted_at pron dict_verner verner_re (Re.Star Re.AnyChar))
              (Py.enumerate pron)).
  split; [|split].
  - now rewrite length_map, length_enumerate.
  - intros i x Hx. rewrite nth_error_map, nth_error_enumerate, Hx.
    unfold emitted_at. cbn [option_map fst snd].
    destruct (Py.get dict_verner x); [|reflexivity].
    rewrite dot_star_search, andb_true_r, verner_search.
    rewrite vowel_then_space_join by now apply Forall_firstn.
    reflexivity.
  - apply verner_compiled.
Qed.

Lemma verner_voices_after_vowel_and_phone_witness :
  exists emitted : list Phone,
    length emitted = 4 /\
    nth_error emitted 3 = Some "z" /\
    verner_changes ["a"; "t"; "a"; "s"] =
    Ok (filter (fun p => negb (String.eqb p "")) emitted).
Proof.
  destruct (proj1 verner_voices_after_vowel_and_phone ["a"; "t"; "a"; "s"])
    as (emitted & Hlen & Hnth & Hres).
  - repeat constructor.
  - exists emitted. split; [exact Hlen|]. split; [|exact Hres].
    exact (Hnth 3 "s" eq_refl).
Defined.

(** C5 as stated fails: two phones before the position with a vowel among
    them do not make the rule fire when the vowel is the phone right
    before the position, as in [t a s]. *)
Lemma verner_two_prior_phones_not_enough :
  ~ (forall (pron : list Phone) i x voiced,
        nth_error pron i = Some x ->
        Py.get dict_verner x = Some voiced ->
        2 <= length (firstn i pron) ->
        existsb (fun p => Py.mem p vowels) (firstn i pron) = true ->
        exists out, verner_changes pron = Ok out /\ nth_error out i = Some voiced).
Proof.
  intros H.
  destruct (H ["t"; "a"; "s"] 2 "s" "z" eq_refl eq_refl (le_n 2) eq_refl)
    as (out & Hout & Hnth).
  vm_compute in Hout. injection Hout as <-. discriminate Hnth.
Qed.

(* ===================================================================== *)
(** ** The partitions of [pron_breaker] *)

Lemma flat_map_agree {A B : Type} (f g : A -> list B) (l : list A) :
  (forall x, In x l -> f x = g x) -> flat_map f l = flat_map g l.
Proof.
  induction l as [|x l IH]; intros H; simpl; [reflexivity|].
  rewrite (H x (or_introl eq_refl)), IH; [reflexivity|]. intros; apply H; now right.
Qed.

Lemma pron_breaker_fuel_enough n : forall m pron,
  length pron < n -> length pron < m ->
  pron_breaker_fuel n pron = pron_breaker_fuel m pron.
Proof.
  induction n as [|n IH]; intros m pron Hn Hm; [lia|].
  destruct m as [|m]; [lia|]. simpl. f_equal.
  apply flat_map_agree. intros i Hi. apply in_seq in Hi. f_equal. f_equal.
  apply IH; rewrite length_skipn; lia.
Qed.

(** The equation of the generator, without fuel. *)
Lemma pron_breaker_eq pron :
  pron_breaker pron =
  (if length pron =? 1 then [[pron]] else []) ++
  flat_map (fun i => [firstn i pron; skipn i pron] ::
                     map (fun split => firstn i pron :: split)
                         (pron_breaker (skipn i pron)))
           (seq 1 (length pron - 1)).
Proof.
  unfold pron_breaker at 1. simpl. f_equal.
  apply flat_map_agree. intros i Hi. apply in_seq in Hi. f_equal. f_equal.
  apply pron_breaker_fuel_enough; rewrite length_skipn; lia.
Qed.

Lemma breaker_count_step k :
  breaker_count (S (S (S k))) = 2 * breaker_count (S (S k)) + 1.
Proof.
  unfold breaker_count.
  assert (1 <= 2 ^ k) by (apply Nat.neq_0_lt_0, Nat.pow_nonzero; discriminate).
  rewrite Nat.pow_succ_r'. lia.
Qed.

Lemma breaker_count_sum k :
  list_sum (map (fun i => S (breaker_count (k + 2 - i))) (seq 1 (k + 1)))
  = breaker_count (k + 2).
Proof.
  induction k as [|k IH]; [reflexivity|].
  replace (S k + 1) with (S (k + 1)) by lia.
  cbn [seq map]. rewrite <- seq_shift, map_map.
  rewrite (map_ext _ (fun i => S (breaker_count (k + 2 - i))))
    by (intros i; do 2 f_equal; lia).
  change (list_sum (?x :: ?l)) with (x + list_sum l). rewrite IH.
  replace (S k + 2 - 1) with (S (S k)) by lia.
  replace (S k + 2) with (S (S (S k))) by lia.
  replace (k + 2) with (S (S k)) by lia.
  rewrite breaker_count_step. lia.
Qed.

(** The number of partitions depends on the number of phones only. *)
Lemma pron_breaker_count pron :
  length (pron_breaker pron) = breaker_count (length pron).
Proof.
  remember (length pron) as n eqn:En. revert pron En.
  induction n as [n IH] using lt_wf_ind. intros pron En.
  rewrite pron_breaker_eq, length_app, length_flat_map, <- En.
  erewrite map_ext_in.
  2:{ intros i Hi. apply in_seq in Hi. cbn [length]. rewrite length_map.
      rewrite (IH (n - i)); [reflexivity | lia | rewrite length_skipn; lia]. }
  destruct n as [|[|k]]; [reflexivity | reflexivity |].
  cbn [Nat.eqb length]. cbn [plus].
  replace (S (S k) - 1) with (k + 1) by lia.
  erewrite map_ext_in.
  2:{ intros i Hi. replace (S (S k) - i) with (k + 2 - i) by lia. reflexivity. }
  rewrite breaker_count_sum. f_equal. lia.
Qed.

(** C1.  The generator does not enumerate the compositions: for two
    phones it yields the two-group partition twice and never the whole
    sequence as one group, and for three phones it yields five partitions
    where there are four compositions.  For [n >= 2] phones it yields
    [3 * 2^(n-2) - 1] partitions, whatever the phones are. *)
Theorem pron_breaker_repeats_and_misses :
  pron_breaker ["a"; "b"] = [[["a"]; ["b"]]; [["a"]; ["b"]]]
  /\ pron_breaker ["a"; "b"; "c"] =
     [[["a"]; ["b"; "c"]];
      [["a"]; ["b"]; ["c"]];
      [["a"]; ["b"]; ["c"]];
      [["a"; "b"]; ["c"]];
      [["a"; "b"]; ["c"]]]
  /\ pron_breaker ["a"] = [[["a"]]]
  /\ (forall pron : list Phone,
         length (pron_breaker pron) = breaker_count (length pron))
  /\ breaker_count 3 = 5.
Proof.
  repeat split. apply pron_breaker_count.
Qed.

(** Every partition it yields is the one-group partition of a one-phone
    sequence or has at least two groups. *)
Lemma pron_breaker_fuel_groups fuel : forall pron part,
  In part (pron_breaker_fuel fuel pron) ->
  (length pron = 1 /\ part = [pron]) \/ 2 <= length part.
Proof.
  induction fuel as [|fuel IH]; intros pron part Hin; [destruct Hin|].
  simpl in Hin. apply in_app_or in Hin as [Hin|Hin].
  - destruct (Nat.eqb_spec (length pron) 1) as [E|E]; [|destruct Hin].
    destruct Hin as [<-|[]]. now left.
  - right. apply in_flat_map in Hin as (i & _ & [<-|Hin]); [simpl; lia|].
    apply in_map_iff in Hin as (split & <- & Hsplit).
    destruct (IH _ _ Hsplit) as [[_ ->]|Hlen]; simpl; lia.
Qed.

Lemma pron_breaker_never_whole pron :
  2 <= length pron -> ~ In [pron] (pron_breaker pron).
Proof.
  intros Hlen Hin. apply pron_breaker_fuel_groups in Hin as [[E _]|H]; simpl in *; lia.
Qed.

Lemma pron_breaker_groups_nonempty pron part :
  In part (pron_breaker pron) -> part <> [].
Proof.
  intros Hin ->. apply pron_breaker_fuel_groups in Hin as [[_ E]|H];
    [discriminate | simpl in H; lia].
Qed.

(* ===================================================================== *)
(** ** Grimm's Law after [s] *)

(** C4.  The first pass leaves a stop unshifted after [s] only when that
    [s] begins the word: the prior context is searched for any character
    other than the letter s, so in [a s p e] the [p] is shifted although
    the phone before it is [s].  The two examples of the specification
    hold. *)
Theorem grimm_shifts_after_medial_s :
  sound_change ["a"; "s"; "p"; "e"] dict_grimm1 "(.*[^s]|^$)" ".*"
  = Ok ["a"; "s"; "f"; "e"]
  /\ grimm_changes ["a"; "s"; "p"; "e"] = Ok ["a"; "s"; "f"; "e"]
  /\ grimm_changes ["s"; "p"; "e"] = Ok ["s"; "p"; "e"]
  /\ grimm_changes ["p"; "e"] = Ok ["f"; "e"].
Proof. repeat split; vm_compute; reflexivity. Qed.

(* ===================================================================== *)
(** ** Sorting by descending key *)

Section SortedFacts.
Variables (A K : Type) (key : A -> K) (ltb : K -> K -> bool).
Variable le : K -> K -> Prop.
Hypothesis ltb_true : forall a b, ltb a b = true -> le a b.
Hypothesis ltb_false : forall a b, ltb a b = false -> le b a.
Hypothesis le_trans : forall a b c, le a b -> le b c -> le a c.

Lemma insert_desc_perm x l : Permutation (Py.insert_desc key ltb x l) (x :: l).
Proof.
  induction l as [|y l IH]; simpl; [reflexivity|].
  destruct (ltb (key x) (key y)); [|reflexivity].
  rewrite IH. apply perm_swap.
Qed.

Lemma sorted_desc_perm l : Permutation (Py.sorted_desc key ltb l) l.
Proof.
  induction l as [|x l IH]; simpl; [reflexivity|].
  rewrite insert_desc_perm. now constructor.
Qed.



End SortedFacts.





(* ===================================================================== *)
(** ** Loops that may raise *)

Lemma for_each_cons_Ok {A S : Type} (body : S -> A -> result S) x l acc r :
  for_each body (x :: l) acc = Ok r ->
  exists acc', body acc x = Ok acc' /\ for_each body l acc' = Ok r.
Proof. simpl. apply bind_Ok_inv. Qed.

(** A loop stops at the first round that raises. *)
Lemma for_each_raises {A S : Type} (body : S -> A -> result S) (bad : exn) l :
  forall acc,
    (forall acc' x, In x l -> (exists r, body acc' x = Ok r) \/ body acc' x = Raise bad) ->
    (exists x, In x l /\ forall acc', body acc' x = Raise bad) ->
    for_each body l acc = Raise bad.
Proof.
  induction l as [|x l IH]; intros acc Hall (y & Hy & Hbad); [destruct Hy|].
  simpl. destruct (Hall acc x (or_introl eq_refl)) as [(r & E)|E]; rewrite E; simpl; auto.
  destruct Hy as [->|Hy]; [rewrite Hbad in E; discriminate|].
  apply IH; [intros; apply Hall; now right | eauto].
Qed.

(* ===================================================================== *)
(** ** The spelling generator *)

Lemma has_get {V : Type} (d : Py.dict V) k :
  Py.has d k = true <-> exists v, Py.get d k = Some v.
Proof.
  unfold Py.has. destruct (Py.get d k); split; eauto; try discriminate.
  intros (v & E). discriminate.
Qed.




Lemma score_partition_Ok m final_e acc part r :
  score_partition m final_e acc part = Ok r ->
  (covered m part = false /\ r = acc) \/
  (covered m part = true /\ exists sp, scored m final_e part sp /\ r = acc ++ [sp]).
Proof.
  unfold score_partition. destruct (covered m part); simpl.
  - intros H. right. split; [reflexivity|].
    apply bind_Ok_inv in H as (phone_seqs & Hbest & H).
    apply bind_Ok_inv in H as (score & Hmean & H).
    apply bind_Ok_inv in H as (new_spelling & Htouch & [= <-]).
    exists (new_spelling, score). split; [|reflexivity].
    exists phone_seqs. auto.
  - intros [= <-]. now left.
Qed.

Lemma score_loop_Ok m final_e parts : forall acc r,
  for_each (score_partition m final_e) parts acc = Ok r ->
  exists new, r = acc ++ new /\
              Forall2 (scored m final_e) (filter (covered m) parts) new.
Proof.
  induction parts as [|part parts IH]; intros acc r H.
  - injection H as <-. exists []. split; [now rewrite app_nil_r | constructor].
  - apply for_each_cons_Ok in H as (acc' & Hb & Hrest).
    destruct (IH _ _ Hrest) as (new & -> & Hall). simpl.
    apply score_partition_Ok in Hb as [[Hc ->]|[Hc (sp & Hsp & ->)]]; rewrite Hc.
    + exists new. auto.
    + exists (sp :: new). split; [now rewrite <- app_assoc | now constructor].
Qed.




(** *** When the generator raises *)

Lemma index_only_bind {A B : Type} (m : result A) (k : A -> result B) :
  index_error_only m -> (forall a, index_error_only (k a)) ->
  index_error_only (bind m k).
Proof. destruct m; simpl; auto. Qed.

Lemma index_only_and_then a (b : result bool) :
  index_error_only b -> index_error_only (a &&& b).
Proof. destruct a; simpl; auto. Qed.

Lemma index_only_last_char s : index_error_only (Py.last_char s).
Proof. unfold Py.last_char. destruct (rev (Py.chars s)); simpl; auto. Qed.

Lemma index_only_last_but_one_char s : index_error_only (Py.last_but_one_char s).
Proof.
  unfold Py.last_but_one_char. destruct (rev (Py.chars s)) as [|? [|? ?]]; simpl; auto.
Qed.

Lemma index_only_item {A : Type} (l : list A) i : index_error_only (Py.item l i).
Proof. unfold Py.item. destruct (nth_error l i); simpl; auto. Qed.

Lemma index_only_cases {A : Type} (r : result A) :
  index_error_only r -> (exists a, r = Ok a) \/ r = Raise IndexError.
Proof. destruct r; simpl; [eauto | intros ->; auto]. Qed.

Lemma index_only_touch_up s final_e : index_error_only (touch_up s final_e).
Proof.
  unfold touch_up.
  repeat (first
            [ apply index_only_bind; [|intros ?]
            | apply index_only_and_then
            | apply index_only_last_char
            | apply index_only_last_but_one_char
            | match goal with |- index_error_only (if ?b then _ else _) => destruct b end
            | exact I ]).
Qed.

Lemma covered_groups m part :
  covered m part = true ->
  forall grp, In grp part -> exists candidates, Py.get m (Py.join "" grp) = Some candidates.
Proof.
  unfold covered. intros H grp Hin. apply negb_true_iff in H.
  apply has_get. destruct (Py.has m (Py.join "" grp)) eqn:E; [reflexivity|].
  exfalso. assert (Hex : existsb negb (map (fun g => Py.has m (Py.join "" g)) part) = true).
  { apply existsb_exists. exists false. split; [|reflexivity].
    apply in_map_iff. exists grp. auto. }
  congruence.
Qed.

Lemma index_only_best_loop m part : forall acc,
  (forall grp, In grp part -> exists c, Py.get m (Py.join "" grp) = Some c) ->
  index_error_only (for_each (best_body m) part acc).
Proof.
  induction part as [|grp part IH]; intros acc Hall; simpl; [exact I|].
  apply index_only_bind.
  - unfold best_body. apply index_only_bind; [|intros; exact I].
    unfold best_spelling. destruct (Hall grp (or_introl eq_refl)) as (c & ->).
    apply index_only_item.
  - intros a. apply IH. intros g Hg. apply Hall. now right.
Qed.

Lemma index_only_score_partition m final_e acc part :
  part <> [] -> index_error_only (score_partition m final_e acc part).
Proof.
  intros Hne. unfold score_partition. destruct (covered m part) eqn:Hc; simpl; [|exact I].
  apply index_only_bind; [apply index_only_best_loop, covered_groups, Hc|].
  intros phone_seqs. apply index_only_bind.
  - destruct part; [contradiction | exact I].
  - intros score. apply index_only_bind; [apply index_only_touch_up | intros; exact I].
Qed.

Lemma touch_up_one_sonorant letter final_e :
  In letter sonorant_letters -> touch_up (String letter "") final_e = Raise IndexError.
Proof.
  intros Hin. unfold touch_up. simpl in Hin.
  repeat (destruct Hin as [<-|Hin]; [reflexivity|]). destruct Hin.
Qed.

Lemma string_length_chars s : String.length s = length (Py.chars s).
Proof. unfold Py.chars. induction s; simpl; auto. Qed.

Lemma touch_up_Ok_raw raw final_e r :
  touch_up raw final_e = Ok r ->
  2 <= String.length raw \/
  forall c, Py.last_char raw = Ok c -> Py.mem_char c sonorant_letters = false.
Proof.
  intros H. destruct (rev (Py.chars raw)) as [|c [|d l]] eqn:E.
  - unfold touch_up, Py.last_char in H. rewrite E in H. discriminate.
  - right. intros c' Hc'. unfold Py.last_char in Hc'. rewrite E in Hc'.
    injection Hc' as <-.
    destruct (Py.mem_char c sonorant_letters) eqn:Em; [exfalso | reflexivity].
    unfold touch_up, Py.last_char, Py.last_but_one_char in H. rewrite E in H.
    cbn [bind] in H. rewrite Em in H. discriminate.
  - left. rewrite string_length_chars, <- length_rev, E. simpl. lia.
Qed.

Lemma Forall2_In_l {A B : Type} (R : A -> B -> Prop) l l' x :
  Forall2 R l l' -> In x l -> exists y, In y l' /\ R x y.
Proof.
  induction 1 as [|a b l l' Hab _ IH]; intros Hin; [destruct Hin|].
  destruct Hin as [->|Hin].
  - exists b. split; [now left | assumption].
  - destruct (IH Hin) as (y & Hy & Hr). exists y. split; [now right | assumption].
Qed.

(** C9.  [generate_spelling] raises IndexError whenever some accepted
    partition spells as one of the single letters w, r, l, m, n: the
    touch-up then reads the letter before the last of a one-letter
    string.  When it returns, the raw spelling of every accepted
    partition has at least two letters or does not end in one of those
    letters.  A model that spells [n] as the letter n shows the failure. *)
Theorem generate_spelling_raises_on_one_sonorant_letter :
  (forall (m : p2g_model) (pron : list Phone) (final_e : bool)
          (part : list (list Phone)) (letter : ascii),
      In part (pron_breaker (normalize pron)) ->
      covered m part = true ->
      raw_spelling m part = Ok (String letter "") ->
      In letter sonorant_letters ->
      generate_spelling m pron final_e = Raise IndexError)
  /\ (forall (m : p2g_model) (pron : list Phone) (final_e : bool) (out : list string),
         generate_spelling m pron final_e = Ok out ->
         forall part,
           In part (pron_breaker (normalize pron)) ->
           covered m part = true ->
           exists raw,
             raw_spelling m part = Ok raw /\
             (2 <= String.length raw \/
              forall c, Py.last_char raw = Ok c ->
                        Py.mem_char c sonorant_letters = false))
  /\ generate_spelling [("n", [("n", 1%Z)])] ["n"] false = Raise IndexError.
Proof.
  split; [|split; [|reflexivity]].
  - intros m pron final_e part letter Hin Hcov Hraw Hson.
    unfold generate_spelling.
    rewrite (for_each_raises (score_partition m final_e) IndexError); [reflexivity| |].
    + intros acc x Hx. apply index_only_cases, index_only_score_partition.
      eapply pron_breaker_groups_nonempty; eauto.
    + exists part. split; [assumption|]. intros acc.
      unfold score_partition. rewrite Hcov. simpl.
      unfold raw_spelling in Hraw.
      apply bind_Ok_inv in Hraw as (phone_seqs & Hbest & [= Hjoin]).
      rewrite Hbest. simpl. rewrite Hjoin.
      destruct part as [|g part];
        [exfalso; eapply pron_breaker_groups_nonempty; eauto|].
      simpl. now rewrite touch_up_one_sonorant.
  - intros m pron final_e out H part Hin Hcov.
    unfold generate_spelling in H.
    apply bind_Ok_inv in H as (spellings & Hloop & _).
    apply score_loop_Ok in Hloop as (new & _ & Hall).
    assert (Hf : In part (filter (covered m) (pron_breaker (normalize pron))))
      by (apply filter_In; auto).
    destruct (Forall2_In_l _ _ _ _ Hall Hf) as (sp & _ & phone_seqs & Hbest & _ & Htouch).
    exists (Py.join "" (map fst phone_seqs)). split.
    + unfold raw_spelling. now rewrite Hbest.
    + eapply touch_up_Ok_raw; eauto.
Qed.

Lemma generate_spelling_raises_on_one_sonorant_letter_witness :
  generate_spelling [("m", [("m", 4%Z); ("mm", 1%Z)])] ["m"] true = Raise IndexError.
Proof.
  apply (proj1 generate_spelling_raises_on_one_sonorant_letter
               [("m", [("m", 4%Z); ("mm", 1%Z)])] ["m"] true [["m"]] "m"%char).
  - now left.
  - reflexivity.
  - reflexivity.
  - simpl. auto.
Defined.

(** C7.  The touch-ups are not applied to a raw spelling that is one of
    the single letters w, r, l, m, n: reading the letter before the last
    raises IndexError, with either value of the flag, and the generator
    raises with it. *)
Theorem touch_up_fails_on_single_sonorant :
  touch_up "n" false = Raise IndexError
  /\ touch_up "n" true = Raise IndexError
  /\ generate_spelling [("n", [("n", 1%Z)])] ["n"] true = Raise IndexError
  /\ touch_up "tn" false = Ok "ten"
  /\ touch_up "an" true = Ok "ane"
  /\ touch_up "be" true = Ok "be"
  /\ touch_up "ta" false = Ok "ta".
Proof. repeat split. Qed.


(* ===================================================================== *)
(** ** [generate_entry] *)


(** C3.  With no accepted partition [generate_spelling] returns the empty
    list, and [generate_entry] then raises IndexError: it takes the first
    candidate without a test.  For the root [p e t] the modern phones are
    [f e T], which a model that knows only [f] does not cover.  For the
    root [k] the Middle English phones are [x] and the modern phones are
    none, so there is no partition and no candidate whatever the spelling
    model is. *)
Theorem generate_entry_takes_first_candidate :
  middle_english_of ["p"; "e"; "t"] = Ok ["f"; "e"; "T"]
  /\ early_modern_english_changes ["f"; "e"; "T"] = Ok ["f"; "e"; "T"]
  /\ generate_spelling model_f ["f"; "e"; "T"] false = Ok []
  /\ generate_entry roots_pet [] model_f ipa_pet 0 0 "pet" "" = Raise IndexError
  /\ middle_english_of ["k"] = Ok ["x"]
  /\ early_modern_english_changes ["x"] = Ok []
  /\ (forall (spelling_model : p2g_model) (xsampa2ipa : Py.dict string)
             (final_e : bool),
         generate_spelling spelling_model [] final_e = Ok []
         /\ generate_entry roots_k [] spelling_model xsampa2ipa 0 0 "k" ""
            = Raise IndexError).
Proof. repeat split; vm_compute; reflexivity. Qed.



(* ===================================================================== *)
(** ** The eras: every stage returns *)

Lemma Subseq_refl {A : Type} (l : list A) : Subseq l l.
Proof. induction l; constructor; assumption. Qed.


Lemma Subseq_filter {A : Type} (f : A -> bool) (l : list A) : Subseq (filter f l) l.
Proof.
  induction l as [|x l IH]; simpl; [constructor|].
  destruct (f x); constructor; assumption.
Qed.





Lemma filter_nonempty_Forall l : Forall (fun p => nonempty p = true) (filter nonempty l).
Proof. apply Forall_forall. intros x Hx. now apply filter_In in Hx. Qed.



(** Running the next engine call of a stage. *)
Ltac compiled := vm_compute; eexists; reflexivity.











(** *** Middle English: the scans stay in range *)

Lemma str_nonempty c cs : nonempty (Py.str (c :: cs)) = true.
Proof. reflexivity. Qed.

Lemma split_go_nonempty cs : forall cur,
  Forall (fun p => nonempty p = true) (Py.split_go cur cs).
Proof.
  assert (Hrev : forall cur : list ascii,
             cur <> [] -> nonempty (Py.str (rev cur)) = true).
  { intros cur Hne. destruct (rev cur) as [|c r] eqn:E; [|reflexivity].
    apply (f_equal (@rev ascii)) in E. rewrite rev_involutive in E. contradiction. }
  induction cs as [|c cs IH]; intros cur; simpl.
  - destruct cur as [|d cur]; constructor; [apply Hrev; discriminate | constructor].
  - destruct (Py.isspace c); [|apply IH].
    destruct cur as [|d cur]; [apply IH|].
    constructor; [apply Hrev; discriminate | apply IH].
Qed.

Lemma split_nonempty s : Forall (fun p => nonempty p = true) (Py.split s).
Proof. apply split_go_nonempty. Qed.

Lemma ends_with_colon_nonempty p :
  nonempty p = true -> exists b, ends_with_colon p = Ok b.
Proof.
  unfold ends_with_colon, Py.last_char, Py.chars. destruct p as [|c p]; [discriminate|].
  intros _. simpl. destruct (rev (list_ascii_of_string p) ++ [c]) eqn:E.
  - apply app_eq_nil in E as [_ E]. discriminate.
  - simpl. eauto.
Qed.

Lemma vowels_nonempty p : Py.mem p vowels = true -> nonempty p = true.
Proof.
  intros H. destruct p; [|reflexivity]. discriminate.
Qed.



Lemma In_enumerate {A : Type} (l : list A) i x :
  In (i, x) (Py.enumerate l) -> nth_error l i = Some x.
Proof.
  intros H. apply In_nth_error in H as (n & Hn).
  rewrite nth_error_enumerate in Hn.
  destruct (nth_error l n) eqn:E; [|discriminate].
  simpl in Hn. now injection Hn as -> ->.
Qed.

Lemma for_each_total {A S : Type} (body : S -> A -> result S) (l : list A) :
  (forall acc x, In x l -> exists acc', body acc x = Ok acc') ->
  forall acc, exists out, for_each body l acc = Ok out.
Proof.
  induction l as [|x l IH]; intros Hbody acc; simpl; [eauto|].
  destruct (Hbody acc x (or_introl eq_refl)) as (acc' & ->). simpl.
  apply IH. intros; apply Hbody; now right.
Qed.



Lemma two_syll_compiled : exists r, Re.compile two_syll_pattern = Ok r.
Proof. compiled. Qed.








Example stages_on_short_inputs :
  middle_english_changes [] = Ok []
  /\ middle_english_changes ["a"] = Ok ["a"]
  /\ me_vowel_lengthening ["a"; "n"] = Ok ["a"; "n"]
  /\ me_vowel_lengthening ["a"; "n"; "d"] = Ok ["a:"; "n"; "d"]
  /\ me_diphthongization ["e"] = Ok ["e"]
  /\ me_diphthongization ["e"; "j"] = Ok ["eI"]
  /\ early_modern_english_changes [] = Ok []
  /\ proto_germanic_changes ["a"; "n"; "x"] = Ok ["a:"].
Proof. repeat split; vm_compute; reflexivity. Qed.

(* ===================================================================== *)
(** ** The diphthong scan: its fuel is never used up *)

Lemma me_diphthongization_loop_fuel pron n : forall m phone new_phone,
  length pron - phone <= n -> length pron - phone <= m ->
  me_diphthongization_loop n pron phone new_phone =
  me_diphthongization_loop m pron phone new_phone.
Proof.
  induction n as [|n IH]; intros m phone new_phone Hn Hm.
  - destruct m; cbn [me_diphthongization_loop];
      destruct (Nat.ltb_spec phone (length pron)); cbn [negb]; try reflexivity; lia.
  - destruct m as [|m]; cbn [me_diphthongization_loop];
      destruct (Nat.ltb_spec phone (length pron)); cbn [negb]; try reflexivity;
      [lia|].
    repeat match goal with
           | |- bind ?x _ = bind ?x _ => destruct x; cbn [bind]; [|reflexivity]
           | |- (if ?b then _ else _) = (if ?b then _ else _) => destruct b
           | |- match ?x with _ => _ end = match ?x with _ => _ end =>
               destruct x
           | |- _ => reflexivity
           | |- _ => apply IH; lia
           end.
Qed.

(* ===================================================================== *)
(** ** The touch-ups on spellings of two letters or more *)

Lemma str_chars s : Py.str (Py.chars s) = s.
Proof. apply string_of_list_ascii_of_string. Qed.

Lemma chars_str l : Py.chars (Py.str l) = l.
Proof. apply list_ascii_of_string_of_list_ascii. Qed.

Lemma str_app a b : Py.str (a ++ b) = Py.str a +s Py.str b.
Proof.
  rewrite <- (str_chars (Py.str a +s Py.str b)), chars_append, !chars_str.
  reflexivity.
Qed.

Lemma cat_assoc a b c : a +s b +s c = a +s (b +s c).
Proof. unfold cat. induction a as [|x a IH]; simpl; [reflexivity | now rewrite IH]. Qed.

Lemma rev_snoc3 {A : Type} (pre : list A) b e f :
  rev (pre ++ [b; e; f]) = f :: e :: b :: rev pre.
Proof. rewrite rev_app_distr. reflexivity. Qed.

Lemma rev_eq_cons {A : Type} (l : list A) x r : rev l = x :: r -> l = rev r ++ [x].
Proof.
  intros H. apply (f_equal (@rev A)) in H. now rewrite rev_involutive in H.
Qed.

Lemma last_char_str l :
  Py.last_char (Py.str l) =
  match rev l with c :: _ => Ok c | [] => Raise IndexError end.
Proof. unfold Py.last_char. now rewrite chars_str. Qed.

Lemma rev_snoc2 {A : Type} (pre : list A) b f :
  rev (pre ++ [b; f]) = f :: b :: rev pre.
Proof. rewrite rev_app_distr. reflexivity. Qed.

Lemma touch_up_two_letters raw final_e :
  2 <= String.length raw -> touch_up raw final_e = Ok (touched_up raw final_e).
Proof.
  intros Hlen. rewrite string_length_chars, <- length_rev in Hlen.
  destruct (rev (Py.chars raw)) as [|final [|before rest]] eqn:E;
    simpl in Hlen; try lia.
  apply rev_eq_cons in E.
  assert (Hraw : raw = Py.str (rev rest ++ [before; final])).
  { rewrite <- (str_chars raw), E. simpl. now rewrite <- app_assoc. }
  subst raw. generalize (rev rest) as pre. clear. intros pre.
  unfold touch_up, touched_up, Py.last_but_one_char, Py.drop_last_char.
  rewrite last_char_str, chars_str, rev_snoc2. cbn [bind and_then].
  destruct (Py.mem_char final sonorant_letters); cbn [and_then bind andb].
  - destruct (negb (Py.mem_char before vowel_letters)).
    + replace (removelast (pre ++ [before; final])) with (pre ++ [before])
        by (change [before; final] with ([before] ++ [final]);
            now rewrite app_assoc, removelast_last).
      replace (Py.str (pre ++ [before]) +s "e" +s String final "")
        with (Py.str (pre ++ [before; "e"%char; final]))
        by (change [before; "e"%char; final] with ([before] ++ ["e"%char; final]);
            now rewrite app_assoc, str_app, cat_assoc).
      rewrite rev_involutive.
      destruct final_e; cbn [and_then bind andb]; [|reflexivity].
      rewrite last_char_str, rev_snoc3. cbn [bind].
      destruct (negb (Ascii.eqb final "e")); [|reflexivity].
      now rewrite !str_app.
    + destruct final_e; cbn [and_then bind andb]; [|reflexivity].
      rewrite last_char_str, rev_snoc2. cbn [bind].
      destruct (negb (Ascii.eqb final "e")); [|reflexivity].
      now rewrite !str_app.
  - destruct final_e; cbn [and_then bind andb]; [|reflexivity].
    rewrite last_char_str, rev_snoc2. cbn [bind].
    destruct (negb (Ascii.eqb final "e")); [|reflexivity].
    now rewrite !str_app.
Qed.

(** The generator returns when every accepted partition has a spelling
    of two letters or more. *)
Lemma generate_spelling_returns m pron final_e :
  (forall part,
      In part (pron_breaker (normalize pron)) -> covered m part = true ->
      exists raw, raw_spelling m part = Ok raw /\ 2 <= String.length raw) ->
  exists out, generate_spelling m pron final_e = Ok out.
Proof.
  intros Hall. unfold generate_spelling.
  destruct (for_each_total (score_partition m final_e)
              (pron_breaker (normalize pron))) with (acc := @nil (string * Q))
    as (spellings & ->); [|rewrite bind_Ok; eauto].
  intros acc part Hin. unfold score_partition.
  destruct (covered m part) eqn:Hc; cbn [negb]; [|eauto].
  destruct (Hall part Hin Hc) as (raw & Hraw & Hlen).
  unfold raw_spelling in Hraw.
  apply bind_Ok_inv in Hraw as (phone_seqs & -> & [= <-]). rewrite bind_Ok.
  destruct part as [|g part];
    [exfalso; eapply pron_breaker_groups_nonempty; eauto|].
  cbn [length mean]. rewrite bind_Ok.
  rewrite (touch_up_two_letters _ final_e Hlen), bind_Ok. eauto.
Qed.

(* ===================================================================== *)
(** ** Grimm's first pass: where the shift is blocked *)

Lemma grimm1_compiled : Re.compile "(.*[^s]|^$)" = Ok grimm1_re.
Proof. reflexivity. Qed.

Lemma grimm1_search text :
  Re.search grimm1_re text =
  match Py.chars text with
  | [] => true
  | cs => other_than_s cs
  end.
Proof.
  apply eq_true_iff_eq. rewrite search_iff. generalize (Py.chars text) as s.
  intros s. unfold grimm1_re. split.
  - intros (i & j & _ & H).
    destruct s as [|c0 s0]; [reflexivity|]. set (s := c0 :: s0) in *.
    apply existsb_exists.
    inversion H as [| | | | | | |? ? ? ? Hl|? ? ? ? Hr| |]; subst.
    + inversion Hl as [| | | | | |? ? ? k ? _ Hc| | | |]; subst.
      inversion Hc as [| | |? ? c ? Hnth Hx| | | | | | |]; subst.
      exists c. split; [eapply nth_error_In; eauto|].
      cbn [xorb] in Hx. unfold Py.mem_char in Hx. simpl in Hx.
      now rewrite orb_false_r in Hx.
    + inversion Hr as [| | | | | |? ? ? k ? Hb He| | | |]; subst.
      inversion Hb; subst. inversion He as [| | | | |? Hend| | | | |]; subst.
      unfold Re.at_end in Hend. subst s. simpl in Hend.
      destruct s0; [|discriminate].
      exists c0. split; [now left|].
      destruct (Ascii.eqb_spec c0 Re.newline) as [->|]; [reflexivity | discriminate].
  - intros H. destruct s as [|c0 s0].
    + exists 0, 0. split; [lia|]. apply M_OrR.
      apply M_Cat with (j := 0); constructor. reflexivity.
    + apply existsb_exists in H as (c & Hin & Hc).
      apply In_nth_error in Hin as (k & Hk).
      exists k, (S k). split.
      * apply Nat.lt_le_incl, nth_error_Some. congruence.
      * apply M_OrL. apply M_Cat with (j := k); [constructor|].
        apply M_Class with (c := c); [assumption|].
        cbn [xorb]. unfold Py.mem_char. simpl. now rewrite orb_false_r.
Qed.

Lemma other_than_s_join t t2 rest :
  other_than_s (Py.chars (Py.join " " (t :: t2 :: rest))) = true.
Proof.
  rewrite join_cons, !chars_append. unfold other_than_s.
  rewrite existsb_app. apply orb_true_iff. right. reflexivity.
Qed.

Lemma grimm1_blocked i pron :
  negb (Re.search grimm1_re (Py.join " " (firstn i pron))) = only_s_before i pron.
Proof.
  rewrite grimm1_search. unfold only_s_before.
  destruct (firstn i pron) as [|t [|t2 rest]].
  - reflexivity.
  - change (Py.join " " [t]) with t. destruct (Py.chars t); reflexivity.
  - pose proof (other_than_s_join t t2 rest) as H.
    destruct (Py.chars (Py.join " " (t :: t2 :: rest))); [discriminate|].
    now rewrite H.
Qed.

(** The first pass of Grimm's Law shifts every voiceless stop except the
    one that stands right after a word-initial [s]. *)
Lemma grimm1_blocks_only_after_initial_s pron :
  exists emitted : list Phone,
    length emitted = length pron /\
    (forall i x,
        nth_error pron i = Some x ->
        nth_error emitted i =
        Some (match Py.get dict_grimm1 x with
              | Some shifted => if only_s_before i pron then x else shifted
              | None => x
              end)) /\
    sound_change pron dict_grimm1 "(.*[^s]|^$)" ".*" = Ok (filter nonempty emitted).
Proof.
  exists (map (emitted_at pron dict_grimm1 grimm1_re (Re.Star Re.AnyChar))
              (Py.enumerate pron)).
  split; [|split].
  - now rewrite length_map, length_enumerate.
  - intros i x Hx. rewrite nth_error_map, nth_error_enumerate, Hx.
    unfold emitted_at. cbn [option_map fst snd].
    destruct (Py.get dict_grimm1 x); [|reflexivity].
    rewrite dot_star_search, andb_true_r, <- grimm1_blocked.
    destruct (Re.search grimm1_re _); reflexivity.
  - apply sound_change_compiled; [apply grimm1_compiled | apply dot_star_compiled].
Qed.

(* ===================================================================== *)
(** * Further properties of the code *)

(** ** [pron_breaker]: what it yields *)

Lemma pron_breaker_fuel_sound fuel : forall pron part,
  In part (pron_breaker_fuel fuel pron) ->
  concat part = pron /\ Forall (fun g => g <> []) part.
Proof.
  induction fuel as [|fuel IH]; intros pron part Hin; [destruct Hin|].
  simpl in Hin. apply in_app_or in Hin as [Hin|Hin].
  - destruct (Nat.eqb_spec (length pron) 1) as [E|E]; [|destruct Hin].
    destruct Hin as [<-|[]]. split.
    + simpl. apply app_nil_r.
    + constructor; [|constructor]. intros ->. discriminate.
  - apply in_flat_map in Hin as (i & Hi & Hin). apply in_seq in Hi.
    assert (Hf : firstn i pron <> []).
    { intros E. apply (f_equal (@length string)) in E.
      rewrite length_firstn in E. simpl in E. lia. }
    assert (Hs : skipn i pron <> []).
    { intros E. apply (f_equal (@length string)) in E.
      rewrite length_skipn in E. simpl in E. lia. }
    destruct Hin as [<-|Hin].
    + split; [simpl; rewrite app_nil_r; apply firstn_skipn|].
      repeat constructor; assumption.
    + apply in_map_iff in Hin as (split & <- & Hsplit).
      destruct (IH _ _ Hsplit) as [Hc Hall]. split.
      * simpl. rewrite Hc. apply firstn_skipn.
      * constructor; assumption.
Qed.

Lemma concat_nonempty {A : Type} (g : list A) (rest : list (list A)) :
  g <> [] -> concat (g :: rest) <> [].
Proof. destruct g; [contradiction | discriminate]. Qed.

Lemma pron_breaker_complete part :
  Forall (fun g => g <> []) part -> 2 <= length part ->
  In part (pron_breaker (concat part)).
Proof.
  induction part as [|g rest IH]; intros Hall Hlen; [simpl in Hlen; lia|].
  inversion Hall as [|? ? Hg Hrest]; subst.
  destruct rest as [|g2 rest]; [simpl in Hlen; lia|].
  assert (Hne : concat (g2 :: rest) <> [])
    by (inversion Hrest; subst; now apply concat_nonempty).
  rewrite pron_breaker_eq. apply in_or_app. right.
  apply in_flat_map. exists (length g).
  change (concat (g :: g2 :: rest)) with (g ++ concat (g2 :: rest)).
  assert (1 <= length g) by (destruct g; [contradiction | simpl; lia]).
  assert (1 <= length (concat (g2 :: rest)))
    by (destruct (concat (g2 :: rest)); [contradiction | simpl; lia]).
  split; [apply in_seq; rewrite length_app; lia|].
  rewrite firstn_app, Nat.sub_diag, firstn_all, firstn_O, app_nil_r.
  rewrite skipn_app, Nat.sub_diag, skipn_all, skipn_O. cbn [app].
  destruct rest as [|g3 rest].
  - left. simpl. now rewrite app_nil_r.
  - right. apply in_map. apply IH; [assumption | simpl; lia].
Qed.

(** X1.  [pron_breaker] yields exactly the splits of the sequence into at
    least two non-empty groups that concatenate back to it, and for a
    sequence of one phone the sequence itself as one group; nothing else,
    and in particular nothing for the empty sequence. *)
Theorem pron_breaker_yields_iff :
  forall (pron : list Phone) (part : list (list Phone)),
    In part (pron_breaker pron) <->
    concat part = pron /\
    Forall (fun g => g <> []) part /\
    (2 <= length part \/ length pron = 1).
Proof.
  intros pron part. split.
  - intros Hin. destruct (pron_breaker_fuel_sound _ _ _ Hin) as [Hc Hall].
    split; [assumption|]. split; [assumption|].
    destruct (pron_breaker_fuel_groups _ _ _ Hin) as [[E _]|H]; auto.
  - intros (Hc & Hall & [Hlen|Hone]).
    + subst pron. now apply pron_breaker_complete.
    + destruct (le_lt_dec 2 (length part)) as [H2|H2];
        [subst pron; now apply pron_breaker_complete|].
      rewrite pron_breaker_eq. apply in_or_app. left. rewrite Hone. simpl. left.
      destruct part as [|g [|g2 rest]]; simpl in H2; try lia.
      * subst pron. discriminate.
      * simpl in Hc. rewrite app_nil_r in Hc. now subst.
Qed.

Lemma pron_breaker_yields_iff_witness :
  concat [["a"]; ["b"; "c"]] = ["a"; "b"; "c"] /\
  In [["a"]; ["b"; "c"]] (pron_breaker ["a"; "b"; "c"]).
Proof.
  split; [reflexivity|].
  apply (proj2 (pron_breaker_yields_iff ["a"; "b"; "c"] [["a"]; ["b"; "c"]])).
  split; [reflexivity|]. split; [|left; simpl; lia].
  repeat constructor; discriminate.
Defined.

(** ** The spelling generator: choices, touch-ups, when it returns *)

Lemma sorted_desc_nil {A : Type} (key : A -> Z) (l : list A) :
  Py.sorted_desc key Z.ltb l = [] -> l = [].
Proof.
  intros E. pose proof (sorted_desc_perm _ _ key Z.ltb l) as Hp. rewrite E in Hp.
  now apply Permutation_nil.
Qed.

Lemma sorted_desc_head_first {A : Type} (key : A -> Z) (l : list A) : forall x,
  Py.item (Py.sorted_desc key Z.ltb l) 0 = Ok x ->
  exists pre post,
    l = pre ++ x :: post /\
    (forall y, In y pre -> (key y < key x)%Z) /\
    (forall y, In y post -> (key y <= key x)%Z).
Proof.
  induction l as [|a l IH]; intros x Hx; [discriminate|].
  cbn [Py.sorted_desc fold_right] in Hx.
  change (fold_right (Py.insert_desc key Z.ltb) [] l)
    with (Py.sorted_desc key Z.ltb l) in Hx.
  destruct (Py.sorted_desc key Z.ltb l) as [|y rest] eqn:E.
  - apply sorted_desc_nil in E. subst l. injection Hx as <-.
    exists [], []. repeat split; intros ? [].
  - destruct (IH y eq_refl) as (pre & post & -> & Hpre & Hpost).
    cbn [Py.insert_desc] in Hx. destruct (Z.ltb_spec (key a) (key y)) as [Hlt|Hge].
    + injection Hx as <-. exists (a :: pre), post. repeat split; auto.
      intros z [<-|Hz]; auto.
    + injection Hx as <-. exists [], (pre ++ y :: post). repeat split.
      * intros ? [].
      * intros z Hz. apply in_app_or in Hz as [Hz|[<-|Hz]].
        -- specialize (Hpre z Hz). lia.
        -- assumption.
        -- specialize (Hpost z Hz). lia.
Qed.

(** X2.  For a chunk, [generate_spelling] takes the letter sequence with
    the highest count, and among several with the highest count the one
    recorded first in the model. *)
Theorem best_spelling_first_of_the_highest :
  forall (m : p2g_model) (phone_seq_list : list Phone) (choice : string * Z),
    best_spelling m phone_seq_list = Ok choice ->
    exists candidates earlier later,
      Py.get m (Py.join "" phone_seq_list) = Some candidates /\
      candidates = earlier ++ choice :: later /\
      (forall other, In other earlier -> (snd other < snd choice)%Z) /\
      (forall other, In other later -> (snd other <= snd choice)%Z).
Proof.
  intros m grp choice H. unfold best_spelling in H.
  destruct (Py.get m (Py.join "" grp)) as [cands|]; [|discriminate].
  apply sorted_desc_head_first in H as (pre & post & E & Hpre & Hpost).
  exists cands, pre, post. auto.
Qed.

Lemma best_spelling_first_of_the_highest_witness :
  exists candidates earlier later,
    Py.get [("f", [("ph", 2%Z); ("f", 10%Z); ("ff", 10%Z)])] (Py.join "" ["f"])
    = Some candidates /\
    candidates = earlier ++ ("f", 10%Z) :: later /\
    (forall other, In other earlier -> (snd other < 10)%Z) /\
    (forall other, In other later -> (snd other <= 10)%Z).
Proof.
  exact (best_spelling_first_of_the_highest
           [("f", [("ph", 2%Z); ("f", 10%Z); ("ff", 10%Z)])] ["f"] ("f", 10%Z)
           eq_refl).
Defined.

Lemma mem_char_In c l : Py.mem_char c l = true <-> In c l.
Proof.
  unfold Py.mem_char. rewrite existsb_exists. split.
  - intros (d & Hd & E). apply Ascii.eqb_eq in E as ->. assumption.
  - intros H. exists c. split; auto. apply Ascii.eqb_refl.
Qed.

Lemma touch_up_one_letter c final_e :
  Py.mem_char c sonorant_letters = false ->
  touch_up (String c "") final_e =
  Ok (if final_e && negb (Ascii.eqb c "e") then String c "e" else String c "").
Proof.
  intros Hc. unfold touch_up.
  change (Py.last_char (String c "")) with (Ok c : result ascii).
  rewrite bind_Ok, Hc. cbn [and_then bind].
  destruct final_e; cbn [and_then bind andb]; [|reflexivity].
  change (Py.last_char (String c "")) with (Ok c : result ascii).
  rewrite bind_Ok. cbn [bind]. destruct (negb (Ascii.eqb c "e")); reflexivity.
Qed.

Lemma touch_up_Ok_cases raw final_e r :
  touch_up raw final_e = Ok r ->
  2 <= String.length raw \/
  exists c, raw = String c "" /\ Py.mem_char c sonorant_letters = false.
Proof.
  intros H. destruct raw as [|c [|d raw]].
  - discriminate.
  - right. exists c. split; [reflexivity|].
    destruct (Py.mem_char c sonorant_letters) eqn:E; [|reflexivity].
    apply mem_char_In in E.
    rewrite (touch_up_one_sonorant c final_e E) in H. discriminate.
  - left. simpl. lia.
Qed.

Lemma touch_up_cases_Ok raw final_e :
  2 <= String.length raw \/
  (exists c, raw = String c "" /\ Py.mem_char c sonorant_letters = false) ->
  exists r, touch_up raw final_e = Ok r.
Proof.
  intros [Hlen|(c & -> & Hc)].
  - rewrite (touch_up_two_letters raw final_e Hlen). eauto.
  - rewrite (touch_up_one_letter c final_e Hc). eauto.
Qed.

(** X3.  The touch-up step returns exactly on the raw spellings of two
    letters or more and on the single letters other than w, r, l, m, n;
    on the empty string and on those five letters it raises. *)
Theorem touch_up_returns_iff :
  forall (raw : string) (final_e : bool),
    (exists r, touch_up raw final_e = Ok r) <->
    (2 <= String.length raw \/
     exists c, raw = String c "" /\ Py.mem_char c sonorant_letters = false).
Proof.
  intros raw final_e. split.
  - intros (r & H). exact (touch_up_Ok_cases raw final_e r H).
  - apply touch_up_cases_Ok.
Qed.

Lemma touch_up_returns_iff_witness :
  exists r, touch_up "stn" true = Ok r.
Proof.
  apply (proj2 (touch_up_returns_iff "stn" true)). left. simpl. lia.
Defined.

Lemma last_but_one_char_str l :
  Py.last_but_one_char (Py.str l) =
  match rev l with _ :: c :: _ => Ok c | _ => Raise IndexError end.
Proof. unfold Py.last_but_one_char. now rewrite chars_str. Qed.

Lemma sonorant_not_e c : Py.mem_char c sonorant_letters = true -> Ascii.eqb c "e" = false.
Proof.
  intros H. apply mem_char_In in H. simpl in H.
  repeat (destruct H as [<-|H]; [reflexivity|]). destruct H.
Qed.

Lemma rev_snoc {A : Type} (l : list A) x : rev (l ++ [x]) = x :: rev l.
Proof. rewrite rev_app_distr. reflexivity. Qed.

Lemma touched_up_ends pre before final final_e :
  (final_e = true ->
   ends_in_e (touched_up (Py.str (pre ++ [before; final])) final_e)) /\
  well_ended (touched_up (Py.str (pre ++ [before; final])) final_e).
Proof.
  unfold touched_up, ends_in_e, well_ended.
  rewrite chars_str, rev_snoc2.
  destruct (Py.mem_char final sonorant_letters) eqn:Hson; cbn [andb].
  - destruct (Py.mem_char before vowel_letters) eqn:Hvow; cbn [negb].
    + rewrite rev_snoc2. rewrite (sonorant_not_e _ Hson). cbn [negb].
      destruct final_e; cbn [andb].
      * split; [intros _; rewrite last_char_str, rev_snoc; reflexivity|].
        intros f b. rewrite last_char_str, rev_snoc. intros [= <-].
        discriminate.
      * split; [discriminate|].
        intros f b. rewrite last_char_str, last_but_one_char_str, rev_snoc2.
        intros [= <-] [= <-] _. exact Hvow.
    + rewrite rev_involutive, rev_snoc3. rewrite (sonorant_not_e _ Hson). cbn [negb].
      destruct final_e; cbn [andb].
      * split; [intros _; rewrite last_char_str, rev_snoc; reflexivity|].
        intros f b. rewrite last_char_str, rev_snoc. intros [= <-].
        discriminate.
      * split; [discriminate|].
        intros f b. rewrite last_char_str, last_but_one_char_str, rev_snoc3.
        intros _ [= <-] _. reflexivity.
  - rewrite rev_snoc2. destruct final_e; cbn [andb].
    + destruct (Ascii.eqb_spec final "e") as [->|Hne]; cbn [negb].
      * split; [intros _; rewrite last_char_str, rev_snoc2; reflexivity|].
        intros f b. rewrite last_char_str, rev_snoc2. intros [= <-]. discriminate.
      * split; [intros _; rewrite last_char_str, rev_snoc; reflexivity|].
        intros f b. rewrite last_char_str, rev_snoc. intros [= <-]. discriminate.
    + split; [discriminate|].
      intros f b. rewrite last_char_str, rev_snoc2. intros [= <-] _ H.
      congruence.
Qed.

Lemma two_letters_split raw :
  2 <= String.length raw ->
  exists pre before final, raw = Py.str (pre ++ [before; final]).
Proof.
  intros Hlen. rewrite string_length_chars, <- length_rev in Hlen.
  destruct (rev (Py.chars raw)) as [|final [|before rest]] eqn:E;
    simpl in Hlen; try lia.
  apply rev_eq_cons in E. exists (rev rest), before, final.
  rewrite <- (str_chars raw), E. simpl. now rewrite <- app_assoc.
Qed.

(** A spelling that comes out of the touch-ups never ends in a letter
    other than a, e, i, o, u, y followed by one of w, r, l, m, n, and with
    the silent-e flag set it ends in e. *)
Lemma touch_up_ends (raw : string) (final_e : bool) (spelling : string) :
  touch_up raw final_e = Ok spelling ->
  well_ended spelling /\ (final_e = true -> ends_in_e spelling).
Proof.
  revert spelling. intros r H.
  destruct (touch_up_Ok_cases raw final_e r H) as [Hlen|(c & -> & Hc)].
  - rewrite (touch_up_two_letters raw final_e Hlen) in H. injection H as <-.
    destruct (two_letters_split raw Hlen) as (pre & b & f & ->).
    destruct (touched_up_ends pre b f final_e). auto.
  - rewrite (touch_up_one_letter c final_e Hc) in H. injection H as <-.
    unfold well_ended, ends_in_e.
    destruct final_e; cbn [andb].
    + destruct (Ascii.eqb_spec c "e") as [->|Hne]; cbn [negb].
      * split; [intros f b _ Hb; discriminate | reflexivity].
      * split; [intros f b [= <-]; discriminate | reflexivity].
    + split; [intros f b _ Hb; discriminate | discriminate].
Qed.

Lemma Forall2_In_r {A B : Type} (R : A -> B -> Prop) l l' y :
  Forall2 R l l' -> In y l' -> exists x, In x l /\ R x y.
Proof.
  induction 1 as [|a b l l' Hab _ IH]; intros Hin; [destruct Hin|].
  destruct Hin as [->|Hin].
  - exists a. split; [now left | assumption].
  - destruct (IH Hin) as (x & Hx & Hr). exists x. split; [now right | assumption].
Qed.

Lemma generate_spelling_In m pron final_e out s :
  generate_spelling m pron final_e = Ok out ->
  In s out ->
  exists part raw,
    In part (pron_breaker (normalize pron)) /\
    covered m part = true /\
    raw_spelling m part = Ok raw /\
    touch_up raw final_e = Ok s.
Proof.
  intros H Hs. unfold generate_spelling in H.
  apply bind_Ok_inv in H as (spellings & Hloop & Hout).
  assert (E : out = map fst (firstn 5 (Py.sorted_desc snd Qltb spellings)))
    by (inversion Hout; reflexivity).
  clear Hout. subst out.
  apply score_loop_Ok in Hloop as (new & -> & Hall).
  change ([] ++ new) with new in Hs.
  apply in_map_iff in Hs as (sp & <- & Hsp).
  assert (Hin : In sp new).
  { eapply Permutation_in; [apply sorted_desc_perm|].
    rewrite <- (firstn_skipn 5). apply in_or_app. left. exact Hsp. }
  destruct (Forall2_In_r _ _ _ _ Hall Hin) as (part & Hpart & phone_seqs & Hbest & _ & Ht).
  apply filter_In in Hpart as [Hpart Hcov].
  exists part, (Py.join "" (map fst phone_seqs)). repeat split; auto.
  unfold raw_spelling. now rewrite Hbest.
Qed.

(** X4.  Every spelling [generate_spelling] returns is the touched-up
    spelling of an accepted partition of the normalized phones: it is
    well ended, and with the silent-e flag set it ends in e. *)
Theorem generate_spelling_spellings_end_well :
  forall (m : p2g_model) (pron : list Phone) (final_e : bool) (out : list string),
    generate_spelling m pron final_e = Ok out ->
    forall spelling,
      In spelling out ->
      (exists part raw,
          In part (pron_breaker (normalize pron)) /\
          covered m part = true /\
          raw_spelling m part = Ok raw /\
          touch_up raw final_e = Ok spelling) /\
      well_ended spelling /\
      (final_e = true -> ends_in_e spelling).
Proof.
  intros m pron final_e out H s Hs.
  destruct (generate_spelling_In m pron final_e out s H Hs)
    as (part & raw & Hpart & Hcov & Hraw & Ht).
  split; [exists part, raw; auto|].
  exact (touch_up_ends raw final_e s Ht).
Qed.

Lemma generate_spelling_spellings_end_well_witness :
  (exists part raw,
      In part (pron_breaker (normalize ["f"; "e"; "T"])) /\
      covered model_feIT part = true /\
      raw_spelling model_feIT part = Ok raw /\
      touch_up raw true = Ok "fathe") /\
  well_ended "fathe" /\
  (true = true -> ends_in_e "fathe").
Proof.
  apply (generate_spelling_spellings_end_well model_feIT ["f"; "e"; "T"] true
           ["fathe"; "fathe"; "faythe"; "faythe"]).
  - vm_compute. reflexivity.
  - now left.
Defined.

(** X5.  The normalization of the phones before spelling changes nothing
    when it is applied a second time: no replacement of [sampa_map] is
    itself one of its keys. *)
Theorem normalize_idempotent :
  forall pron : list Phone, normalize (normalize pron) = normalize pron.
Proof.
  intros pron. unfold normalize. rewrite map_map. apply map_ext. intros p.
  destruct (Py.get sampa_map p) as [q|] eqn:E; [|now rewrite E].
  unfold sampa_map in E. cbn [Py.get] in E.
  repeat match type of E with
         | context [String.eqb ?a ?b] =>
             destruct (String.eqb a b); [injection E as <-; reflexivity|]
         end.
  discriminate.
Qed.




(* ===================================================================== *)
(** ** The engine: unconditioned rules, the shape of the output *)

Lemma map_combine_seq {A B : Type} (f : nat * A -> B) (g : A -> B) (l : list A) :
  forall a,
    (forall i x, nth_error l i = Some x -> f (a + i, x) = g x) ->
    map f (combine (seq a (length l)) l) = map g l.
Proof.
  induction l as [|x l IH]; intros a H; [reflexivity|].
  cbn [length seq combine map]. f_equal.
  - specialize (H 0 x eq_refl). now rewrite Nat.add_0_r in H.
  - apply IH. intros i y Hy. replace (S a + i) with (a + S i) by lia.
    apply H. exact Hy.
Qed.

Lemma map_enumerate {A B : Type} (f : nat * A -> B) (g : A -> B) (l : list A) :
  (forall i x, nth_error l i = Some x -> f (i, x) = g x) ->
  map f (Py.enumerate l) = map g l.
Proof. intros H. apply (map_combine_seq f g l 0). exact H. Qed.

Lemma sound_change_plain pron m :
  sound_change pron m ".*" ".*" = Ok (filter nonempty (map (apply_map m) pron)).
Proof.
  rewrite (sound_change_compiled pron m _ _ _ _ dot_star_compiled dot_star_compiled).
  f_equal. f_equal. apply map_enumerate. intros i x _.
  unfold emitted_at, apply_map. cbn [fst snd]. rewrite !dot_star_search.
  destruct (Py.get m x); reflexivity.
Qed.

Lemma filter_nonempty_id l :
  Forall (fun p => nonempty p = true) l -> filter nonempty l = l.
Proof.
  induction 1 as [|x l Hx _ IH]; [reflexivity|].
  cbn [filter]. now rewrite Hx, IH.
Qed.

Lemma get_In {V : Type} (m : Py.dict V) k v : Py.get m k = Some v -> In (k, v) m.
Proof.
  induction m as [|[k' v'] m IH]; simpl; [discriminate|].
  destruct (String.eqb_spec k k') as [->|_].
  - intros [= ->]. now left.
  - intros H. right. auto.
Qed.

Lemma apply_map_nonempty m l :
  Forall (fun kv => nonempty (snd kv) = true) m ->
  Forall (fun p => nonempty p = true) l ->
  Forall (fun p => nonempty p = true) (map (apply_map m) l).
Proof.
  intros Hm Hl. apply Forall_map. eapply Forall_impl; [|exact Hl].
  intros x Hx. unfold apply_map. destruct (Py.get m x) as [v|] eqn:Hg; [|assumption].
  apply get_In in Hg. rewrite Forall_forall in Hm. exact (Hm _ Hg).
Qed.

(** X7.  With the contexts [.*] and [.*] the engine is a plain
    substitution: every phone that is a key of the rule map is replaced
    by its value, and the empty phones are dropped. *)
Theorem sound_change_unconditioned :
  forall (pron : list Phone) (phone_maps : Py.dict Phone),
    sound_change pron phone_maps ".*" ".*" =
    Ok (filter (fun p => negb (String.eqb p ""))
               (map (fun p => match Py.get phone_maps p with
                              | Some mapped => mapped
                              | None => p
                              end) pron)).
Proof. intros pron m. apply sound_change_plain. Qed.

(** X8.  What the engine returns holds no empty phone and is not longer
    than the input; each phone of it is a phone of the input or the value
    the rule map gives for one; and when neither the input nor the values
    of the rule map hold an empty phone, the length is kept. *)
Theorem sound_change_output_shape :
  forall (pron : list Phone) (phone_maps : Py.dict Phone) (p q : string)
         (out : list Phone),
    sound_change pron phone_maps p q = Ok out ->
    Forall (fun x => x <> "") out /\
    length out <= length pron /\
    (forall x, In x out ->
               In x pron \/ exists k, In k pron /\ Py.get phone_maps k = Some x) /\
    (Forall (fun x => x <> "") pron ->
     Forall (fun kv => snd kv <> "") phone_maps ->
     length out = length pron).
Proof.
  intros pron m p q out H.
  assert (Hc : exists rp rq, Re.compile p = Ok rp /\ Re.compile q = Ok rq).
  { unfold sound_change in H. apply bind_Ok_inv in H as (rp & Hp & H).
    apply bind_Ok_inv in H as (rq & Hq & _). eauto. }
  destruct Hc as (rp & rq & Hp & Hq).
  rewrite (sound_change_compiled pron m p q rp rq Hp Hq) in H. injection H as <-.
  set (em := map (emitted_at pron m rp rq) (Py.enumerate pron)).
  assert (Hem : forall y, In y em ->
                          In y pron \/ exists k, In k pron /\ Py.get m k = Some y).
  { intros y Hy. apply in_map_iff in Hy as ([i x] & <- & Hin).
    apply In_enumerate in Hin. apply nth_error_In in Hin.
    unfold emitted_at. cbn [fst snd].
    destruct (Py.get m x) as [v|] eqn:Hg; [|now left].
    destruct (_ && _); [right; eauto | now left]. }
  assert (Hlen : length em = length pron)
    by (unfold em; now rewrite length_map, length_enumerate).
  assert (Hnz : forall x : string, nonempty x = true <-> x <> "").
  { intros x. unfold nonempty. destruct (String.eqb_spec x ""); cbn [negb];
      split; congruence. }
  split; [|split; [|split]].
  - apply Forall_forall. intros x Hx. apply filter_In in Hx as [_ Hx]. now apply Hnz.
  - rewrite <- Hlen. apply filter_length_le.
  - intros x Hx. apply filter_In in Hx as [Hx _]. auto.
  - intros Hne Hm. rewrite filter_nonempty_id; [assumption|].
    apply Forall_forall. intros y Hy. apply Hnz.
    rewrite Forall_forall in Hne, Hm.
    destruct (Hem y Hy) as [Hin|(k & _ & Hg)]; [auto|].
    apply get_In in Hg. exact (Hm _ Hg).
Qed.

Lemma sound_change_output_shape_witness :
  Forall (fun x => x <> "") ["f"; "e"; "T"] /\
  length ["f"; "e"; "T"] <= length ["p"; "e"; "t"] /\
  (forall x, In x ["f"; "e"; "T"] ->
             In x ["p"; "e"; "t"] \/
             exists k, In k ["p"; "e"; "t"] /\ Py.get dict_grimm1 k = Some x) /\
  (Forall (fun x => x <> "") ["p"; "e"; "t"] ->
   Forall (fun kv => snd kv <> "") dict_grimm1 ->
   length ["f"; "e"; "T"] = length ["p"; "e"; "t"]).
Proof.
  exact (sound_change_output_shape ["p"; "e"; "t"] dict_grimm1 "(.*[^s]|^$)" ".*"
           ["f"; "e"; "T"] eq_refl).
Defined.

(** X9.  A rule map that names no phone of the word leaves the word as
    it is, whatever the contexts are, up to the empty phones the engine
    always drops. *)
Theorem sound_change_without_keys :
  forall (pron : list Phone) (phone_maps : Py.dict Phone) (p q : string),
    (exists prior, Re.compile p = Ok prior) ->
    (exists posterior, Re.compile q = Ok posterior) ->
    (forall x, In x pron -> Py.get phone_maps x = None) ->
    sound_change pron phone_maps p q =
    Ok (filter (fun x => negb (String.eqb x "")) pron).
Proof.
  intros pron m p q (rp & Hp) (rq & Hq) Hkeys.
  rewrite (sound_change_compiled pron m p q rp rq Hp Hq). f_equal.
  change (fun x : string => negb (String.eqb x "")) with nonempty. f_equal.
  transitivity (map (fun x : Phone => x) pron); [|apply map_id].
  apply map_enumerate. intros i x Hx.
  unfold emitted_at. cbn [fst snd]. now rewrite (Hkeys x (nth_error_In _ _ Hx)).
Qed.

Lemma sound_change_without_keys_witness :
  sound_change ["s"; "e"; "d"] dict_grimm1 "(.*[^s]|^$)" ".*" =
  Ok (filter (fun x => negb (String.eqb x "")) ["s"; "e"; "d"]).
Proof.
  apply (sound_change_without_keys ["s"; "e"; "d"] dict_grimm1).
  - eexists. reflexivity.
  - eexists. reflexivity.
  - intros x Hx. simpl in Hx.
    repeat (destruct Hx as [<-|Hx]; [reflexivity|]). destruct Hx.
Defined.

(* ===================================================================== *)
(** ** Laryngeal deletion and Grimm's Law, phone by phone *)

Lemma has_laryngeal p :
  Py.has [("h1", ""); ("h2", ""); ("h3", ""); ("\H", "")] p = Py.mem p laryngeals.
Proof.
  unfold Py.has, Py.mem, laryngeals. cbn [Py.get existsb].
  repeat (destruct (String.eqb p _); [reflexivity|]). reflexivity.
Qed.

Lemma filter_idem {A : Type} (f : A -> bool) (l : list A) :
  filter f (filter f l) = filter f l.
Proof.
  induction l as [|x l IH]; [reflexivity|].
  cbn [filter]. destruct (f x) eqn:E; [|exact IH].
  cbn [filter]. now rewrite E, IH.
Qed.

(** X10.  Laryngeal deletion returns the phones other than [h1], [h2],
    [h3] and [\H] in their order; it changes nothing when applied again;
    and on a word with no empty phone it is the engine with the deletion
    map and no condition. *)
Theorem late_pie_changes_deletes_laryngeals :
  forall pron : list Phone,
    exists out,
      late_pie_changes pron = Ok out /\
      Subseq out pron /\
      (forall p, In p out <-> In p pron /\ ~ In p laryngeals) /\
      late_pie_changes out = Ok out /\
      (Forall (fun p => p <> "") pron ->
       sound_change pron [("h1", ""); ("h2", ""); ("h3", ""); ("\H", "")] ".*" ".*"
       = Ok out).
Proof.
  intros pron. unfold late_pie_changes. eexists. split; [reflexivity|].
  split; [apply Subseq_filter|]. split; [|split].
  - intros p. rewrite filter_In, has_laryngeal, negb_true_iff.
    rewrite <- (mem_In p laryngeals).
    destruct (Py.mem p laryngeals); intuition congruence.
  - now rewrite filter_idem.
  - intros Hne. rewrite sound_change_plain. f_equal.
    induction Hne as [|x l Hx _ IH]; [reflexivity|].
    cbn [map filter]. rewrite IH. unfold apply_map, Py.has.
    destruct (Py.get _ x) as [v|] eqn:Hg; cbn [negb].
    + apply get_In in Hg. simpl in Hg.
      repeat (destruct Hg as [[= <- <-]|Hg]; [reflexivity|]). destruct Hg.
    + unfold nonempty. destruct (String.eqb_spec x ""); [contradiction | reflexivity].
Qed.

Lemma late_pie_changes_deletes_laryngeals_witness :
  sound_change ["p"; "h2"; "t"; "e"; "r\"]
    [("h1", ""); ("h2", ""); ("h3", ""); ("\H", "")] ".*" ".*"
  = Ok ["p"; "t"; "e"; "r\"].
Proof.
  destruct (late_pie_changes_deletes_laryngeals ["p"; "h2"; "t"; "e"; "r\"])
    as (out & Hout & _ & _ & _ & Hengine).
  injection Hout as <-. apply Hengine.
  repeat constructor; discriminate.
Defined.

Lemma grimm_of_passes (blocked : bool) (x : Phone) :
  apply_map dict_grimm3
    (apply_map dict_grimm2
       (match Py.get dict_grimm1 x with
        | Some shifted => if blocked then x else shifted
        | None => x
        end)) = grimm_of blocked x.
Proof.
  unfold grimm_of.
  destruct (Py.get dict_grimm1 x) as [s|] eqn:H1.
  - apply get_In in H1. simpl in H1.
    repeat (destruct H1 as [[= <- <-]|H1]; [destruct blocked; reflexivity|]).
    destruct H1.
  - unfold apply_map at 2.
    destruct (Py.get dict_grimm2 x) as [s|] eqn:H2; [|reflexivity].
    apply get_In in H2. simpl in H2.
    repeat (destruct H2 as [[= <- <-]|H2]; [reflexivity|]).
    destruct H2.
Qed.

Lemma nonempty_ne (x : string) : nonempty x = true <-> x <> "".
Proof.
  unfold nonempty. destruct (String.eqb_spec x ""); cbn [negb]; split; congruence.
Qed.

Lemma Forall_nonempty_ne l :
  Forall (fun p : string => p <> "") l <-> Forall (fun p => nonempty p = true) l.
Proof. split; apply Forall_impl; intros x Hx; now apply nonempty_ne. Qed.

Lemma grimm_of_shifted (blocked : bool) (x : Phone) :
  Py.get dict_grimm2 (grimm_of blocked x) = None /\
  Py.get dict_grimm3 (grimm_of blocked x) = None.
Proof.
  unfold grimm_of.
  destruct (Py.get dict_grimm1 x) as [s|] eqn:H1.
  { apply get_In in H1. simpl in H1.
    repeat (destruct H1 as [[= <- <-]|H1]; [destruct blocked; split; reflexivity|]).
    destruct H1. }
  destruct (Py.get dict_grimm2 x) as [s|] eqn:H2.
  { apply get_In in H2. simpl in H2.
    repeat (destruct H2 as [[= <- <-]|H2]; [split; reflexivity|]).
    destruct H2. }
  unfold apply_map.
  destruct (Py.get dict_grimm3 x) as [s|] eqn:H3; [|split; assumption].
  apply get_In in H3. simpl in H3.
  repeat (destruct H3 as [[= <- <-]|H3]; [split; reflexivity|]).
  destruct H3.
Qed.

(** X11.  Grimm's Law on a word with no empty phone keeps the length and
    works phone by phone, each phone going through at most one of the
    three shifts: a voiceless stop becomes a fricative unless the first
    pass is blocked at its position, otherwise a voiced stop becomes
    voiceless, otherwise an aspirate becomes a voiced fricative.  No
    phone that one pass produced is shifted again by a later pass, and
    no voiced stop and no aspirate is left in the output. *)
Theorem grimm_changes_pointwise :
  forall pron : list Phone,
    Forall (fun p => p <> "") pron ->
    exists out,
      grimm_changes pron = Ok out /\
      length out = length pron /\
      (forall i x, nth_error pron i = Some x ->
                   nth_error out i = Some (grimm_of (only_s_before i pron) x)) /\
      Forall (fun p => Py.get dict_grimm2 p = None /\ Py.get dict_grimm3 p = None) out.
Proof.
  intros pron Hne. apply Forall_nonempty_ne in Hne.
  destruct (grimm1_blocks_only_after_initial_s pron) as (emitted & Hlen & Hnth & Hrun).
  assert (Hem : Forall (fun p => nonempty p = true) emitted).
  { apply Forall_forall. intros y Hy. apply In_nth_error in Hy as (i & Hi).
    destruct (nth_error pron i) as [x|] eqn:Hx.
    - assert (Hxne : nonempty x = true).
      { rewrite Forall_forall in Hne. apply Hne. eapply nth_error_In; eauto. }
      pose proof (Hnth i x Hx) as He. rewrite Hi in He.
      destruct (Py.get dict_grimm1 x) as [s|] eqn:Hg;
        [|injection He as ->; exact Hxne].
      destruct (only_s_before i pron); injection He as ->; [exact Hxne|].
      apply get_In in Hg. simpl in Hg.
      repeat (destruct Hg as [[= <- <-]|Hg]; [reflexivity|]). destruct Hg.
    - apply nth_error_None in Hx.
      assert (i < length emitted) by (apply nth_error_Some; congruence). lia. }
  assert (H2 : Forall (fun p => nonempty p = true) (map (apply_map dict_grimm2) emitted)).
  { apply apply_map_nonempty; [|assumption]. repeat constructor. }
  assert (H3 : Forall (fun p => nonempty p = true)
                 (map (apply_map dict_grimm3) (map (apply_map dict_grimm2) emitted))).
  { apply apply_map_nonempty; [|assumption]. repeat constructor. }
  assert (Hpoint : forall i x,
             nth_error pron i = Some x ->
             nth_error (map (apply_map dict_grimm3)
                            (map (apply_map dict_grimm2) emitted)) i
             = Some (grimm_of (only_s_before i pron) x)).
  { intros i x Hx. rewrite !nth_error_map, (Hnth i x Hx). cbn [option_map].
    f_equal. apply grimm_of_passes. }
  exists (map (apply_map dict_grimm3) (map (apply_map dict_grimm2) emitted)).
  split; [|split; [|split]].
  - unfold grimm_changes.
    rewrite Hrun, bind_Ok, (filter_nonempty_id _ Hem).
    rewrite sound_change_plain, bind_Ok, (filter_nonempty_id _ H2).
    rewrite sound_change_plain, bind_Ok, (filter_nonempty_id _ H3).
    reflexivity.
  - now rewrite !length_map.
  - exact Hpoint.
  - apply Forall_forall. intros y Hy. apply In_nth_error in Hy as (i & Hi).
    destruct (nth_error pron i) as [x|] eqn:Hx.
    + rewrite (Hpoint i x Hx) in Hi. apply (f_equal (fun o => match o with
                                                             | Some v => v
                                                             | None => y
                                                             end)) in Hi.
      cbv beta iota in Hi. subst y. apply grimm_of_shifted.
    + apply nth_error_None in Hx.
      assert (i < length (map (apply_map dict_grimm3)
                              (map (apply_map dict_grimm2) emitted)))
        by (apply nth_error_Some; congruence).
      rewrite !length_map in *. lia.
Qed.

Lemma grimm_changes_pointwise_witness :
  exists out,
    grimm_changes ["s"; "t"; "e"; "gh"] = Ok out /\
    length out = length ["s"; "t"; "e"; "gh"] /\
    (forall i x, nth_error ["s"; "t"; "e"; "gh"] i = Some x ->
                 nth_error out i =
                 Some (grimm_of (only_s_before i ["s"; "t"; "e"; "gh"]) x)) /\
    Forall (fun p => Py.get dict_grimm2 p = None /\ Py.get dict_grimm3 p = None) out.
Proof.
  apply (grimm_changes_pointwise ["s"; "t"; "e"; "gh"]).
  repeat constructor; discriminate.
Defined.

(* ===================================================================== *)
(** ** Middle English: lengthening and shortening before clusters *)

Lemma for_each_map {A B : Type} (body : list B -> A -> result (list B))
      (f : A -> B) (l : list A) :
  (forall acc x, In x l -> body acc x = Ok (acc ++ [f x])) ->
  forall acc, for_each body l acc = Ok (acc ++ map f l).
Proof.
  induction l as [|x l IH]; intros Hbody acc; cbn [for_each map].
  - now rewrite app_nil_r.
  - rewrite (Hbody acc x (or_introl eq_refl)), bind_Ok, IH.
    + now rewrite <- app_assoc.
    + intros acc' y Hy. apply Hbody. now right.
Qed.

Lemma ends_with_colon_final p :
  nonempty p = true -> ends_with_colon p = Ok (has_final_colon p).
Proof.
  intros Hne. destruct (ends_with_colon_nonempty p Hne) as (b & Hb).
  unfold ends_with_colon, has_final_colon in *.
  destruct (Py.last_char p); [reflexivity | discriminate].
Qed.

Lemma Z_lt_len_minus_2_iff count pron :
  Z_lt_len_minus_2 count pron = true <-> count + 2 < length pron.
Proof. unfold Z_lt_len_minus_2. rewrite Z.ltb_lt. lia. Qed.

Lemma nth_error_item {A : Type} (l : list A) i x :
  nth_error l i = Some x -> Py.item l i = Ok x.
Proof. unfold Py.item. now intros ->. Qed.

Lemma nth_error_map_enumerate {A B : Type} (f : nat * A -> B) (l : list A) i x :
  nth_error l i = Some x -> nth_error (map f (Py.enumerate l)) i = Some (f (i, x)).
Proof. intros H. now rewrite nth_error_map, nth_error_enumerate, H. Qed.

Lemma lengthened_vowel x :
  Py.mem x vowels = true -> has_final_colon x = false ->
  Py.mem (x +s ":") vowels = true.
Proof.
  intros Hv Hc. apply mem_In in Hv. unfold vowels in Hv. simpl in Hv.
  repeat (destruct Hv as [<-|Hv]; [first [reflexivity | discriminate Hc]|]).
  destruct Hv.
Qed.

Lemma shortened_vowel x :
  Py.mem x vowels = true -> has_final_colon x = true ->
  Py.mem (Py.drop_last_char x) vowels = true /\
  x = Py.drop_last_char x +s ":".
Proof.
  intros Hv Hc. apply mem_In in Hv. unfold vowels in Hv. simpl in Hv.
  repeat (destruct Hv as [<-|Hv];
          [first [split; reflexivity | discriminate Hc]|]).
  destruct Hv.
Qed.

(** X12.  Middle English vowel lengthening keeps the number of phones
    and works position by position: a colon is added to a phone exactly
    when it is a vowel of the list with no final colon, followed by one
    of r, l, m, n and then one of b, d, g; every other phone is kept.  A
    lengthened vowel is again a vowel of the list. *)
Theorem me_vowel_lengthening_pointwise :
  forall pron : list Phone,
    exists out,
      me_vowel_lengthening pron = Ok out /\
      length out = length pron /\
      forall i x,
        nth_error pron i = Some x ->
        nth_error out i =
        Some (if before_voiced_cluster pron i then x +s ":" else x) /\
        (before_voiced_cluster pron i = true -> Py.mem (x +s ":") vowels = true).
Proof.
  intros pron.
  set (f := fun it : nat * Phone =>
              if before_voiced_cluster pron (fst it) then snd it +s ":" else snd it).
  exists (map f (Py.enumerate pron)). split; [|split].
  - unfold me_vowel_lengthening. apply (for_each_map _ f).
    intros acc [count phone] Hin. apply In_enumerate in Hin.
    unfold f, before_voiced_cluster. cbn [fst snd]. rewrite Hin.
    destruct (Z_lt_len_minus_2 count pron) eqn:Hlt.
    + apply Z_lt_len_minus_2_iff in Hlt.
      destruct (nth_error pron (count + 1)) as [p1|] eqn:E1;
        [|apply nth_error_None in E1; lia].
      destruct (nth_error pron (count + 2)) as [p2|] eqn:E2;
        [|apply nth_error_None in E2; lia].
      rewrite (nth_error_item _ _ _ E1), (nth_error_item _ _ _ E2),
        (nth_error_item _ _ _ Hin).
      destruct (Py.mem phone vowels) eqn:Hv; cbn [and_then bind andb]; [|reflexivity].
      rewrite (ends_with_colon_final phone (vowels_nonempty _ Hv)).
      destruct (Py.mem p1 _); cbn [and_then bind andb]; [|reflexivity].
      destruct (Py.mem p2 _); cbn [and_then bind andb]; [|reflexivity].
      destruct (has_final_colon phone); reflexivity.
    + assert (Hge : ~ count + 2 < length pron)
        by (rewrite <- Z_lt_len_minus_2_iff; congruence).
      destruct (nth_error pron (count + 1)); [|reflexivity].
      destruct (nth_error pron (count + 2)) eqn:E2; [|reflexivity].
      exfalso. apply Hge, nth_error_Some. congruence.
  - now rewrite length_map, length_enumerate.
  - intros i x Hx. split; [now rewrite (nth_error_map_enumerate f pron i x Hx)|].
    unfold before_voiced_cluster. rewrite Hx.
    destruct (nth_error pron (i + 1)); [|discriminate].
    destruct (nth_error pron (i + 2)); [|discriminate].
    intros H. apply andb_true_iff in H as [H Hc].
    apply andb_true_iff in H as [H _]. apply andb_true_iff in H as [Hv _].
    apply lengthened_vowel; [assumption | now apply negb_true_iff].
Qed.

(** X13.  Middle English vowel shortening keeps the number of phones and
    works position by position: the final colon is taken from a phone
    exactly when it is a vowel of the list with a final colon, followed
    by s or f and then t; every other phone is kept.  A shortened vowel
    is again a vowel of the list, and lengthening it gives the phone
    back. *)
Theorem me_vowel_shortening_pointwise :
  forall pron : list Phone,
    exists out,
      me_vowel_shortening pron = Ok out /\
      length out = length pron /\
      forall i x,
        nth_error pron i = Some x ->
        nth_error out i =
        Some (if before_voiceless_cluster pron i then Py.drop_last_char x else x) /\
        (before_voiceless_cluster pron i = true ->
         Py.mem (Py.drop_last_char x) vowels = true /\
         x = Py.drop_last_char x +s ":").
Proof.
  intros pron.
  set (f := fun it : nat * Phone =>
              if before_voiceless_cluster pron (fst it)
              then Py.drop_last_char (snd it) else snd it).
  exists (map f (Py.enumerate pron)). split; [|split].
  - unfold me_vowel_shortening. apply (for_each_map _ f).
    intros acc [count phone] Hin. apply In_enumerate in Hin.
    unfold f, before_voiceless_cluster. cbn [fst snd]. rewrite Hin.
    destruct (Z_lt_len_minus_2 count pron) eqn:Hlt.
    + apply Z_lt_len_minus_2_iff in Hlt.
      destruct (nth_error pron (count + 1)) as [p1|] eqn:E1;
        [|apply nth_error_None in E1; lia].
      destruct (nth_error pron (count + 2)) as [p2|] eqn:E2;
        [|apply nth_error_None in E2; lia].
      rewrite (nth_error_item _ _ _ E1), (nth_error_item _ _ _ E2),
        !(nth_error_item _ _ _ Hin).
      destruct (Py.mem phone vowels) eqn:Hv; cbn [and_then bind andb]; [|reflexivity].
      rewrite (ends_with_colon_final phone (vowels_nonempty _ Hv)).
      destruct (Py.mem p1 _); cbn [and_then bind andb]; [|reflexivity].
      destruct (String.eqb p2 "t"); cbn [and_then bind andb]; [|reflexivity].
      destruct (has_final_colon phone); reflexivity.
    + assert (Hge : ~ count + 2 < length pron)
        by (rewrite <- Z_lt_len_minus_2_iff; congruence).
      destruct (nth_error pron (count + 1)); [|reflexivity].
      destruct (nth_error pron (count + 2)) eqn:E2; [|reflexivity].
      exfalso. apply Hge, nth_error_Some. congruence.
  - now rewrite length_map, length_enumerate.
  - intros i x Hx. split; [now rewrite (nth_error_map_enumerate f pron i x Hx)|].
    unfold before_voiceless_cluster. rewrite Hx.
    destruct (nth_error pron (i + 1)); [|discriminate].
    destruct (nth_error pron (i + 2)); [|discriminate].
    intros H. apply andb_true_iff in H as [H Hc].
    apply andb_true_iff in H as [H _]. apply andb_true_iff in H as [Hv _].
    now apply shortened_vowel.
Qed.

(* ===================================================================== *)
(** ** Middle English: open syllables and the new diphthongs *)

Lemma second_lengthening_loop pron : forall new_phone found_first_vowel,
  for_each
    (fun (st : list Phone * bool) phone =>
       let (new_phone, found_first_vowel) := st in
       if Py.mem phone vowels && negb found_first_vowel then
         colon <- ends_with_colon phone ;;
         if negb colon
         then Ok (new_phone ++ [phone +s ":"], true)
         else Ok (new_phone ++ [phone], true)
       else Ok (new_phone ++ [phone], found_first_vowel))
    pron (new_phone, found_first_vowel) =
  Ok (new_phone ++ (if found_first_vowel then pron else lengthen_first_vowel pron),
      found_first_vowel || existsb (fun p => Py.mem p vowels) pron).
Proof.
  induction pron as [|phone pron IH]; intros acc found; cbn [for_each existsb].
  - destruct found; now rewrite app_nil_r.
  - destruct found; cbn [negb andb orb].
    + rewrite andb_false_r, bind_Ok, IH, <- app_assoc. reflexivity.
    + rewrite andb_true_r. cbn [lengthen_first_vowel].
      destruct (Py.mem phone vowels) eqn:Hv; cbn [orb].
      * rewrite (ends_with_colon_final phone (vowels_nonempty _ Hv)), bind_Ok.
        destruct (has_final_colon phone); cbn [negb];
          rewrite bind_Ok, IH, <- app_assoc; reflexivity.
      * rewrite bind_Ok, IH, <- app_assoc. reflexivity.
Qed.

Lemma length_lengthen_first_vowel pron :
  length (lengthen_first_vowel pron) = length pron.
Proof.
  induction pron as [|p pron IH]; [reflexivity|].
  cbn [lengthen_first_vowel]. destruct (Py.mem p vowels); cbn [length]; congruence.
Qed.

Lemma length_removelast {A : Type} (l : list A) :
  length (removelast l) = length l - 1.
Proof.
  induction l as [|x [|y l] IH]; [reflexivity | reflexivity |].
  change (removelast (x :: y :: l)) with (x :: removelast (y :: l)).
  cbn [length] in *. lia.
Qed.

(** X14.  The second lengthening returns the word as it is, or, when the
    word ends in a vowel of the list, the word with its first vowel made
    long and its last phone dropped; nothing else is changed. *)
Theorem me_second_lengthening_shape :
  forall (pron out : list Phone),
    me_second_lengthening pron = Ok out ->
    out = pron \/
    (exists last,
        Py.last_item pron = Ok last /\ Py.mem last vowels = true /\
        out = removelast (lengthen_first_vowel pron) /\
        S (length out) = length pron).
Proof.
  intros pron out. unfold me_second_lengthening.
  destruct two_syll_compiled as (r & Hr). rewrite Hr, bind_Ok.
  destruct (Re.search r (Py.join " " pron)); [|intros [= <-]; now left].
  destruct (Py.last_item pron) as [last|e] eqn:Hlast; [|discriminate].
  rewrite bind_Ok. destruct (Py.mem last vowels) eqn:Hv; [|intros [= <-]; now left].
  rewrite second_lengthening_loop, bind_Ok. cbn [fst app]. intros [= <-].
  right. exists last. repeat split; try assumption.
  rewrite length_removelast, length_lengthen_first_vowel.
  unfold Py.last_item in Hlast. destruct pron; [discriminate|]. cbn [length]. lia.
Qed.

Lemma me_second_lengthening_shape_witness :
  ["n"; "a:"; "m"] = ["n"; "a"; "m"; "a"] \/
  (exists last,
      Py.last_item ["n"; "a"; "m"; "a"] = Ok last /\ Py.mem last vowels = true /\
      ["n"; "a:"; "m"] = removelast (lengthen_first_vowel ["n"; "a"; "m"; "a"]) /\
      S (length ["n"; "a:"; "m"]) = length ["n"; "a"; "m"; "a"]).
Proof.
  apply (me_second_lengthening_shape ["n"; "a"; "m"; "a"] ["n"; "a:"; "m"]).
  vm_compute. reflexivity.
Defined.

Lemma me_diphthongization_loop_shape pron :
  Forall (fun p => nonempty p = true) pron ->
  forall fuel phone new_phone,
    length pron - phone <= fuel ->
    exists rest,
      me_diphthongization_loop fuel pron phone new_phone = Ok (new_phone ++ rest) /\
      length rest <= length pron - phone /\
      length pron - phone <= 2 * length rest /\
      ((forall i y, 0 < i -> nth_error pron i = Some y -> Py.mem y glides = false) ->
       rest = skipn phone pron).
Proof.
  intros Hne. induction fuel as [|fuel IH]; intros phone acc Hfuel;
    cbn [me_diphthongization_loop].
  - destruct (Nat.ltb_spec phone (length pron)) as [Hlt|Hge]; cbn [negb]; [lia|].
    exists []. rewrite app_nil_r. repeat split; cbn [length]; try lia.
    intros _. symmetry. now apply skipn_all2.
  - destruct (Nat.ltb_spec phone (length pron)) as [Hlt|Hge]; cbn [negb].
    2:{ exists []. rewrite app_nil_r. repeat split; cbn [length]; try lia.
        intros _. symmetry. now apply skipn_all2. }
    destruct (nth_error pron phone) as [p|] eqn:Ep;
      [|apply nth_error_None in Ep; lia].
    rewrite (nth_error_item _ _ _ Ep).
    assert (Hpne : nonempty p = true).
    { rewrite Forall_forall in Hne. eapply Hne, nth_error_In; eauto. }
    assert (Hone : exists rest,
               me_diphthongization_loop fuel pron (phone + 1) (acc ++ [p])
               = Ok (acc ++ rest) /\
               length rest <= length pron - phone /\
               length pron - phone <= 2 * length rest /\
               ((forall i y, 0 < i -> nth_error pron i = Some y ->
                             Py.mem y glides = false) ->
                rest = skipn phone pron)).
    { destruct (IH (phone + 1) (acc ++ [p])) as (rest & Hrun & Hle & Hge & Hid); [lia|].
      exists (p :: rest). rewrite Hrun, <- app_assoc. cbn [app length].
      repeat split; try lia.
      intros Hng. rewrite (skipn_nth_error _ _ _ Ep), (Hid Hng).
      now rewrite Nat.add_1_r. }
    assert (Htwo : forall d,
               nth_error pron (phone + 1) <> None ->
               (exists next, nth_error pron (phone + 1) = Some next /\
                             Py.mem next glides = true) ->
               exists rest,
                 me_diphthongization_loop fuel pron (phone + 2) (acc ++ [d])
                 = Ok (acc ++ rest) /\
                 length rest <= length pron - phone /\
                 length pron - phone <= 2 * length rest /\
                 ((forall i y, 0 < i -> nth_error pron i = Some y ->
                               Py.mem y glides = false) ->
                  rest = skipn phone pron)).
    { intros d Hin (next & Enext & Hglide).
      apply nth_error_Some in Hin.
      destruct (IH (phone + 2) (acc ++ [d])) as (rest & Hrun & Hle & Hge & _); [lia|].
      exists (d :: rest). rewrite Hrun, <- app_assoc. cbn [app length].
      repeat split; try lia.
      intros Hng. rewrite (Hng (phone + 1) next) in Hglide; [discriminate|lia|assumption]. }
    destruct (Z.eqb_spec (Z.of_nat phone) (Z.of_nat (length pron) - 1)) as [Hl|Hl].
    + rewrite bind_Ok. exact Hone.
    + destruct (nth_error pron (phone + 1)) as [next|] eqn:En;
        [|apply nth_error_None in En; lia].
      rewrite (nth_error_item _ _ _ En).
      rewrite bind_Ok, (ends_with_colon_final p Hpne), bind_Ok.
      cbv zeta. generalize (if has_final_colon p then Py.drop_last_char p else p).
      intros p_lookup. unfold Py.has.
      destruct (Py.get dip_i p_lookup) as [d|];
        destruct (Py.get dip_u p_lookup) as [d'|];
        cbn [and_then bind];
        repeat (match goal with
                | |- context [Py.mem next ?l] => destruct (Py.mem next l) eqn:?
                end; cbn [and_then bind]);
        try exact Hone;
        apply Htwo; try discriminate; exists next; (split; [reflexivity|]);
        unfold glides, Py.mem in *; cbn [existsb] in *;
        repeat match goal with
               | H : _ || _ = true |- _ => apply orb_true_iff in H as [H|H]
               | H : ?b = true |- _ => rewrite H
               end;
        rewrite ?orb_true_r; reflexivity.
Qed.

(** X15.  On a word with no empty phone the diphthongization returns; it
    merges a phone with the next one or keeps it, so the output is not
    longer than the input and not shorter than half of it; and a word
    with none of j, h, G, w after its first phone is returned as it
    is. *)
Theorem me_diphthongization_shape :
  forall pron : list Phone,
    Forall (fun p => p <> "") pron ->
    exists out,
      me_diphthongization pron = Ok out /\
      length out <= length pron /\
      length pron <= 2 * length out /\
      ((forall i y, 0 < i -> nth_error pron i = Some y -> Py.mem y glides = false) ->
       out = pron).
Proof.
  intros pron Hne. apply Forall_nonempty_ne in Hne.
  destruct (me_diphthongization_loop_shape pron Hne (length pron) 0 [])
    as (rest & Hrun & Hle & Hge & Hid); [lia|].
  exists rest. unfold me_diphthongization. rewrite Hrun.
  repeat split; try lia. exact Hid.
Qed.

Lemma me_diphthongization_shape_witness :
  exists out,
    me_diphthongization ["d"; "ae"; "j"; "e"; "s"] = Ok out /\
    length out <= length ["d"; "ae"; "j"; "e"; "s"] /\
    length ["d"; "ae"; "j"; "e"; "s"] <= 2 * length out /\
    ((forall i y, 0 < i -> nth_error ["d"; "ae"; "j"; "e"; "s"] i = Some y ->
                  Py.mem y glides = false) ->
     out = ["d"; "ae"; "j"; "e"; "s"]).
Proof.
  apply (me_diphthongization_shape ["d"; "ae"; "j"; "e"; "s"]).
  repeat constructor; discriminate.
Defined.

(* ===================================================================== *)
(** ** How many spellings, and which exceptions *)

(** X16.  [generate_spelling] returns one spelling for each accepted
    partition, up to five. *)
Theorem generate_spelling_count :
  forall (m : p2g_model) (pron : list Phone) (final_e : bool) (out : list string),
    generate_spelling m pron final_e = Ok out ->
    length out =
    Nat.min 5 (length (filter (covered m) (pron_breaker (normalize pron)))).
Proof.
  intros m pron final_e out H. unfold generate_spelling in H.
  apply bind_Ok_inv in H as (spellings & Hloop & Hout).
  assert (E : out = map fst (firstn 5 (Py.sorted_desc snd Qltb spellings)))
    by (inversion Hout; reflexivity).
  clear Hout. subst out.
  apply score_loop_Ok in Hloop as (new & -> & Hall).
  apply Forall2_length in Hall. rewrite Hall.
  rewrite length_map, length_firstn. cbn [app].
  now rewrite (Permutation_length (sorted_desc_perm _ _ snd Qltb new)).
Qed.

Lemma generate_spelling_count_witness :
  length ["fathe"; "fathe"; "faythe"; "faythe"] =
  Nat.min 5 (length (filter (covered model_feIT)
                            (pron_breaker (normalize ["f"; "e"; "T"])))).
Proof.
  apply (generate_spelling_count model_feIT ["f"; "e"; "T"] true).
  vm_compute. reflexivity.
Defined.















(* ===================================================================== *)
(** ** [generate_entry]: naming the root, the suffix, the transcriptions *)

Lemma find_rev_last {A : Type} (f : A -> bool) (l : list A) x :
  find f (rev l) = Some x ->
  exists pre post,
    l = pre ++ x :: post /\ f x = true /\ forall y, In y post -> f y = false.
Proof.
  induction l as [|a l IH] using rev_ind; [discriminate|].
  rewrite rev_app_distr. cbn [rev app find]. destruct (f a) eqn:Ea.
  - intros [= <-]. exists l, []. repeat split; auto. intros ? [].
  - intros H. destruct (IH H) as (pre & post & -> & Hx & Hpost).
    exists pre, (post ++ [a]). rewrite <- app_assoc. repeat split; auto.
    intros y Hy. apply in_app_or in Hy as [Hy|[<-|[]]]; auto.
Qed.

Lemma find_rev_none {A : Type} (f : A -> bool) (l : list A) :
  find f (rev l) = None <-> forall y, In y l -> f y = false.
Proof.
  split.
  - intros H y Hy. apply (find_none f (rev l) H). now apply in_rev in Hy.
  - intros H. destruct (find f (rev l)) as [x|] eqn:E; [|reflexivity].
    apply find_some in E as [Hin Hx]. apply in_rev in Hin.
    rewrite (H x Hin) in Hx. discriminate.
Qed.

Lemma In_get {V : Type} (d : Py.dict V) k v :
  In (k, v) d -> exists v', Py.get d k = Some v'.
Proof.
  induction d as [|[k' v'] d IH]; intros Hin; [destruct Hin|].
  cbn [Py.get]. destruct (String.eqb_spec k k') as [->|Hne]; [eauto|].
  destruct Hin as [[= -> ->]|Hin]; [contradiction | auto].
Qed.

Lemma index_lookup_last (key : root_entry -> string) (roots : Py.dict root_entry) k t :
  option_map fst (find (fun kv => String.eqb (key (snd kv)) k) (rev roots)) = Some t ->
  exists pre e post,
    roots = pre ++ (t, e) :: post /\ key e = k /\
    forall kv, In kv post -> key (snd kv) <> k.
Proof.
  destruct (find _ (rev roots)) as [[t' e]|] eqn:E; [|discriminate].
  intros [= <-]. apply find_rev_last in E as (pre & post & -> & He & Hpost).
  exists pre, e, post. split; [reflexivity|]. split.
  - now apply String.eqb_eq in He.
  - intros kv Hkv. apply String.eqb_neq. exact (Hpost kv Hkv).
Qed.

Lemma index_lookup_none (key : root_entry -> string) (roots : Py.dict root_entry) k :
  option_map fst (find (fun kv => String.eqb (key (snd kv)) k) (rev roots)) = None <->
  forall kv, In kv roots -> key (snd kv) <> k.
Proof.
  destruct (find _ (rev roots)) as [x|] eqn:E; cbn [option_map].
  - split; [discriminate|]. intros H. apply find_some in E as [Hin Hx].
    apply in_rev in Hin. apply String.eqb_eq in Hx. now destruct (H x Hin).
  - split; [|reflexivity]. intros _ kv Hkv. apply String.eqb_neq.
    exact (proj1 (find_rev_none _ roots) E kv Hkv).
Qed.

Lemma resolve_root_key roots draw tok t :
  resolve_root roots draw tok = Ok (Some t) -> exists e, Py.get roots t = Some e.
Proof.
  unfold resolve_root. destruct (String.eqb tok "").
  - intros H. apply bind_Ok_inv in H as (t' & Hitem & [= ->]).
    unfold random_choice, Py.item in Hitem.
    destruct (nth_error (map fst roots) _) eqn:E; [|discriminate].
    injection Hitem as ->. apply nth_error_In, in_map_iff in E as ([t' e] & <- & Hin).
    exact (In_get roots t' e Hin).
  - destruct (Py.has roots tok) eqn:Hhas; cbn [negb].
    + intros [= <-]. now apply has_get.
    + destruct (xsampa_pie_roots roots tok) as [t'|] eqn:Ex.
      * intros [= ->]. apply index_lookup_last in Ex as (pre & e & post & -> & _).
        apply (In_get _ t e). apply in_or_app. right. now left.
      * intros [= Hen]. apply index_lookup_last in Hen as (pre & e & post & -> & _).
        apply (In_get _ t e). apply in_or_app. right. now left.
Qed.

(** X19.  The root a request names is looked up by its key first, then
    by its transcription, then by its meaning; among several roots with
    the transcription or the meaning asked for, the last of the table is
    taken.  Whatever [generate_entry] resolves the request to is a key
    of the table of roots, so reading its record does not raise. *)
Theorem resolve_root_names_a_root :
  forall (pie_roots : Py.dict root_entry) (root_draw : nat) (pie_token t : string),
    resolve_root pie_roots root_draw pie_token = Ok (Some t) ->
    (exists e, lookup pie_roots t = Ok e) /\
    (pie_token <> "" -> Py.has pie_roots pie_token = true -> t = pie_token) /\
    (pie_token <> "" -> Py.has pie_roots pie_token = false ->
     exists earlier e later,
       pie_roots = earlier ++ (t, e) :: later /\
       ((root_pron e = pie_token /\
         forall kv, In kv later -> root_pron (snd kv) <> pie_token) \/
        ((forall kv, In kv pie_roots -> root_pron (snd kv) <> pie_token) /\
         root_meaning e = pie_token /\
         forall kv, In kv later -> root_meaning (snd kv) <> pie_token))).
Proof.
  intros roots draw tok t H. split; [|split].
  - destruct (resolve_root_key roots draw tok t H) as (e & He).
    exists e. unfold lookup. now rewrite He.
  - intros Hne Hhas. unfold resolve_root in H.
    apply String.eqb_neq in Hne. rewrite Hne, Hhas in H. now injection H as <-.
  - intros Hne Hhas. unfold resolve_root in H.
    apply String.eqb_neq in Hne. rewrite Hne, Hhas in H. cbn [negb] in H.
    destruct (xsampa_pie_roots roots tok) as [t'|] eqn:Ex.
    + injection H as ->.
      apply index_lookup_last in Ex as (pre & e & post & E & Hk & Hpost).
      exists pre, e, post. split; [assumption|]. left. auto.
    + injection H as Hen.
      pose proof (proj1 (index_lookup_none root_pron roots tok) Ex) as Hnone.
      apply index_lookup_last in Hen as (pre & e & post & E & Hk & Hpost).
      exists pre, e, post. split; [assumption|]. right. auto.
Qed.

Lemma resolve_root_names_a_root_witness :
  exists e,
    lookup [("pet", {| root_pron := "p e t"; root_meaning := "to fly" |});
            ("pleu", {| root_pron := "p l e u"; root_meaning := "to fly" |})]
           "pleu" = Ok e.
Proof.
  apply (resolve_root_names_a_root
           [("pet", {| root_pron := "p e t"; root_meaning := "to fly" |});
            ("pleu", {| root_pron := "p l e u"; root_meaning := "to fly" |})]
           0 "to fly" "pleu").
  reflexivity.
Defined.

(** X20.  [generate_entry] gives up without an entry and without an
    exception exactly when the root asked for is not empty and is
    neither a key of the table of roots nor the transcription or the
    meaning of one of its roots. *)
Theorem generate_entry_no_entry_iff :
  forall (pie_roots : Py.dict root_entry) (pie_suffixes : Py.dict suffix_entry)
         (spelling_model : p2g_model) (xsampa2ipa : Py.dict string)
         (root_draw suffix_draw : nat) (pie_token pie_suffix : string),
    generate_entry pie_roots pie_suffixes spelling_model xsampa2ipa
                   root_draw suffix_draw pie_token pie_suffix = Ok None
    <->
    (pie_token <> "" /\ Py.has pie_roots pie_token = false /\
     forall kv, In kv pie_roots ->
                root_pron (snd kv) <> pie_token /\ root_meaning (snd kv) <> pie_token).
Proof.
  intros roots suffixes model table d1 d2 tok suf. split.
  - intros H. unfold generate_entry in H.
    apply bind_Ok_inv in H as ([t|] & Hres & H).
    + exfalso. apply bind_Ok_inv in H as (suf' & _ & H).
      apply bind_Ok_inv in H as (root & _ & H).
      destruct (String.eqb suf' "").
      * apply bind_Ok_inv in H as (w & _ & H). discriminate.
      * apply bind_Ok_inv in H as (suff & _ & H).
        apply bind_Ok_inv in H as (w & _ & H). discriminate.
    + clear H. unfold resolve_root in Hres.
      destruct (String.eqb_spec tok "") as [->|Hne].
      * apply bind_Ok_inv in Hres as (t & _ & Hres). discriminate.
      * split; [assumption|].
        destruct (Py.has roots tok); cbn [negb] in Hres; [discriminate|].
        split; [reflexivity|].
        destruct (xsampa_pie_roots roots tok) eqn:Ex; [discriminate|].
        injection Hres as Hen.
        pose proof (proj1 (index_lookup_none root_pron roots tok) Ex).
        pose proof (proj1 (index_lookup_none root_meaning roots tok) Hen). auto.
  - intros (Hne & Hhas & Hall). unfold generate_entry, resolve_root.
    apply String.eqb_neq in Hne. rewrite Hne, Hhas. cbn [negb].
    assert (Ex : xsampa_pie_roots roots tok = None)
      by (apply (proj2 (index_lookup_none root_pron roots tok));
          intros kv Hkv; apply (Hall kv Hkv)).
    assert (Hen : english_roots roots tok = None)
      by (apply (proj2 (index_lookup_none root_meaning roots tok));
          intros kv Hkv; apply (Hall kv Hkv)).
    now rewrite Ex, Hen.
Qed.

(** X21.  With a root that resolves, a suffix that is not empty, not the
    word [random] and not in the table of suffixes makes [generate_entry]
    raise KeyError. *)
Theorem generate_entry_unknown_suffix :
  forall (pie_roots : Py.dict root_entry) (pie_suffixes : Py.dict suffix_entry)
         (spelling_model : p2g_model) (xsampa2ipa : Py.dict string)
         (root_draw suffix_draw : nat) (pie_token pie_suffix t : string),
    resolve_root pie_roots root_draw pie_token = Ok (Some t) ->
    pie_suffix <> "" -> pie_suffix <> "random" ->
    Py.get pie_suffixes pie_suffix = None ->
    generate_entry pie_roots pie_suffixes spelling_model xsampa2ipa
                   root_draw suffix_draw pie_token pie_suffix = Raise KeyError.
Proof.
  intros roots suffixes model table d1 d2 tok suf t Hres Hne Hnr Hget.
  unfold generate_entry. rewrite Hres, bind_Ok.
  apply String.eqb_neq in Hne, Hnr. rewrite Hnr, bind_Ok.
  destruct (resolve_root_key roots d1 tok t Hres) as (e & He).
  unfold lookup. rewrite He, bind_Ok, Hne, Hget. reflexivity.
Qed.

Lemma generate_entry_unknown_suffix_witness :
  generate_entry roots_pet [] model_f ipa_pet 0 0 "p e t" "os" = Raise KeyError.
Proof.
  apply (generate_entry_unknown_suffix roots_pet [] model_f ipa_pet 0 0
           "p e t" "os" "pet").
  - reflexivity.
  - discriminate.
  - discriminate.
  - reflexivity.
Defined.

Lemma to_ipa_loop (table : Py.dict string) (l : list Phone) : forall acc out,
  for_each (fun acc p => x <- lookup table p ;; Ok (acc ++ [x])) l acc = Ok out <->
  exists xs, out = acc ++ xs /\ Forall2 (fun p x => Py.get table p = Some x) l xs.
Proof.
  induction l as [|p l IH]; intros acc out; cbn [for_each].
  - split.
    + intros [= <-]. exists []. split; [now rewrite app_nil_r | constructor].
    + intros (xs & -> & H). inversion H. now rewrite app_nil_r.
  - unfold lookup at 1. destruct (Py.get table p) as [x|] eqn:Hg; cbn [bind].
    + rewrite IH. split.
      * intros (xs & -> & H). exists (x :: xs). rewrite <- app_assoc.
        split; [reflexivity | now constructor].
      * intros (xs & -> & H). inversion H as [|? y ? ys Hy Hrest]; subst.
        exists ys. rewrite <- app_assoc. split; [|assumption].
        cbn [app]. congruence.
    + split; [discriminate|]. intros (xs & _ & H). inversion H; congruence.
Qed.

(** X22.  The transcription of a list of phones returns exactly when
    every phone is in the table, with their entries in the order of the
    phones; a phone that is not in the table raises KeyError. *)
Theorem to_ipa_returns_iff :
  forall (xsampa2ipa : Py.dict string) (l : list Phone),
    (forall out,
        to_ipa xsampa2ipa l = Ok out <->
        Forall2 (fun p x => Py.get xsampa2ipa p = Some x) l out) /\
    ((exists p, In p l /\ Py.get xsampa2ipa p = None) ->
     to_ipa xsampa2ipa l = Raise KeyError).
Proof.
  intros table l. split.
  - intros out. unfold to_ipa. rewrite to_ipa_loop. split.
    + intros (xs & -> & H). exact H.
    + intros H. exists out. auto.
  - intros (p & Hin & Hg). unfold to_ipa. apply for_each_raises.
    + intros acc x _. unfold lookup. destruct (Py.get table x); cbn [bind]; eauto.
    + exists p. split; [assumption|]. intros acc. unfold lookup. now rewrite Hg.
Qed.

(* ===================================================================== *)
(** ** [generate_entry]: what a returned entry holds *)

Lemma sound_change_Ok_nonempty pron m p q out :
  sound_change pron m p q = Ok out -> Forall (fun x => nonempty x = true) out.
Proof.
  intros H. unfold sound_change in H.
  apply bind_Ok_inv in H as (rp & _ & H). apply bind_Ok_inv in H as (rq & _ & H).
  assert (E : exists l, out = filter nonempty l) by (inversion H; eauto).
  destruct E as (l & ->). apply filter_nonempty_Forall.
Qed.

Lemma Ok_inj {A : Type} (a b : A) : Ok a = Ok b -> a = b.
Proof. intros H. now inversion H. Qed.

(** The last engine call of a stage gives the stage its output. *)
Ltac last_engine_call H :=
  let E := fresh "E" in
  apply bind_Ok_inv in H as (? & E & H); cbv beta zeta in H;
  lazymatch type of H with
  | Ok _ = Ok _ =>
      apply Ok_inj in H; subst; exact (sound_change_Ok_nonempty _ _ _ _ _ E)
  | _ => clear E; last_engine_call H
  end.

Lemma proto_germanic_nonempty pron out :
  proto_germanic_changes pron = Ok out -> Forall (fun x => nonempty x = true) out.
Proof. intros H. unfold proto_germanic_changes in H. last_engine_call H. Qed.

Lemma old_english_nonempty pron out :
  old_english_changes pron = Ok out -> Forall (fun x => nonempty x = true) out.
Proof. intros H. unfold old_english_changes in H. last_engine_call H. Qed.

Lemma middle_english_nonempty pron out :
  middle_english_changes pron = Ok out -> Forall (fun x => nonempty x = true) out.
Proof. intros H. unfold middle_english_changes in H. last_engine_call H. Qed.

Lemma early_modern_english_nonempty pron out :
  early_modern_english_changes pron = Ok out ->
  Forall (fun x => nonempty x = true) out.
Proof.
  intros H. unfold early_modern_english_changes in H.
  do 10 (apply bind_Ok_inv in H as (? & _ & H); cbv beta zeta in H).
  apply Ok_inj in H. subst out. apply Forall_map.
  eapply Forall_impl; [|apply split_nonempty].
  intros p Hp. destruct (String.eqb p "io"); [reflexivity | exact Hp].
Qed.

Lemma derive_Ok model table tok pron_text meaning_text w :
  derive model table tok pron_text meaning_text = Ok w ->
  exists verner_pron loe_pron last top_five,
    proto_germanic_changes verner_pron = Ok (pgmc w) /\
    old_english_changes (pgmc w) = Ok (olde w) /\
    late_old_english_changes (olde w) = Ok loe_pron /\
    middle_english_changes loe_pron = Ok (mide w) /\
    Py.last_item (mide w) = Ok last /\
    early_modern_english_changes (mide w) = Ok (mode w) /\
    generate_spelling model (mode w) (Py.mem last vowels) = Ok top_five /\
    Py.item top_five 0 = Ok (spelling w) /\
    to_ipa table (mode w) = Ok (modex w) /\
    to_ipa table (pgmc w) = Ok (pgmcx w) /\
    to_ipa table (olde w) = Ok (oldex w) /\
    to_ipa table (mide w) = Ok (midex w).
Proof.
  unfold derive. cbv zeta. intros H.
  apply bind_Ok_inv in H as (lpp & _ & H).
  apply bind_Ok_inv in H as (grimm_pron & _ & H).
  apply bind_Ok_inv in H as (verner_pron & _ & H).
  apply bind_Ok_inv in H as (pg_pron & Hpg & H).
  apply bind_Ok_inv in H as (oe_pron & Hoe & H).
  apply bind_Ok_inv in H as (loe_pron & Hloe & H).
  apply bind_Ok_inv in H as (me_pron & Hme & H).
  apply bind_Ok_inv in H as (last & Hlast & H).
  apply bind_Ok_inv in H as (emod_pron & Hemod & H).
  apply bind_Ok_inv in H as (top_five & Htop & H).
  apply bind_Ok_inv in H as (first & Hfirst & H).
  apply bind_Ok_inv in H as (x_mode & Hx1 & H).
  apply bind_Ok_inv in H as (x_pgmc & Hx2 & H).
  apply bind_Ok_inv in H as (x_olde & Hx3 & H).
  apply bind_Ok_inv in H as (x_mide & Hx4 & H).
  apply Ok_inj in H. subst w.
  cbn [pgmc olde mide mode spelling modex pgmcx oldex midex].
  exists verner_pron, loe_pron, last, top_five.
  replace (Py.mem last vowels) with (if Py.mem last vowels then true else false)
    by (destruct (Py.mem last vowels); reflexivity).
  repeat match goal with |- _ /\ _ => split end; assumption.
Qed.

Lemma generate_entry_derive roots suffixes model table d1 d2 tok suf w :
  generate_entry roots suffixes model table d1 d2 tok suf = Ok (Some w) ->
  exists tok' pron_text meaning_text,
    derive model table tok' pron_text meaning_text = Ok w.
Proof.
  unfold generate_entry. intros H.
  apply bind_Ok_inv in H as ([t|] & _ & H); [|discriminate].
  apply bind_Ok_inv in H as (suf' & _ & H).
  apply bind_Ok_inv in H as (root & _ & H).
  destruct (String.eqb suf' "").
  - apply bind_Ok_inv in H as (w' & Hd & [= ->]). do 3 eexists. exact Hd.
  - apply bind_Ok_inv in H as (suff & _ & H).
    apply bind_Ok_inv in H as (w' & Hd & [= ->]). do 3 eexists. exact Hd.
Qed.

(** X23.  An entry that [generate_entry] returns is consistent: its Old
    English phones are the Old English stage of its Proto-Germanic
    phones, its modern phones the Early Modern English stage of its
    Middle English phones; the Middle English and the modern phones are
    not empty; none of the four stored sequences holds an empty phone;
    each transcription lists the table's entries of the phones, one for
    one; and the spelling is well ended and ends in e when the Middle
    English form ends in a vowel of the list. *)
Theorem generate_entry_entry_consistent :
  forall (pie_roots : Py.dict root_entry) (pie_suffixes : Py.dict suffix_entry)
         (spelling_model : p2g_model) (xsampa2ipa : Py.dict string)
         (root_draw suffix_draw : nat) (pie_token pie_suffix : string) (w : pie_word),
    generate_entry pie_roots pie_suffixes spelling_model xsampa2ipa
                   root_draw suffix_draw pie_token pie_suffix = Ok (Some w) ->
    old_english_changes (pgmc w) = Ok (olde w)
    /\ (exists loe_pron, late_old_english_changes (olde w) = Ok loe_pron /\
                         middle_english_changes loe_pron = Ok (mide w))
    /\ early_modern_english_changes (mide w) = Ok (mode w)
    /\ mide w <> [] /\ mode w <> []
    /\ Forall (fun p => p <> "") (pgmc w ++ olde w ++ mide w ++ mode w)
    /\ Forall2 (fun p x => Py.get xsampa2ipa p = Some x) (pgmc w) (pgmcx w)
    /\ Forall2 (fun p x => Py.get xsampa2ipa p = Some x) (olde w) (oldex w)
    /\ Forall2 (fun p x => Py.get xsampa2ipa p = Some x) (mide w) (midex w)
    /\ Forall2 (fun p x => Py.get xsampa2ipa p = Some x) (mode w) (modex w)
    /\ well_ended (spelling w)
    /\ (forall last, Py.last_item (mide w) = Ok last -> Py.mem last vowels = true ->
                     ends_in_e (spelling w)).
Proof.
  intros roots suffixes model table d1 d2 tok suf w H.
  apply generate_entry_derive in H as (tok' & pron_text & meaning_text & H).
  apply derive_Ok in H
      as (verner_pron & loe_pron & last & top_five & Hpg & Hoe & Hloe & Hme & Hlast
          & Hemod & Htop & Hfirst & Hx1 & Hx2 & Hx3 & Hx4).
  assert (Hin : In (spelling w) top_five).
  { unfold Py.item in Hfirst. destruct (nth_error top_five 0) eqn:E; [|discriminate].
    injection Hfirst as ->. eapply nth_error_In; eauto. }
  destruct (generate_spelling_In _ _ _ _ _ Htop Hin)
    as (part & raw & Hpart & _ & _ & Ht).
  destruct (touch_up_ends raw _ _ Ht) as [Hwell He].
  assert (Hipa : forall l out, to_ipa table l = Ok out ->
                               Forall2 (fun p x => Py.get table p = Some x) l out).
  { intros l out Hl. unfold to_ipa in Hl. apply to_ipa_loop in Hl as (xs & -> & Hxs).
    exact Hxs. }
  split; [assumption|]. split; [eauto|]. split; [assumption|].
  split; [intros E; rewrite E in Hlast; discriminate|].
  split; [intros E; rewrite E in Hpart; destruct Hpart|].
  split.
  { apply Forall_nonempty_ne. repeat (apply Forall_app; split).
    - exact (proto_germanic_nonempty _ _ Hpg).
    - exact (old_english_nonempty _ _ Hoe).
    - exact (middle_english_nonempty _ _ Hme).
    - exact (early_modern_english_nonempty _ _ Hemod). }
  repeat match goal with |- _ /\ _ => split; [solve [auto]|] end.
  intros last' Hlast' Hv. rewrite Hlast in Hlast'. injection Hlast' as <-.
  apply He. exact Hv.
Qed.

Lemma generate_entry_entry_consistent_witness :
  exists w,
    generate_entry roots_pet [] model_feIT ipa_pet 0 0 "pet" "" = Ok (Some w) /\
    early_modern_english_changes (mide w) = Ok (mode w) /\
    well_ended (spelling w).
Proof.
  eexists. split; [vm_compute; reflexivity|].
  split;
    eapply (generate_entry_entry_consistent roots_pet [] model_feIT ipa_pet 0 0 "pet" "");
    vm_compute; reflexivity.
Defined.

(* ===================================================================== *)
(** ** [read_in_pie_suffixes] *)

Lemma split_go_word w : forall cur rest,
  forallb not_space w = true ->
  Py.split_go cur (w ++ rest) = Py.split_go (rev w ++ cur) rest.
Proof.
  induction w as [|c w IH]; intros cur rest Hw; [reflexivity|].
  cbn [forallb] in Hw. apply andb_true_iff in Hw as [Hc Hw].
  cbn [app Py.split_go rev]. unfold not_space in Hc. apply negb_true_iff in Hc.
  rewrite Hc, (IH _ _ Hw), <- app_assoc. reflexivity.
Qed.

Lemma split_spaced (f : ascii -> list ascii) (cs : list ascii) :
  (forall c, In c cs -> f c <> [] /\ forallb not_space (f c) = true) ->
  Py.split_go [] (spaced f cs) = map (fun c => Py.str (f c)) cs.
Proof.
  induction cs as [|c cs IH]; intros Hf; [reflexivity|].
  destruct (Hf c (or_introl eq_refl)) as [Hne Hns].
  assert (Hrev : rev (f c) <> []).
  { intros E. apply (f_equal (@rev ascii)) in E. rewrite rev_involutive in E.
    contradiction. }
  destruct cs as [|c2 cs].
  - cbn [spaced map]. rewrite <- (app_nil_r (f c)) at 1.
    rewrite (split_go_word _ _ _ Hns), app_nil_r. cbn [Py.split_go].
    destruct (rev (f c)) eqn:E; [contradiction|]. now rewrite <- E, rev_involutive.
  - change (spaced f (c :: c2 :: cs)) with (f c ++ " "%char :: spaced f (c2 :: cs)).
    rewrite (split_go_word _ _ _ Hns), app_nil_r. cbn [Py.split_go].
    change (Py.isspace " ") with true. cbv iota.
    destruct (rev (f c)) eqn:E; [contradiction|]. rewrite <- E, rev_involutive.
    cbn [map]. f_equal. apply IH. intros; apply Hf; now right.
Qed.

Lemma chars_join_letters cs :
  Py.chars (Py.join " " (map (fun c => String c "") cs)) = spaced (fun c => [c]) cs.
Proof.
  induction cs as [|c cs IH]; [reflexivity|].
  destruct cs as [|c2 cs]; [reflexivity|].
  cbn [map]. rewrite join_cons, !chars_append. cbn [map] in IH. rewrite IH.
  reflexivity.
Qed.

Lemma replace_r_spaced cs :
  Py.replace_go ["r"%char] ["r"%char; "\"%char] 0 (spaced (fun c => [c]) cs) =
  spaced (fun c => Py.chars (phone_of_letter c)) cs.
Proof.
  assert (Hone : forall c rest,
             Py.replace_go ["r"%char] ["r"%char; "\"%char] 0 (c :: rest) =
             Py.chars (phone_of_letter c) ++
             Py.replace_go ["r"%char] ["r"%char; "\"%char] 0 rest).
  { intros c rest. cbn [Py.replace_go Py.starts_with length Nat.sub].
    unfold phone_of_letter. rewrite andb_true_r.
    destruct (Ascii.eqb "r" c); reflexivity. }
  induction cs as [|c cs IH]; [reflexivity|].
  destruct cs as [|c2 cs].
  - cbn [spaced]. rewrite Hone. cbn [Py.replace_go]. now rewrite app_nil_r.
  - change (spaced (fun c => [c]) (c :: c2 :: cs))
      with (c :: " "%char :: spaced (fun c => [c]) (c2 :: cs)).
    rewrite Hone, Hone, IH. reflexivity.
Qed.

Lemma split_suffix_pron suff :
  forallb not_space (Py.chars suff) = true ->
  Py.split (Py.replace "r" "r\"
              (Py.join " " (map (fun c => String c "") (Py.chars suff)))) =
  map phone_of_letter (Py.chars suff).
Proof.
  intros Hns. unfold Py.split, Py.replace. rewrite chars_str, chars_join_letters.
  change (Py.chars "r") with ["r"%char].
  change (Py.chars "r\") with ["r"%char; "\"%char].
  rewrite replace_r_spaced, split_spaced.
  - apply map_ext. intros c. apply str_chars.
  - intros c Hc. rewrite forallb_forall in Hns. specialize (Hns c Hc).
    unfold phone_of_letter. destruct (Ascii.eqb "r" c).
    + split; [discriminate | reflexivity].
    + split; [discriminate|]. cbn. now rewrite Hns.
Qed.

Lemma forallb_rev {A : Type} (f : A -> bool) (l : list A) :
  forallb f l = true -> forallb f (rev l) = true.
Proof.
  rewrite !forallb_forall. intros H x Hx. apply H. now apply in_rev.
Qed.

Lemma split_once_go_suffix cs : forall cur suff meaning,
  Py.split_once_go cur cs = [suff; meaning] ->
  forallb not_space cur = true ->
  forallb not_space (Py.chars suff) = true /\ suff <> "".
Proof.
  induction cs as [|c cs IH]; intros cur suff meaning H Hcur; cbn [Py.split_once_go] in H.
  - destruct cur; discriminate.
  - destruct (Py.isspace c) eqn:Hc.
    + destruct cur as [|d cur]; [eapply IH; eauto|].
      destruct (Py.lstrip_space cs); [discriminate|].
      injection H as <- _. rewrite chars_str. cbn [rev]. split.
      * change (rev cur ++ [d]) with (rev (d :: cur)). now apply forallb_rev.
      * destruct (rev cur); discriminate.
    + apply (IH (c :: cur) suff meaning H). cbn [forallb].
      unfold not_space at 1. now rewrite Hc, Hcur.
Qed.

Lemma line_entry_suffix line suff e :
  line_entry line = Some (suff, e) ->
  Py.split (suffix_pron e) = map phone_of_letter (Py.chars suff) /\ suff <> "".
Proof.
  unfold line_entry.
  destruct (Py.split_once (Py.strip_space line)) as [|s [|m [|x l]]] eqn:E;
    try discriminate.
  intros [= <- <-]. cbn [suffix_pron].
  destruct (split_once_go_suffix _ _ _ _ E eq_refl) as [Hns Hne].
  split; [now apply split_suffix_pron | assumption].
Qed.

Lemma read_suffix_line_entry d line :
  read_suffix_line d line =
  match line_entry line with
  | Some (suff, e) => Loaded (Py.set_item d suff e)
  | None => ValueError
  end.
Proof.
  unfold read_suffix_line, line_entry.
  destruct (Py.split_once (Py.strip_space line)) as [|s [|m [|x l]]]; reflexivity.
Qed.

Lemma In_set_item {V : Type} (d : Py.dict V) k v kv :
  In kv (Py.set_item d k v) -> kv = (k, v) \/ In kv d.
Proof.
  induction d as [|[k' v'] d IH]; cbn [Py.set_item].
  - intros [<-|[]]. now left.
  - destruct (String.eqb k k').
    + intros [<-|H]; [now left | right; now right].
    + intros [<-|H]; [right; now left|].
      destruct (IH H); [now left | right; now right].
Qed.

Lemma read_lines_entries lines : forall d0 d,
  read_lines lines d0 = Loaded d ->
  forall kv, In kv d ->
             In kv d0 \/ exists line, In line lines /\ line_entry line = Some kv.
Proof.
  induction lines as [|line lines IH]; intros d0 d H kv Hkv; cbn [read_lines] in H.
  - injection H as ->. now left.
  - rewrite read_suffix_line_entry in H.
    destruct (line_entry line) as [[suff e]|] eqn:E; [|discriminate].
    destruct (IH _ _ H kv Hkv) as [Hin|(l & Hl & Hle)].
    + apply In_set_item in Hin as [->|Hin]; [|now left].
      right. exists line. split; [now left | assumption].
    + right. exists l. split; [now right | assumption].
Qed.

Lemma split_go_app_space a : forall cur b,
  Py.split_go cur (a ++ " "%char :: b) = Py.split_go cur a ++ Py.split_go [] b.
Proof.
  induction a as [|c a IH]; intros cur b.
  - cbn [app Py.split_go]. change (Py.isspace " ") with true. cbv iota.
    destruct cur; reflexivity.
  - cbn [app Py.split_go]. destruct (Py.isspace c).
    + destruct cur; rewrite IH; reflexivity.
    + apply IH.
Qed.

(** X24.  In the table [read_in_pie_suffixes] builds, the key of a
    record is not empty and its transcription splits into one phone for
    each letter of the key, the letter r standing for the phone [r\];
    so the phones [generate_entry] derives a suffixed word from are the
    phones of the root followed by the letters of the suffix. *)
Theorem read_in_pie_suffixes_phones :
  forall (lines : list string) (pie_suffixes : Py.dict suffix_entry)
         (suff : string) (e : suffix_entry),
    read_in_pie_suffixes lines = Loaded pie_suffixes ->
    Py.get pie_suffixes suff = Some e ->
    suff <> "" /\
    Py.split (suffix_pron e) = map phone_of_letter (Py.chars suff) /\
    forall root_pron : string,
      Py.split (root_pron +s " " +s suffix_pron e) =
      Py.split root_pron ++ map phone_of_letter (Py.chars suff).
Proof.
  intros lines d suff e Hread Hget. apply get_In in Hget.
  destruct (read_lines_entries lines [] d Hread _ Hget) as [[]|(line & _ & Hle)].
  destruct (line_entry_suffix line suff e Hle) as [Hsplit Hne].
  split; [assumption|]. split; [assumption|].
  intros root_pron. unfold Py.split in *.
  rewrite cat_assoc, !chars_append. change (Py.chars " ") with [" "%char].
  cbn [app]. now rewrite split_go_app_space, Hsplit.
Qed.

Lemma read_in_pie_suffixes_phones_witness :
  Py.split ("p h2" +s " " +s "t e r\") =
  Py.split "p h2" ++ map phone_of_letter (Py.chars "ter").
Proof.
  apply (read_in_pie_suffixes_phones
           ["-os  noun"; "ter   agent noun"] 
           [("-os", {| suffix_meaning := "noun"; suffix_pron := "- o s" |});
            ("ter", {| suffix_meaning := "agent noun"; suffix_pron := "t e r\" |})]
           "ter" {| suffix_meaning := "agent noun"; suffix_pron := "t e r\" |}).
  - reflexivity.
  - reflexivity.
Defined.

Lemma split_go_nonnil cs : forall cur, cur <> [] -> Py.split_go cur cs <> [].
Proof.
  induction cs as [|c cs IH]; intros cur Hcur; cbn [Py.split_go].
  - destruct cur; [contradiction | discriminate].
  - destruct (Py.isspace c); [destruct cur; [contradiction | discriminate]|].
    apply IH. discriminate.
Qed.

Lemma split_go_nil_iff cs : Py.split_go [] cs = [] <-> Py.lstrip_space cs = [].
Proof.
  induction cs as [|c cs IH]; cbn [Py.split_go Py.lstrip_space]; [tauto|].
  destruct (Py.isspace c); [exact IH|]. split; [|discriminate].
  intros H. exfalso. revert H. apply split_go_nonnil. discriminate.
Qed.

Lemma length_split_once_go cs : forall cur,
  length (Py.split_once_go cur cs) = Nat.min 2 (length (Py.split_go cur cs)).
Proof.
  induction cs as [|c cs IH]; intros cur; cbn [Py.split_once_go Py.split_go].
  - destruct cur; reflexivity.
  - destruct (Py.isspace c); [|apply IH].
    destruct cur as [|d cur]; [apply IH|].
    pose proof (split_go_nil_iff cs) as Hnil.
    destruct (Py.lstrip_space cs) eqn:El; destruct (Py.split_go [] cs) eqn:Es;
      cbn [length]; try reflexivity.
    + destruct Hnil as [_ Hnil]. specialize (Hnil eq_refl). discriminate.
    + destruct Hnil as [Hnil _]. specialize (Hnil eq_refl). discriminate.
Qed.

Lemma split_go_lstrip cs : Py.split_go [] (Py.lstrip_space cs) = Py.split_go [] cs.
Proof.
  induction cs as [|c cs IH]; [reflexivity|].
  cbn [Py.lstrip_space]. destruct (Py.isspace c) eqn:Hc; [|reflexivity].
  cbn [Py.split_go]. now rewrite Hc.
Qed.

Lemma lstrip_space_split cs :
  exists sp, cs = sp ++ Py.lstrip_space cs /\ forallb Py.isspace sp = true.
Proof.
  induction cs as [|c cs (sp & E & Hsp)]; [exists []; auto|].
  cbn [Py.lstrip_space]. destruct (Py.isspace c) eqn:Hc.
  - exists (c :: sp). cbn [app forallb]. rewrite Hc, Hsp. split; [congruence | reflexivity].
  - exists []. auto.
Qed.

Lemma split_go_trailing sp : forall cur,
  forallb Py.isspace sp = true -> Py.split_go cur sp = Py.split_go cur [].
Proof.
  induction sp as [|c sp IH]; intros cur Hsp; [reflexivity|].
  cbn [forallb] in Hsp. apply andb_true_iff in Hsp as [Hc Hsp].
  cbn [Py.split_go]. rewrite Hc. destruct cur; rewrite (IH [] Hsp); reflexivity.
Qed.

Lemma split_go_app_trailing a sp : forall cur,
  forallb Py.isspace sp = true -> Py.split_go cur (a ++ sp) = Py.split_go cur a.
Proof.
  induction a as [|c a IH]; intros cur Hsp; [now apply split_go_trailing|].
  cbn [app Py.split_go]. destruct (Py.isspace c); [|now apply IH].
  destruct cur; now rewrite IH.
Qed.

Lemma split_strip_space line : Py.split (Py.strip_space line) = Py.split line.
Proof.
  unfold Py.split, Py.strip_space. rewrite chars_str.
  rewrite <- (split_go_lstrip (Py.chars line)).
  generalize (Py.lstrip_space (Py.chars line)) as l. intros l.
  destruct (lstrip_space_split (rev l)) as (sp & E & Hsp).
  apply (f_equal (@rev ascii)) in E. rewrite rev_involutive, rev_app_distr in E.
  rewrite E at 2. symmetry. apply split_go_app_trailing. now apply forallb_rev.
Qed.

Lemma line_entry_none_iff line :
  line_entry line = None <-> length (Py.split line) < 2.
Proof.
  rewrite <- split_strip_space. unfold line_entry, Py.split.
  pose proof (length_split_once_go (Py.chars (Py.strip_space line)) []) as Hlen.
  unfold Py.split_once.
  destruct (Py.split_once_go [] (Py.chars (Py.strip_space line)))
    as [|s [|m [|x l]]]; cbn [length] in Hlen; split; intros H;
    try reflexivity; try discriminate; lia.
Qed.

Lemma read_lines_value_error lines : forall d,
  read_lines lines d = ValueError <->
  exists line, In line lines /\ line_entry line = None.
Proof.
  induction lines as [|line lines IH]; intros d; cbn [read_lines].
  - split; [discriminate | intros (l & [] & _)].
  - rewrite read_suffix_line_entry.
    destruct (line_entry line) as [[suff e]|] eqn:E.
    + rewrite IH. split.
      * intros (l & Hl & Hn). exists l. split; [now right | assumption].
      * intros (l & [<-|Hl] & Hn); [congruence|]. eauto.
    + split; [|reflexivity]. intros _. exists line. split; [now left | assumption].
Qed.

(** X25.  [read_in_pie_suffixes] raises ValueError exactly when some
    line of the file has fewer than two words, a blank line included;
    otherwise it returns a table. *)
Theorem read_in_pie_suffixes_value_error_iff :
  forall lines : list string,
    (read_in_pie_suffixes lines = ValueError <->
     exists line, In line lines /\ length (Py.split line) < 2) /\
    ((forall line, In line lines -> 2 <= length (Py.split line)) ->
     exists pie_suffixes, read_in_pie_suffixes lines = Loaded pie_suffixes).
Proof.
  intros lines.
  assert (Hiff : read_in_pie_suffixes lines = ValueError <->
                 exists line, In line lines /\ length (Py.split line) < 2).
  { unfold read_in_pie_suffixes. rewrite read_lines_value_error. split.
    - intros (l & Hl & Hn). exists l. split; [assumption|].
      now apply line_entry_none_iff.
    - intros (l & Hl & Hn). exists l. split; [assumption|].
      now apply line_entry_none_iff. }
  split; [exact Hiff|]. intros Hall.
  assert (Hor : (exists d, read_in_pie_suffixes lines = Loaded d) \/
                read_in_pie_suffixes lines = ValueError)
    by (destruct (read_in_pie_suffixes lines); eauto).
  destruct Hor as [Hd|E]; [assumption|].
  apply Hiff in E as (l & Hl & Hn). specialize (Hall l Hl). lia.
Qed.

Lemma get_set_item {V : Type} (d : Py.dict V) k v k' :
  Py.get (Py.set_item d k v) k' = if String.eqb k' k then Some v else Py.get d k'.
Proof.
  induction d as [|[k0 v0] d IH]; cbn [Py.set_item Py.get]; [reflexivity|].
  destruct (String.eqb_spec k k0) as [->|Hne]; cbn [Py.get].
  - destruct (String.eqb k' k0); reflexivity.
  - rewrite IH. destruct (String.eqb_spec k' k0) as [->|Hne'];
      [|reflexivity].
    destruct (String.eqb_spec k0 k) as [->|_]; [contradiction | reflexivity].
Qed.

Lemma read_lines_get lines : forall d0 d suff e,
  read_lines lines d0 = Loaded d ->
  (Py.get d suff = Some e <->
   (exists earlier line later,
       lines = earlier ++ line :: later /\
       line_entry line = Some (suff, e) /\
       forall l e', In l later -> line_entry l <> Some (suff, e')) \/
   ((forall l e', In l lines -> line_entry l <> Some (suff, e')) /\
    Py.get d0 suff = Some e)).
Proof.
  induction lines as [|line lines IH]; intros d0 d suff e H; cbn [read_lines] in H.
  - injection H as ->. split.
    + intros Hg. right. split; [intros l e' []|assumption].
    + intros [(pre & l & post & E & _)|[_ Hg]]; [|assumption].
      destruct pre; discriminate.
  - rewrite read_suffix_line_entry in H.
    destruct (line_entry line) as [[s0 e0]|] eqn:E0; [|discriminate].
    rewrite (IH _ _ suff e H), get_set_item. split.
    + intros [(pre & l & post & -> & Hl & Hpost)|[Hnone Hg]].
      * left. exists (line :: pre), l, post. auto.
      * destruct (String.eqb_spec suff s0) as [->|Hne].
        -- injection Hg as <-. left. exists [], line, lines. auto.
        -- right. split; [|assumption].
           intros l e' [<-|Hl]; [congruence | now apply Hnone].
    + intros [(pre & l & post & Epre & Hl & Hpost)|[Hnone Hg]].
      * destruct pre as [|x pre]; cbn [app] in Epre; injection Epre as -> ->.
        -- right. split; [assumption|].
           rewrite E0 in Hl. injection Hl as -> ->. now rewrite String.eqb_refl.
        -- left. exists pre, l, post. auto.
      * right. split; [intros l e' Hl; apply Hnone; now right|].
        destruct (String.eqb_spec suff s0) as [->|_]; [|assumption].
        exfalso. apply (Hnone line e0); [now left | assumption].
Qed.

(** X26.  The table [read_in_pie_suffixes] returns holds, for a suffix,
    the record of the last line of the file that begins with it: the
    meaning is the rest of that line, and an earlier line with the same
    suffix is overwritten. *)
Theorem read_in_pie_suffixes_last_line_wins :
  forall (lines : list string) (pie_suffixes : Py.dict suffix_entry)
         (suff : string) (e : suffix_entry),
    read_in_pie_suffixes lines = Loaded pie_suffixes ->
    (Py.get pie_suffixes suff = Some e <->
     exists earlier line later,
       lines = earlier ++ line :: later /\
       Py.split_once (Py.strip_space line) = [suff; suffix_meaning e] /\
       line_entry line = Some (suff, e) /\
       forall l, In l later -> forall m, Py.split_once (Py.strip_space l) <> [suff; m]).
Proof.
  intros lines d suff e H. unfold read_in_pie_suffixes in H.
  rewrite (read_lines_get lines [] d suff e H). split.
  - intros [(pre & l & post & -> & Hl & Hpost)|[_ Hg]]; [|discriminate].
    exists pre, l, post. split; [reflexivity|]. split; [|split; [assumption|]].
    + unfold line_entry in Hl.
      destruct (Py.split_once (Py.strip_space l)) as [|s [|m [|x r]]];
        try discriminate.
      now injection Hl as -> <-.
    + intros l' Hl' m Hm. eapply (Hpost l' _ Hl'). unfold line_entry.
      rewrite Hm. reflexivity.
  - intros (pre & l & post & -> & _ & Hl & Hpost). left.
    exists pre, l, post. split; [reflexivity|]. split; [assumption|].
    intros l' e' Hl' He'. unfold line_entry in He'.
    destruct (Py.split_once (Py.strip_space l')) as [|s [|m [|x r]]] eqn:E;
      try discriminate.
    injection He' as -> _. exact (Hpost l' Hl' m E).
Qed.

Lemma read_in_pie_suffixes_last_line_wins_witness :
  Py.get [("ter", {| suffix_meaning := "agent noun"; suffix_pron := "t e r\" |})]
         "ter"
  = Some {| suffix_meaning := "agent noun"; suffix_pron := "t e r\" |}.
Proof.
  apply (read_in_pie_suffixes_last_line_wins
           ["ter kinship"; "ter   agent noun"]
           [("ter", {| suffix_meaning := "agent noun"; suffix_pron := "t e r\" |})]
           "ter" {| suffix_meaning := "agent noun"; suffix_pron := "t e r\" |}).
  - reflexivity.
  - exists ["ter kinship"], "ter   agent noun", [].
    repeat split. intros l [].
Defined.

(* ===================================================================== *)
(** ** What the stages leave behind *)

Lemma sound_change_In pron m p q out x :
  sound_change pron m p q = Ok out -> In x out ->
  In x pron \/ exists k, In k pron /\ Py.get m k = Some x.
Proof.
  unfold sound_change. intros H Hx.
  apply bind_Ok_inv in H as (rp & Hp & H). apply bind_Ok_inv in H as (rq & Hq & H).
  pose proof (sound_change_compiled pron m p q rp rq Hp Hq) as E.
  unfold sound_change in E. rewrite Hp, Hq, !bind_Ok in E. rewrite E in H.
  apply Ok_inj in H. subst out. apply filter_In in Hx as [Hx _].
  apply in_map_iff in Hx as ([i y] & <- & Hin).
  apply In_enumerate in Hin. apply nth_error_In in Hin.
  unfold emitted_at. cbn [fst snd].
  destruct (Py.get m y) as [v|] eqn:Hg; [|now left].
  destruct (_ && _); [right; eauto | now left].
Qed.

(** A phone that is not in the input and is no value of the rule map is
    not in the output. *)
Lemma absent_step pron m p q out x :
  sound_change pron m p q = Ok out ->
  ~ In x pron -> Py.mem x (map snd m) = false -> ~ In x out.
Proof.
  intros H Hpron Hval Hx.
  destruct (sound_change_In _ _ _ _ _ _ H Hx) as [Hin|(k & _ & Hg)]; [auto|].
  apply get_In in Hg. apply (in_map snd) in Hg. cbn [snd] in Hg.
  apply mem_In in Hg. congruence.
Qed.

(** A key of an unconditioned rule map that is no value of it is not in
    the output. *)
Lemma absent_plain pron m out x :
  sound_change pron m ".*" ".*" = Ok out ->
  Py.has m x = true -> Py.mem x (map snd m) = false -> ~ In x out.
Proof.
  rewrite sound_change_plain. intros H Hkey Hval Hx.
  apply Ok_inj in H. subst out. apply filter_In in Hx as [Hx _].
  apply in_map_iff in Hx as (y & E & _). unfold apply_map in E.
  destruct (Py.get m y) as [v|] eqn:Hg.
  - subst v. apply get_In in Hg. apply (in_map snd) in Hg. cbn [snd] in Hg.
    apply mem_In in Hg. congruence.
  - subst y. unfold Py.has in Hkey. rewrite Hg in Hkey. discriminate.
Qed.

(** Following a phone that is gone through the engine calls after the
    one that removed it. *)
Ltac gone :=
  repeat match goal with
         | E : sound_change ?a ?m ".*" ".*" = Ok ?b |- ~ In ?x ?b =>
             first [ exact (absent_plain a m b x E eq_refl eq_refl)
                   | apply (absent_step a m ".*" ".*" b x E); [|reflexivity] ]
         | E : sound_change ?a ?m ?p ?q = Ok ?b |- ~ In ?x ?b =>
             apply (absent_step a m p q b x E); [|reflexivity]
         end.

Ltac each_phone Hp :=
  simpl in Hp; repeat (destruct Hp as [<-|Hp]; [gone|]); destruct Hp.

(** X27.  What three stages never leave in their output, whatever the
    input is: Proto-Germanic no long diphthong and none of [oi], [ou],
    [eI]; Old English none of [Gw], [D], [ai], [au], [eu], [iu]; Middle
    English none of [G], [k_>], [xw].  The rules that remove these phones
    are unconditioned and no later rule of the stage brings them back. *)
Theorem stages_leave_no_shifted_phone :
  (forall pron out : list Phone,
      proto_germanic_changes pron = Ok out ->
      forall p, In p ["eI:"; "ai:"; "oi:"; "eu:"; "au:"; "ou:"; "oi"; "ou"; "eI"] ->
                ~ In p out)
  /\ (forall pron out : list Phone,
         old_english_changes pron = Ok out ->
         forall p, In p ["Gw"; "D"; "ai"; "au"; "eu"; "iu"] -> ~ In p out)
  /\ (forall pron out : list Phone,
         middle_english_changes pron = Ok out ->
         forall p, In p ["G"; "k_>"; "xw"] -> ~ In p out).
Proof.
  split; [|split]; intros pron out.
  - unfold proto_germanic_changes. intros H p Hp.
    do 6 (apply bind_Ok_inv in H as (? & _ & H); cbv beta zeta in H).
    apply bind_Ok_inv in H as (o8 & E8 & H).
    apply bind_Ok_inv in H as (o9 & E9 & H).
    apply bind_Ok_inv in H as (o10 & E10 & H).
    apply Ok_inj in H. subst o10. each_phone Hp.
  - unfold old_english_changes. intros H p Hp.
    apply bind_Ok_inv in H as (o1 & _ & H).
    apply bind_Ok_inv in H as (o2 & E2 & H).
    apply bind_Ok_inv in H as (o3 & E3 & H).
    apply bind_Ok_inv in H as (o4 & E4 & H).
    apply bind_Ok_inv in H as (o5 & E5 & H).
    apply bind_Ok_inv in H as (o6 & E6 & H).
    apply bind_Ok_inv in H as (o7 & E7 & H).
    apply bind_Ok_inv in H as (o8 & E8 & H).
    apply bind_Ok_inv in H as (o9 & E9 & H).
    apply bind_Ok_inv in H as (o10 & E10 & H).
    apply bind_Ok_inv in H as (o11 & E11 & H).
    apply bind_Ok_inv in H as (o12 & E12 & H).
    apply bind_Ok_inv in H as (o13 & E13 & H).
    apply bind_Ok_inv in H as (o14 & E14 & H).
    apply bind_Ok_inv in H as (o15 & E15 & H).
    apply bind_Ok_inv in H as (o16 & E16 & H).
    apply bind_Ok_inv in H as (o17 & E17 & H).
    apply bind_Ok_inv in H as (o18 & E18 & H).
    apply Ok_inj in H. subst o18. each_phone Hp.
  - unfold middle_english_changes. intros H p Hp.
    do 10 (apply bind_Ok_inv in H as (? & _ & H); cbv beta zeta in H).
    apply bind_Ok_inv in H as (o11 & E11 & H).
    apply bind_Ok_inv in H as (o12 & E12 & H).
    apply bind_Ok_inv in H as (o13 & E13 & H).
    apply bind_Ok_inv in H as (o14 & E14 & H).
    apply bind_Ok_inv in H as (o15 & E15 & H).
    apply Ok_inj in H. subst o15. each_phone Hp.
Qed.

(* ===================================================================== *)
(** ** Edge cases: an empty phone, a random suffix *)

Lemma me_diphthongization_loop_raises pron :
  forall fuel phone new_phone e,
    me_diphthongization_loop fuel pron phone new_phone = Raise e ->
    e = IndexError /\
    exists i, S i < length pron /\ nth_error pron i = Some "".
Proof.
  induction fuel as [|fuel IH]; intros phone acc e; cbn [me_diphthongization_loop].
  - destruct (negb (phone <? length pron)); discriminate.
  - destruct (Nat.ltb_spec phone (length pron)) as [Hlt|Hge]; cbn [negb];
      [|discriminate].
    destruct (nth_error pron phone) as [p|] eqn:Ep;
      [|apply nth_error_None in Ep; lia].
    rewrite (nth_error_item _ _ _ Ep).
    destruct (Z.eqb_spec (Z.of_nat phone) (Z.of_nat (length pron) - 1)) as [Hl|Hl].
    + rewrite bind_Ok. apply IH.
    + destruct (nth_error pron (phone + 1)) as [next|] eqn:En;
        [|apply nth_error_None in En; lia].
      rewrite (nth_error_item _ _ _ En), bind_Ok.
      destruct (String.eqb_spec p "") as [->|Hp].
      * intros H. cbn in H. injection H as <-. split; [reflexivity|].
        exists phone. split; [lia | assumption].
      * assert (Hpne : nonempty p = true) by now apply nonempty_ne.
        rewrite (ends_with_colon_final p Hpne), bind_Ok.
        cbv zeta. generalize (if has_final_colon p then Py.drop_last_char p else p).
        intros p_lookup. unfold Py.has.
        destruct (Py.get dip_i p_lookup) as [d|];
          destruct (Py.get dip_u p_lookup) as [d'|];
          cbn [and_then bind];
          repeat (match goal with
                  | |- context [Py.mem next ?l] => destruct (Py.mem next l)
                  end; cbn [and_then bind]);
          apply IH.
Qed.

(** X28.  [me_diphthongization] raises nothing but IndexError, and only
    on a word that holds an empty phone before its last phone: reading
    the last character of that phone is what fails. *)
Theorem me_diphthongization_raises_only_on_empty_phone :
  forall (pron : list Phone) (e : exn),
    me_diphthongization pron = Raise e ->
    e = IndexError /\
    exists i, S i < length pron /\ nth_error pron i = Some "".
Proof.
  intros pron e. unfold me_diphthongization. apply me_diphthongization_loop_raises.
Qed.

Lemma me_diphthongization_raises_only_on_empty_phone_witness :
  me_diphthongization ["a"; ""; "n"] = Raise IndexError /\
  IndexError = IndexError /\
  exists i, S i < length ["a"; ""; "n"] /\ nth_error ["a"; ""; "n"] i = Some "".
Proof.
  split; [reflexivity|].
  exact (me_diphthongization_raises_only_on_empty_phone
           ["a"; ""; "n"] IndexError eq_refl).
Defined.

(** X29.  With the suffix [random] and a root that resolves,
    [generate_entry] raises IndexError when the table of suffixes is
    empty; otherwise it draws a key of the table, whose record is found,
    and goes on as it does when that key is given as the suffix. *)
Theorem generate_entry_random_suffix :
  forall (pie_roots : Py.dict root_entry) (pie_suffixes : Py.dict suffix_entry)
         (spelling_model : p2g_model) (xsampa2ipa : Py.dict string)
         (root_draw suffix_draw : nat) (pie_token t : string),
    resolve_root pie_roots root_draw pie_token = Ok (Some t) ->
    (pie_suffixes = [] ->
     generate_entry pie_roots pie_suffixes spelling_model xsampa2ipa
                    root_draw suffix_draw pie_token "random" = Raise IndexError) /\
    (pie_suffixes <> [] ->
     exists suff e,
       random_choice suffix_draw (map fst pie_suffixes) = Ok suff /\
       lookup pie_suffixes suff = Ok e /\
       generate_entry pie_roots pie_suffixes spelling_model xsampa2ipa
                      root_draw suffix_draw pie_token "random" =
       generate_entry pie_roots pie_suffixes spelling_model xsampa2ipa
                      root_draw suffix_draw pie_token suff).
Proof.
  intros roots suffixes model table d1 d2 tok t Hres. split.
  - intros ->. unfold generate_entry. rewrite Hres, bind_Ok.
    change (String.eqb "random" "random") with true. cbv iota.
    unfold random_choice, Py.item. cbn [map length].
    destruct (d2 mod 0); reflexivity.
  - intros Hne.
    assert (Hlt : d2 mod length (map fst suffixes) < length (map fst suffixes)).
    { apply Nat.mod_upper_bound. rewrite length_map. destruct suffixes;
        [contradiction | discriminate]. }
    destruct (nth_error (map fst suffixes) (d2 mod length (map fst suffixes)))
      as [suff|] eqn:E; [|apply nth_error_None in E; lia].
    assert (Hdraw : random_choice d2 (map fst suffixes) = Ok suff)
      by (unfold random_choice, Py.item; now rewrite E).
    apply nth_error_In, in_map_iff in E as ([k e] & Hk & Hin). cbn [fst] in Hk.
    subst k. destruct (In_get suffixes suff e Hin) as (e' & He').
    exists suff, e'. split; [assumption|]. split; [unfold lookup; now rewrite He'|].
    unfold generate_entry. rewrite Hres, !bind_Ok.
    change (String.eqb "random" "random") with true. cbv iota.
    destruct (String.eqb_spec suff "random") as [->|_]; [reflexivity|].
    now rewrite Hdraw.
Qed.

Lemma generate_entry_random_suffix_witness :
  generate_entry roots_pet [] model_f ipa_pet 0 0 "to fly" "random" = Raise IndexError.
Proof.
  apply (generate_entry_random_suffix roots_pet [] model_f ipa_pet 0 0 "to fly" "pet").
  - reflexivity.
  - reflexivity.
Defined.
